(** * Zephyr CI: planner, step executor, warm pool and scheduler

    A shallow embedding of the parts of the Zephyr CI orchestrator that the
    specification makes claims about, together with the theorems settling
    those claims.

    - [Js]         JavaScript values, records with insertion-ordered keys.
    - [Matrix]     [matrix/expand.ts] and the [matrix] placeholder helper.
    - [Runner]     [executor/runner.ts]: [runCommand], [runStep], [runJob].
    - [WarmPool]   [pool/warm-pool.ts]: [acquire], [release], [replenish].
    - [Scheduler]  [scheduler/index.ts]: [queuePipelineRun], [processQueue].

    Conventions.  A JavaScript object used as a record, and a [Map], are
    association lists in insertion order with pairwise distinct keys.  That
    is the order [Object.keys], [Object.entries] and [Map] iteration follow
    for keys that are not canonical array indices (configuration keys are
    names such as [os] or [node]).  Numbers are the integers, for which
    [String(n)] is the decimal numeral and [===] is equality.  Characters are
    bytes, so the line terminators a regular expression's [.] stops at are
    LF and CR. *)

From Stdlib Require Import List String Ascii ZArith Bool Arith Lia.
From Stdlib Require Import Numbers.DecimalString.
From Stdlib Require Import Sorting.Permutation.
Import ListNotations.

Local Open Scope string_scope.
Local Open Scope list_scope.

(* ================================================================== *)
(** * JavaScript values and records *)
(* ================================================================== *)

Module Js.

(** A matrix scalar ([string | number | boolean]) or [undefined], which is
    what reading an absent property or an absent array element yields. *)
Inductive value : Type :=
| VStr (s : string)
| VNum (n : Z)
| VBool (b : bool)
| VUndef.

(** [a === b] *)
Definition strict_eq (a b : value) : bool :=
  match a, b with
  | VStr x, VStr y => String.eqb x y
  | VNum x, VNum y => Z.eqb x y
  | VBool x, VBool y => Bool.eqb x y
  | VUndef, VUndef => true
  | _, _ => false
  end.

Definition string_of_Z (n : Z) : string :=
  NilZero.string_of_int (Z.to_int n).

(** [String(v)], also what a template literal does to [v]. *)
Definition to_string (v : value) : string :=
  match v with
  | VStr s => s
  | VNum n => string_of_Z n
  | VBool true => "true"
  | VBool false => "false"
  | VUndef => "undefined"
  end.

(** An object with values in [A]: its own properties in insertion order,
    which is the order [Object.keys] lists them in when none of the keys
    is an array index.  Properties inherited from [Object.prototype] are
    no part of it. *)
Definition Obj (A : Type) : Type := list (string * A).

Definition keys {A} (o : Obj A) : list string := map fst o.

Fixpoint lookup {A} (o : Obj A) (k : string) : option A :=
  match o with
  | [] => None
  | (k', v) :: o' => if String.eqb k' k then Some v else lookup o' k
  end.

Definition has {A} (o : Obj A) (k : string) : bool :=
  match lookup o k with Some _ => true | None => false end.

(** [o[k] = v]: an existing key keeps its place, a new key goes last. *)
Fixpoint set {A} (o : Obj A) (k : string) (v : A) : Obj A :=
  match o with
  | [] => [(k, v)]
  | (k', v') :: o' =>
      if String.eqb k' k then (k', v) :: o' else (k', v') :: set o' k v
  end.

(** [delete o[k]] and [Map.prototype.delete]. *)
Fixpoint remove {A} (o : Obj A) (k : string) : Obj A :=
  match o with
  | [] => []
  | (k', v') :: o' =>
      if String.eqb k' k then o' else (k', v') :: remove o' k
  end.

(** [Object.assign(target, source)], also [{ ...target, ...source }]. *)
Definition assign {A} (target source : Obj A) : Obj A :=
  fold_left (fun acc kv => set acc (fst kv) (snd kv)) source target.

(** [Object.fromEntries(entries)] *)
Definition fromEntries {A} (entries : list (string * A)) : Obj A :=
  assign [] entries.

(** Reading a property of a record of scalars: [o[k]]. *)
Definition get (o : Obj value) (k : string) : value :=
  match lookup o k with Some v => v | None => VUndef end.

(** [xs.join(sep)] *)
Fixpoint join (sep : string) (xs : list string) : string :=
  match xs with
  | [] => ""
  | [x] => x
  | x :: rest => (x ++ sep ++ join sep rest)%string
  end.

(** ** Text scanning, as the regular expressions of the code do it *)

Definition LF : ascii := ascii_of_nat 10.
Definition CR : ascii := ascii_of_nat 13.

(** [s.startsWith(p)], returning what follows the prefix. *)
Fixpoint strip_prefix (p s : string) : option string :=
  match p, s with
  | EmptyString, _ => Some s
  | String a p', String b s' =>
      if Ascii.eqb a b then strip_prefix p' s' else None
  | String _ _, EmptyString => None
  end.

(** The longest prefix whose characters satisfy [f], and the rest: what a
    greedy [c*] or [c+] of a single character class takes. *)
Fixpoint span (f : ascii -> bool) (s : string) : string * string :=
  match s with
  | EmptyString => (EmptyString, EmptyString)
  | String c s' =>
      if f c then let (a, b) := span f s' in (String c a, b)
      else (EmptyString, s)
  end.

Definition in_range (lo hi : nat) (c : ascii) : bool :=
  let n := nat_of_ascii c in ((lo <=? n)%nat && (n <=? hi)%nat)%bool.

(** [\w] *)
Definition is_word (c : ascii) : bool :=
  in_range 65 90 c || in_range 97 122 c || in_range 48 57 c
  || Ascii.eqb c "_"%char.

(** [\s] *)
Definition is_space (c : ascii) : bool :=
  in_range 9 13 c || Ascii.eqb c " "%char.

(** [.] *)
Definition is_dot (c : ascii) : bool :=
  negb (Ascii.eqb c LF || Ascii.eqb c CR).

(** [[^:]] *)
Definition not_colon (c : ascii) : bool := negb (Ascii.eqb c ":"%char).

Definition is_empty (s : string) : bool :=
  match s with EmptyString => true | String _ _ => false end.

(** Every character of [s] satisfies [f]. *)
Fixpoint all_chars (f : ascii -> bool) (s : string) : bool :=
  match s with
  | EmptyString => true
  | String c s' => f c && all_chars f s'
  end.

(** [s] is empty or starts with a character that fails [f]. *)
Definition stops (f : ascii -> bool) (s : string) : bool :=
  match s with
  | EmptyString => true
  | String c _ => negb (f c)
  end.

End Js.

(* ================================================================== *)
(** * Configuration types ([@zephyr-ci/types], as the code uses them) *)
(* ================================================================== *)

Module Types.
Import Js.

Inductive StepStatus : Type := StSuccess | StFailure | StSkipped.

Record StepResult : Type := mkStepResult {
  sr_status : StepStatus;
  sr_outcome : StepStatus;
  sr_outputs : Obj string
}.

(** [step.if]: a predicate on the run context, or an expression string.
    The context a predicate receives is [{ ...context, needs, steps }];
    [context] and [needs] are fixed for a job, [steps] is the argument. *)
Inductive StepIf : Type :=
| IfFn (f : Obj StepResult -> bool)
| IfStr (s : string).

Inductive StepKind : Type :=
| RunStep (run : string) (shell : option string)
| SetupStep (runtime version : string).

Record StepDefinition : Type := mkStep {
  step_kind : StepKind;
  step_id : option string;
  step_name : string;
  step_if : option StepIf;
  step_env : Obj string;
  step_workdir : option string;
  step_continueOnError : bool;
  step_timeout : option Z
}.

Record MatrixConfig : Type := mkMatrix {
  mx_values : Obj (list value);
  mx_exclude : list (Obj value);
  mx_include : list (Obj value);
  mx_maxParallel : option Z
}.

Record JobDefinition : Type := mkJob {
  job_name : string;
  job_runner : option string;      (* [job.runner?.image] *)
  job_dependsOn : list string;
  job_env : Obj string;
  job_steps : list StepDefinition;
  job_matrix : option MatrixConfig
}.

Record PipelineDefinition : Type := mkPipeline {
  pl_name : string;
  pl_triggers : list string;
  pl_env : Obj string;
  pl_jobs : list JobDefinition
}.

End Types.

(* ================================================================== *)
(** * Matrix expansion ([matrix/expand.ts]) *)
(* ================================================================== *)

Module Matrix.
Import Js Types.

Record MatrixCombination : Type := mkCombo {
  mc_index : nat;
  mc_values : Obj value;
  mc_nameSuffix : string
}.

Record ExpandedJob : Type := mkExpanded {
  ej_job : JobDefinition;
  ej_matrix : option MatrixCombination;
  ej_instanceId : string;
  ej_displayName : string
}.

(** [values[d]!] for a dimension name [d]. *)
Definition dim_values (values : Obj (list value)) (d : string) : list value :=
  match lookup values d with Some vs => vs | None => [] end.

(** [cartesianProduct].  The recursive call is on the object rebuilt from
    the remaining dimensions, so the recursion is on a bound for the number
    of dimensions; [cartesianProduct] supplies the number itself. *)
Fixpoint cartesianProduct_fuel (fuel : nat) (values : Obj (list value))
  : list (Obj value) :=
  match keys values with
  | [] => [ [] ]
  | first :: rest =>
      let firstValues := dim_values values first in
      match rest with
      | [] => map (fun v => [(first, v)]) firstValues
      | _ :: _ =>
          match fuel with
          | O => []
          | S fuel' =>
              let restProduct :=
                cartesianProduct_fuel fuel'
                  (fromEntries (map (fun d => (d, dim_values values d)) rest)) in
              flat_map
                (fun v => map (fun restCombo => assign [(first, v)] restCombo)
                              restProduct)
                firstValues
          end
      end
  end.

Definition cartesianProduct (values : Obj (list value)) : list (Obj value) :=
  cartesianProduct_fuel (List.length (keys values)) values.

(** [Object.keys(pattern).every((key) => combo[key] === pattern[key])] *)
Definition matches_all (combo pattern : Obj value) : bool :=
  forallb (fun key => strict_eq (get combo key) (get pattern key))
          (keys pattern).

(** [shouldExclude] *)
Definition shouldExclude (combo : Obj value) (exclusions : list (Obj value))
  : bool :=
  existsb (fun exclusion => matches_all combo exclusion) exclusions.

(** [generateNameSuffix] *)
Definition generateNameSuffix (combo : Obj value) : string :=
  join ", " (map (fun kv => (fst kv ++ "=" ++ to_string (snd kv))%string) combo).

(** [inclusion[dim] ?? values[dim]![0]!] *)
Definition fill_dim (values : Obj (list value)) (inclusion : Obj value)
  (dim : string) : value :=
  match get inclusion dim with
  | VUndef => nth 0 (dim_values values dim) VUndef
  | v => v
  end.

(** One turn of the loop over [include]. *)
Definition apply_inclusion (values : Obj (list value))
  (combinations : list (Obj value)) (inclusion : Obj value)
  : list (Obj value) :=
  let exists_ := existsb (fun combo => matches_all combo inclusion) combinations in
  if exists_ then combinations
  else
    let fullCombo :=
      fold_left (fun acc dim => set acc dim (fill_dim values inclusion dim))
                (keys values) [] in
    combinations ++ [assign fullCombo inclusion].

(** The [combinations.map((combo, index) => ...)] of [generateCombinations]. *)
Fixpoint number_from (index : nat) (combinations : list (Obj value))
  : list MatrixCombination :=
  match combinations with
  | [] => []
  | combo :: rest =>
      mkCombo index combo (generateNameSuffix combo) :: number_from (S index) rest
  end.

(** [generateCombinations]; [maxParallel] is read and has no effect. *)
Definition generateCombinations (matrix : MatrixConfig)
  : list MatrixCombination :=
  let values := mx_values matrix in
  let dimensions := keys values in
  match dimensions with
  | [] => []
  | _ :: _ =>
      let combinations := cartesianProduct values in
      let combinations :=
        filter (fun combo => negb (shouldExclude combo (mx_exclude matrix)))
               combinations in
      let combinations :=
        fold_left (apply_inclusion values) (mx_include matrix) combinations in
      number_from 0 combinations
  end.

(** The [combinations.map((combo, index) => ...)] of [expandMatrix]. *)
Fixpoint instances_from (job : JobDefinition) (index : nat)
  (combinations : list MatrixCombination) : list ExpandedJob :=
  match combinations with
  | [] => []
  | combo :: rest =>
      mkExpanded job
        (Some (mkCombo index (mc_values combo) (mc_nameSuffix combo)))
        (job_name job ++ "-" ++ mc_nameSuffix combo)
        (job_name job ++ " (" ++ mc_nameSuffix combo ++ ")")
      :: instances_from job (S index) rest
  end.

(** [expandMatrix] *)
Definition expandMatrix (job : JobDefinition) : list ExpandedJob :=
  match job_matrix job with
  | None => [mkExpanded job None (job_name job) (job_name job)]
  | Some matrix => instances_from job 0 (generateCombinations matrix)
  end.

(** [expandPipelineJobs] *)
Definition expandPipelineJobs (jobs : list JobDefinition) : list ExpandedJob :=
  flat_map expandMatrix jobs.

(** One attempt of [/\$\{\{\s*matrix\.(\w+)\s*\}\}/] at the start of
    [text]: the captured key and the text after the match.  Each greedy
    class is followed by a character outside it, so the longest run is the
    only one that can succeed. *)
Definition match_placeholder (text : string) : option (string * string) :=
  match strip_prefix "${{" text with
  | None => None
  | Some t1 =>
      match strip_prefix "matrix." (snd (span is_space t1)) with
      | None => None
      | Some t2 =>
          let (key, t3) := span is_word t2 in
          if is_empty key then None
          else
            match strip_prefix "}}" (snd (span is_space t3)) with
            | None => None
            | Some rest => Some (key, rest)
            end
      end
  end.

(** The replacement callback of [interpolateMatrix]. *)
Definition replacement (matrix : Obj value) (key : string) : string :=
  match get matrix key with
  | VUndef => ""
  | v => to_string v
  end.

(** [text.replace(regex, callback)] with the global flag: matches are
    sought left to right, each search resuming after the previous match.
    Every turn consumes a character; [fuel] bounds the turns. *)
Fixpoint replace_fuel (fuel : nat) (text : string) (matrix : Obj value)
  : string :=
  match fuel with
  | O => text
  | S fuel' =>
      match match_placeholder text with
      | Some (key, rest) =>
          (replacement matrix key ++ replace_fuel fuel' rest matrix)%string
      | None =>
          match text with
          | EmptyString => EmptyString
          | String c text' => String c (replace_fuel fuel' text' matrix)
          end
      end
  end.

(** [interpolateMatrix] *)
Definition interpolateMatrix (text : string) (matrix : Obj value) : string :=
  replace_fuel (S (String.length text)) text matrix.

(** The [matrix] helper of the configuration package. *)
Definition matrix (key : string) : string :=
  ("${{ matrix." ++ key ++ " }}")%string.

(** ** The planner's contract, in the specification's words *)

(** The Cartesian product of the dimensions in declaration order, the
    first dimension outermost. *)
Fixpoint spec_product (dims : Obj (list value)) : list (Obj value) :=
  match dims with
  | [] => [ [] ]
  | (k, vs) :: rest =>
      flat_map (fun v => map (fun c => (k, v) :: c) (spec_product rest)) vs
  end.

(** A combination agrees with a pattern on every pair the pattern lists. *)
Definition spec_agrees (combo pattern : Obj value) : bool :=
  forallb (fun kv => strict_eq (get combo (fst kv)) (snd kv)) pattern.

(** A dimension's first listed value ([undefined] if it lists none). *)
Definition spec_first (vs : list value) : value := hd VUndef vs.

(** The combination synthesised for an inclusion: every dimension in
    declaration order, with the inclusion's value where it gives one and
    the dimension's first value otherwise, then the inclusion's other
    keys. *)
Definition spec_synthesise (dims : Obj (list value)) (inclusion : Obj value)
  : Obj value :=
  map (fun d => (fst d, match get inclusion (fst d) with
                        | VUndef => spec_first (snd d)
                        | v => v
                        end)) dims
  ++ filter (fun kv => negb (has dims (fst kv))) inclusion.

(** Inclusions are taken in order; one that agrees with no combination
    present so far is appended. *)
Fixpoint spec_include (dims : Obj (list value)) (combos : list (Obj value))
  (inclusions : list (Obj value)) : list (Obj value) :=
  match inclusions with
  | [] => combos
  | inc :: rest =>
      if existsb (fun c => spec_agrees c inc) combos
      then spec_include dims combos rest
      else spec_include dims (combos ++ [spec_synthesise dims inc]) rest
  end.

Definition spec_combinations (m : MatrixConfig) : list (Obj value) :=
  spec_include (mx_values m)
    (filter (fun c => negb (existsb (fun e => spec_agrees c e) (mx_exclude m)))
            (spec_product (mx_values m)))
    (mx_include m).

(** The comma-joined [key=value] list of a combination. *)
Definition spec_suffix (combo : Obj value) : string :=
  join ", " (map (fun kv => (fst kv ++ "=" ++ to_string (snd kv))%string) combo).

(** The instance of a job for the combination at a position. *)
Definition spec_instance (job : JobDefinition) (index : nat)
  (combo : Obj value) : ExpandedJob :=
  mkExpanded job (Some (mkCombo index combo (spec_suffix combo)))
    (job_name job ++ "-" ++ spec_suffix combo)
    (job_name job ++ " (" ++ spec_suffix combo ++ ")").

Definition spec_expand (job : JobDefinition) (m : MatrixConfig)
  : list ExpandedJob :=
  let combos := spec_combinations m in
  map (fun ic => spec_instance job (fst ic) (snd ic))
      (combine (seq 0 (List.length combos)) combos).

(** A record as an object can be: no key twice. *)
Definition distinct_keys {A} (o : Obj A) : Prop := NoDup (keys o).

(** A record of scalars holds no [undefined]. *)
Definition scalars_only (o : Obj value) : Prop :=
  Forall (fun kv => snd kv <> VUndef) o.

(** A key the interpolation pattern can capture: one or more of [A-Z],
    [a-z], [0-9] and [_]. *)
Definition word_key (k : string) : bool :=
  negb (is_empty k) && all_chars is_word k.

Definition scenario3_job : JobDefinition :=
  mkJob "test" (Some "ubuntu-22.04") [] [] []
    (Some (mkMatrix
       [("os", [VStr "ubuntu"; VStr "alpine"]); ("node", [VNum 18; VNum 20])]
       [[("os", VStr "alpine"); ("node", VNum 18)]]
       [] None)).

End Matrix.


(* ================================================================== *)
(** * Step executor ([executor/runner.ts]) *)
(* ================================================================== *)

Module Runner.
Import Js Types.

(** What [Bun.spawn] is called with. *)
Record SpawnArgs : Type := mkSpawn {
  sp_argv : list string;
  sp_cwd : string;
  sp_env : Obj string
}.

(** What [runCommand] observes of the process it spawned, in the order it
    observes it: chunks read from the two pipes, and the timer callback
    running, which it does only while the process has not finished. *)
Inductive ProcEvent : Type :=
| Stdout (text : string)
| Stderr (text : string)
| TimerExpired.

Record ProcRun : Type := mkProcRun {
  pr_events : list ProcEvent;
  pr_exited : Z                    (* [await proc.exited] *)
}.

Definition timeout_notice : string :=
  (String LF "[TIMEOUT] Step exceeded timeout limit")%string.

(** The mutable locals of [runCommand]. *)
Record CmdState : Type := mkCmdState {
  cs_output : string;
  cs_killed : bool;
  cs_timer : bool;                 (* a timeout is pending *)
  cs_kills : nat                   (* calls of [proc.kill()] *)
}.

Definition on_event (st : CmdState) (e : ProcEvent) : CmdState :=
  match e with
  | Stdout text | Stderr text =>
      mkCmdState (cs_output st ++ text) (cs_killed st) (cs_timer st) (cs_kills st)
  | TimerExpired =>
      if cs_timer st
      then mkCmdState (cs_output st ++ timeout_notice) true false (S (cs_kills st))
      else st
  end.

(** The text of the chunks among some events, in order. *)
Fixpoint text_of (events : list ProcEvent) : string :=
  match events with
  | [] => ""
  | Stdout text :: rest | Stderr text :: rest => (text ++ text_of rest)%string
  | TimerExpired :: rest => text_of rest
  end.

(** [if (options.timeout)]: a number that is neither absent nor zero. *)
Definition truthy_timeout (timeout : option Z) : bool :=
  match timeout with
  | Some t => negb (Z.eqb t 0)
  | None => false
  end.

Record CmdResult : Type := mkCmdResult {
  cr_exitCode : Z;
  cr_output : string;
  cr_kills : nat
}.

(** [runCommand], given the run of the process it spawned. *)
Definition runCommand_on (timeout : option Z) (run : ProcRun) : CmdResult :=
  let st0 := mkCmdState "" false (truthy_timeout timeout) 0 in
  let st := fold_left on_event (pr_events run) st0 in
  mkCmdResult (if cs_killed st then 124%Z else pr_exited run)
              (cs_output st) (cs_kills st).

(** One attempt of [/::set-output name=([^:]+)::(.+)/] at the start of
    [text]: name, value and the text after the match. *)
Definition match_set_output (text : string)
  : option (string * string * string) :=
  match strip_prefix "::set-output name=" text with
  | None => None
  | Some t1 =>
      let (name, t2) := span not_colon t1 in
      if is_empty name then None
      else
        match strip_prefix "::" t2 with
        | None => None
        | Some t3 =>
            let (value, rest) := span is_dot t3 in
            if is_empty value then None else Some (name, value, rest)
        end
  end.

(** The [while ((match = outputRegex.exec(output)) !== null)] loop: the
    successive matches, each search resuming where the last match ended. *)
Fixpoint set_output_matches (fuel : nat) (text : string)
  : list (string * string) :=
  match fuel with
  | O => []
  | S fuel' =>
      match match_set_output text with
      | Some (name, value, rest) =>
          (name, value) :: set_output_matches fuel' rest
      | None =>
          match text with
          | EmptyString => []
          | String _ text' => set_output_matches fuel' text'
          end
      end
  end.

(** The [outputs] record a run step builds from its command's output. *)
Definition parse_outputs (output : string) : Obj string :=
  assign [] (set_output_matches (S (String.length output)) output).

Section WithProcesses.

(** The machine the steps run on: [spawn] gives the run of a process
    started in a state of the machine under a timeout, and the state it
    leaves; [bun_env] is [Bun.env]. *)
Variable World : Type.
Variable spawn : World -> SpawnArgs -> option Z -> ProcRun * World.
Variable bun_env : Obj string.

Record RunStepOptions : Type := mkRunStepOptions {
  rso_cwd : string;
  rso_env : Obj string;
  rso_stepResults : Obj StepResult
}.

(** [{ ...options.env, ...step.env }] *)
Definition merged_env (options : RunStepOptions) (step : StepDefinition)
  : Obj string :=
  assign (rso_env options) (step_env step).

Definition resolve_workdir (options : RunStepOptions) (step : StepDefinition)
  : string :=
  match step_workdir step with
  | Some w =>
      if is_empty w then rso_cwd options
      else
        match strip_prefix "/" w with
        | Some _ => w
        | None => (rso_cwd options ++ "/" ++ w)%string
        end
  | None => rso_cwd options
  end.

(** The process a run step starts. *)
Definition spawn_args (options : RunStepOptions) (step : StepDefinition)
  (run : string) (shell : option string) : SpawnArgs :=
  mkSpawn [match shell with Some sh => sh | None => "bash" end; "-c"; run]
          (resolve_workdir options step)
          (assign bun_env (merged_env options step)).

(** [runCommand] as [runStep] calls it. *)
Definition runCommand (w : World) (options : RunStepOptions)
  (step : StepDefinition) (run : string) (shell : option string)
  : CmdResult * World :=
  let (pr, w') := spawn w (spawn_args options step run shell) (step_timeout step) in
  (runCommand_on (step_timeout step) pr, w').

(** The result a run step maps its command's exit code and output to. *)
Definition step_result (step : StepDefinition) (exitCode : Z) (output : string)
  : StepResult :=
  let success := Z.eqb exitCode 0 in
  let status := if success then StSuccess else StFailure in
  mkStepResult
    (if step_continueOnError step && negb success then StSuccess else status)
    status
    (parse_outputs output).

(** [runStep], with the processes it spawned. *)
Definition runStep (w : World) (step : StepDefinition) (options : RunStepOptions)
  : StepResult * list SpawnArgs * World :=
  match step_kind step with
  | RunStep run shell =>
      let (cr, w') := runCommand w options step run shell in
      (step_result step (cr_exitCode cr) (cr_output cr),
       [spawn_args options step run shell], w')
  | SetupStep _ _ => (mkStepResult StSuccess StSuccess [], [], w)
  end.

Record RunJobOptions : Type := mkRunJobOptions {
  rjo_cwd : string;
  rjo_env : Obj string
}.

Inductive JobRunStatus : Type := JSuccess | JFailure | JCancelled.

Record StepTiming : Type := mkStepTiming {
  tm_name : string;
  tm_status : StepStatus
}.

(** The locals of [runJob]'s loop.  [ls_log] and [ls_spawned] are not in
    the code: they record, for every step, the result it got (also when
    skipped) and the processes started, for the statements below. *)
Record LoopState : Type := mkLoopState {
  ls_stepResults : Obj StepResult;
  ls_stepTimings : list StepTiming;
  ls_jobFailed : bool;
  ls_world : World;
  ls_log : list (StepDefinition * StepResult);
  ls_spawned : list SpawnArgs
}.

Definition is_failure (s : StepStatus) : bool :=
  match s with StFailure => true | _ => false end.

Definition skipped_result : StepResult := mkStepResult StSkipped StSkipped [].

Definition record_result (id : option string) (r : StepResult)
  (results : Obj StepResult) : Obj StepResult :=
  match id with
  | Some i => if is_empty i then results else set results i r
  | None => results
  end.

(** The condition gate: [true] when the step is skipped by its [if]. *)
Definition skipped_by_condition (step : StepDefinition)
  (results : Obj StepResult) : bool :=
  match step_if step with
  | Some (IfFn f) => negb (f results)
  | Some (IfStr _) => false
  | None => false
  end.

(** One turn of the [for (const step of job.steps)] loop. *)
Definition loop_body (cwd : string) (env : Obj string) (st : LoopState)
  (step : StepDefinition) : LoopState :=
  if skipped_by_condition step (ls_stepResults st) then
    mkLoopState (record_result (step_id step) skipped_result (ls_stepResults st))
                (ls_stepTimings st) (ls_jobFailed st) (ls_world st)
                (ls_log st ++ [(step, skipped_result)]) (ls_spawned st)
  else if ls_jobFailed st && negb (step_continueOnError step) then
    mkLoopState (record_result (step_id step) skipped_result (ls_stepResults st))
                (ls_stepTimings st ++ [mkStepTiming (step_name step) StSkipped])
                (ls_jobFailed st) (ls_world st)
                (ls_log st ++ [(step, skipped_result)]) (ls_spawned st)
  else
    let '(result, spawned, w') :=
      runStep (ls_world st) step
              (mkRunStepOptions cwd env (ls_stepResults st)) in
    mkLoopState (record_result (step_id step) result (ls_stepResults st))
                (ls_stepTimings st
                   ++ [mkStepTiming (step_name step) (sr_status result)])
                (if is_failure (sr_outcome result)
                    && negb (step_continueOnError step)
                 then true else ls_jobFailed st)
                w'
                (ls_log st ++ [(step, result)])
                (ls_spawned st ++ spawned).

Record JobRunResult : Type := mkJobRunResult {
  jr_job : string;
  jr_status : JobRunStatus;
  jr_steps : Obj StepResult;
  jr_outputs : Obj string;
  jr_stepTimings : list StepTiming;
  jr_log : list (StepDefinition * StepResult);
  jr_spawned : list SpawnArgs
}.

Definition job_env_of (job : JobDefinition) (options : RunJobOptions)
  : Obj string :=
  assign (assign (rjo_env options) (job_env job))
         [("CI", "true"); ("ZEPHYR", "true")].

(** [runJob] (durations, which are wall-clock differences, are left out). *)
Definition runJob (w : World) (job : JobDefinition) (options : RunJobOptions)
  : JobRunResult * World :=
  let env := job_env_of job options in
  let st :=
    fold_left (loop_body (rjo_cwd options) env) (job_steps job)
              (mkLoopState [] [] false w [] []) in
  (mkJobRunResult (job_name job)
     (if ls_jobFailed st then JFailure else JSuccess)
     (ls_stepResults st) [] (ls_stepTimings st) (ls_log st) (ls_spawned st),
   ls_world st).

End WithProcesses.

Arguments ls_stepResults {World}.
Arguments ls_stepTimings {World}.
Arguments ls_jobFailed {World}.
Arguments ls_world {World}.
Arguments ls_log {World}.
Arguments ls_spawned {World}.

(** A step fails its job: outcome [failure] and no [continueOnError]. *)
Definition fails_job (entry : StepDefinition * StepResult) : Prop :=
  sr_outcome (snd entry) = StFailure
  /\ step_continueOnError (fst entry) = false.


(** ** Scenario 4: a step output used in a later step's environment *)

(** A machine on which [emit <text>] prints [<text>] and every other
    command prints nothing; all commands exit with 0. *)
Definition echo_machine (w : unit) (a : SpawnArgs) (timeout : option Z)
  : ProcRun * unit :=
  match sp_argv a with
  | [_; _; cmd] =>
      match strip_prefix "emit " cmd with
      | Some text => (mkProcRun [Stdout (String.append text (String LF ""))] 0%Z, tt)
      | None => (mkProcRun [] 0%Z, tt)
      end
  | _ => (mkProcRun [] 0%Z, tt)
  end.

Definition plain_step (id : option string) (name run : string)
  (env : Obj string) : StepDefinition :=
  mkStep (RunStep run None) id name None env None false None.

Definition scenario4_job : JobDefinition :=
  mkJob "release" (Some "ubuntu-22.04") [] []
    [ plain_step (Some "build") "Build" "emit ::set-output name=version::1.2.3" [];
      plain_step None "Publish" "publish"
        [("VER", "${{ steps.build.outputs.version }}")] ]
    None.

Definition scenario4_run : JobRunResult :=
  fst (runJob unit echo_machine [] tt scenario4_job (mkRunJobOptions "/repo" [])).

(** ** Scenario 5: a step that outlives its timeout *)

(** A machine on which every process prints once and is still running
    when the timer expires. *)
Definition slow_machine (w : unit) (a : SpawnArgs) (timeout : option Z)
  : ProcRun * unit :=
  (mkProcRun [Stdout "zzz"; TimerExpired] 143%Z, tt).

Definition sleep_step : StepDefinition :=
  mkStep (RunStep "sleep 5" None) None "Sleep" None [] None false (Some 1%Z).

End Runner.

(* ================================================================== *)
(** * Warm VM pool ([pool/warm-pool.ts]) *)
(* ================================================================== *)

Module WarmPool.
Import Js.

Local Open Scope Z_scope.

Record PooledVm : Type := mkVm {
  vm_id : string;                  (* [instance.id] *)
  vm_index : nat;                  (* also the network allocation *)
  vm_createdAt : Z;
  vm_lastUsedAt : Z;
  vm_useCount : nat
}.

Inductive PoolState : Type := Starting | Running | Stopping | Stopped.

Record Options : Type := mkOptions {
  minIdle : Z;
  maxIdle : Z;
  maxTotal : Z
}.

(** The fields of a [WarmPool].  [pending] holds the indices of the VMs a
    scheduled replenish is still creating, and [destroyed] the ids handed
    to the hypervisor's [destroy]; the two [Map]s keep insertion order. *)
Record Pool : Type := mkPool {
  idleVms : Obj PooledVm;
  inUseVms : Obj PooledVm;
  state : PoolState;
  nextIndex : nat;
  replenishPromise : bool;
  pending : list nat;
  destroyed : list string
}.

Inductive AcquireError : Type :=
| NotRunning            (* "Warm pool is not running" *)
| PoolExhausted         (* "Pool exhausted: maximum VMs reached" *)
| HypervisorFailure.    (* [createVm] rejected *)

Definition size {A} (m : Obj A) : Z := Z.of_nat (List.length m).

Definition totalCount (p : Pool) : Z := size (idleVms p) + size (inUseVms p).

Definition is_running (s : PoolState) : bool :=
  match s with Running => true | _ => false end.

Section WithHypervisor.

(** [fresh_id index] is the id [createVm] draws for that index, and
    [boots id] tells whether network allocation, create and start succeed. *)
Variable opts : Options.
Variable fresh_id : nat -> string.
Variable boots : string -> bool.

(** The VM [createVm] returns for an index, if it boots. *)
Definition createVm (index : nat) (now : Z) : option PooledVm :=
  let id := fresh_id index in
  if boots id then Some (mkVm id index now now 0) else None.

Definition with_idle (p : Pool) (idle : Obj PooledVm) : Pool :=
  mkPool idle (inUseVms p) (state p) (nextIndex p) (replenishPromise p)
         (pending p) (destroyed p).

Definition with_inUse (p : Pool) (inUse : Obj PooledVm) : Pool :=
  mkPool (idleVms p) inUse (state p) (nextIndex p) (replenishPromise p)
         (pending p) (destroyed p).

Definition with_state (p : Pool) (s : PoolState) : Pool :=
  mkPool (idleVms p) (inUseVms p) s (nextIndex p) (replenishPromise p)
         (pending p) (destroyed p).

(** [Math.min(needed, canCreate)] of [replenish], as a count. *)
Definition toCreate (p : Pool) : nat :=
  Z.to_nat (Z.min (minIdle opts - size (idleVms p))
                  (maxTotal opts - totalCount p)).

(** The part of [replenish] that runs at once: the count is fixed and
    every [createVm] call draws its index. *)
Definition begin_replenish (p : Pool) : list nat * Pool :=
  let n := toCreate p in
  (seq (nextIndex p) n,
   mkPool (idleVms p) (inUseVms p) (state p) (nextIndex p + n)%nat
          (replenishPromise p) (pending p) (destroyed p)).

(** The creations started finishing, in the order they were started:
    each VM that booted is put in [idleVms]. *)
Definition finish_creations (p : Pool) (indices : list nat) (now : Z) : Pool :=
  fold_left
    (fun q index =>
       match createVm index now with
       | Some vm => with_idle q (set (idleVms q) (vm_id vm) vm)
       | None => q
       end)
    indices p.

(** [await this.replenish()] *)
Definition replenish (p : Pool) (now : Z) : Pool :=
  let (indices, p1) := begin_replenish p in
  finish_creations p1 indices now.

(** [scheduleReplenish] *)
Definition scheduleReplenish (p : Pool) : Pool :=
  if replenishPromise p then p
  else
    let (indices, p1) := begin_replenish p in
    mkPool (idleVms p1) (inUseVms p1) (state p1) (nextIndex p1) true
           indices (destroyed p1).

(** The scheduled replenish settling: its VMs arrive and the promise is
    cleared. *)
Definition settleReplenish (p : Pool) (now : Z) : Pool :=
  if replenishPromise p then
    let q := finish_creations p (pending p) now in
    mkPool (idleVms q) (inUseVms q) (state q) (nextIndex q) false []
           (destroyed q)
  else p.

(** [start] *)
Definition start (p : Pool) (now : Z) : Pool :=
  match state p with
  | Stopped => with_state (replenish (with_state p Starting) now) Running
  | _ => p
  end.

Definition used (vm : PooledVm) (now : Z) : PooledVm :=
  mkVm (vm_id vm) (vm_index vm) (vm_createdAt vm) now (S (vm_useCount vm)).

(** [acquire] *)
Definition acquire (p : Pool) (now : Z) : (AcquireError + PooledVm) * Pool :=
  if negb (is_running (state p)) then (inl NotRunning, p)
  else
    match idleVms p with
    | (id, pooledVm) :: _ =>
        let p1 := with_idle p (remove (idleVms p) id) in
        let vm := used pooledVm now in
        let p2 := with_inUse p1 (set (inUseVms p1) id vm) in
        (inr vm, scheduleReplenish p2)
    | [] =>
        if totalCount p >=? maxTotal opts then (inl PoolExhausted, p)
        else
          let index := nextIndex p in
          let p1 := mkPool (idleVms p) (inUseVms p) (state p) (S index)
                           (replenishPromise p) (pending p) (destroyed p) in
          match createVm index now with
          | None => (inl HypervisorFailure, p1)
          | Some pooledVm =>
              let vm := used pooledVm now in
              (inr vm, with_inUse p1 (set (inUseVms p1) (vm_id vm) vm))
          end
    end.

(** [destroyVm(id, false, pooledVm)] *)
Definition destroyVm_inUse (p : Pool) (id : string) : Pool :=
  mkPool (idleVms p) (remove (inUseVms p) id) (state p) (nextIndex p)
         (replenishPromise p) (pending p) (destroyed p ++ [id]).

Definition touched (vm : PooledVm) (now : Z) : PooledVm :=
  mkVm (vm_id vm) (vm_index vm) (vm_createdAt vm) now (vm_useCount vm).

(** [release] *)
Definition release (p : Pool) (vmId : string) (destroy : bool) (now : Z)
  : Pool :=
  match lookup (inUseVms p) vmId with
  | None => p
  | Some pooledVm =>
      let p1 := with_inUse p (remove (inUseVms p) vmId) in
      if destroy || (size (idleVms p1) >=? maxIdle opts)
      then destroyVm_inUse p1 vmId
      else with_idle p1 (set (idleVms p1) vmId (touched pooledVm now))
  end.

(** [getStats]: idle and in-use counts. *)
Definition stats (p : Pool) : Z * Z := (size (idleVms p), size (inUseVms p)).

End WithHypervisor.

Definition empty_pool : Pool := mkPool [] [] Stopped 0 false [] [].

(** ** Scenario 6: warm pool cycling *)

Definition scenario6_opts : Options := mkOptions 2 3 4.

Definition scenario6_id (index : nat) : string :=
  ("warm-" ++ string_of_Z (Z.of_nat index))%string.

Definition s6_acquire (p : Pool) (now : Z) : (AcquireError + PooledVm) * Pool :=
  let (r, q) := acquire scenario6_opts scenario6_id (fun _ => true) p now in
  (r, settleReplenish scenario6_id (fun _ => true) q now).

Definition s6_release (p : Pool) (id : string) (now : Z) : Pool :=
  release scenario6_opts p id false now.

Definition id_of (r : AcquireError + PooledVm) : string :=
  match r with inr vm => vm_id vm | inl _ => "" end.

(** The pool is started, four VMs are acquired, a fifth is asked for, and
    the four are released in the order they were acquired.  The result is
    the list of [(idle, inUse)] counts after each stage, and the outcome of
    the fifth [acquire]. *)
Definition scenario6 : list (Z * Z) * (AcquireError + PooledVm) :=
  let p0 := start scenario6_opts scenario6_id (fun _ => true) empty_pool 0 in
  let (a1, p1) := s6_acquire p0 1 in
  let (a2, p2) := s6_acquire p1 2 in
  let (a3, p3) := s6_acquire p2 3 in
  let (a4, p4) := s6_acquire p3 4 in
  let (a5, p5) := s6_acquire p4 5 in
  let p6 := s6_release p5 (id_of a1) 6 in
  let p7 := s6_release p6 (id_of a2) 7 in
  let p8 := s6_release p7 (id_of a3) 8 in
  let p9 := s6_release p8 (id_of a4) 9 in
  ([stats p0; stats p4; stats p5; stats p6; stats p8; stats p9], a5).

(** [acquire] and the arrival of the VMs of the scheduled replenish, as
    two calls: the replenish is started by [acquire] and settles on its
    own, at any later time. *)
Definition s6_call (p : Pool) (now : Z) : (AcquireError + PooledVm) * Pool :=
  acquire scenario6_opts scenario6_id (fun _ => true) p now.

Definition s6_arrive (p : Pool) (now : Z) : Pool :=
  settleReplenish scenario6_id (fun _ => true) p now.

(** Scenario 6 with the VM of the replenish that the first [acquire]
    schedules arriving after the fourth [acquire]: the counts after the
    four, after the arrival and after the fifth [acquire], and the
    outcome of the fifth. *)
Definition scenario6_arrival_before_fifth
  : list (Z * Z) * (AcquireError + PooledVm) :=
  let p0 := start scenario6_opts scenario6_id (fun _ => true) empty_pool 0 in
  let (a1, p1) := s6_call p0 1 in
  let (a2, p2) := s6_call p1 2 in
  let (a3, p3) := s6_call p2 3 in
  let (a4, p4) := s6_call p3 4 in
  let p4' := s6_arrive p4 5 in
  let (a5, p5) := s6_call p4' 5 in
  ([stats p4; stats p4'; stats p5], a5).

(** Scenario 6 with that VM arriving after the last [release]: the
    counts after the four [acquire]s, after the four [release]s and
    after the arrival, and the outcome of the fifth [acquire]. *)
Definition scenario6_arrival_after_releases
  : list (Z * Z) * (AcquireError + PooledVm) :=
  let p0 := start scenario6_opts scenario6_id (fun _ => true) empty_pool 0 in
  let (a1, p1) := s6_call p0 1 in
  let (a2, p2) := s6_call p1 2 in
  let (a3, p3) := s6_call p2 3 in
  let (a4, p4) := s6_call p3 4 in
  let (a5, p5) := s6_call p4 5 in
  let p6 := s6_release p5 (id_of a1) 6 in
  let p7 := s6_release p6 (id_of a2) 7 in
  let p8 := s6_release p7 (id_of a3) 8 in
  let p9 := s6_release p8 (id_of a4) 9 in
  let p10 := s6_arrive p9 10 in
  ([stats p4; stats p9; stats p10], a5).

End WarmPool.

(* ================================================================== *)
(** * Job scheduler ([scheduler/index.ts]) and config loader *)
(* ================================================================== *)

Module Scheduler.
Import Js Types.

(** ** The store *)

Inductive RunStatus : Type :=
| RunPending | RunRunning | RunSuccess | RunFailure | RunCancelled.

Inductive JobStatus : Type :=
| Pending | Ready | Running | Success | Failure | Skipped | Cancelled.

Definition is_pending (s : JobStatus) : bool :=
  match s with Pending => true | _ => false end.

Definition is_success (s : JobStatus) : bool :=
  match s with Success => true | _ => false end.

Record ProjectRecord : Type := mkProject {
  proj_id : string;
  proj_config_path : option string
}.

Record PipelineRunRecord : Type := mkRunRecord {
  prr_id : string;
  prr_project_id : string;
  prr_pipeline_name : string;
  prr_trigger_type : string;
  prr_branch : string;
  prr_commit_sha : string;
  prr_status : RunStatus
}.

Record JobRecord : Type := mkJobRecord {
  jrec_id : string;
  jrec_pipeline_run_id : string;
  jrec_name : string;
  jrec_runner_image : string;
  jrec_status : JobStatus
}.

(** Modelled from the spec: the storage package ([ZephyrDatabase]) is not
    among the sources.  The store is the single source of truth for
    projects, pipeline runs and jobs; rows are kept in creation order. *)
Record Store : Type := mkStore {
  projects : list ProjectRecord;
  runs : list PipelineRunRecord;
  jobs : list JobRecord
}.

(** Modelled from the spec: [createPipelineRun] of the missing store; a
    run is created with status [pending]. *)
Definition createPipelineRun (db : Store)
  (id projectId pipelineName triggerType branch commitSha : string)
  : PipelineRunRecord * Store :=
  let row := mkRunRecord id projectId pipelineName triggerType branch
                         commitSha RunPending in
  (row, mkStore (projects db) (runs db ++ [row]) (jobs db)).

(** Modelled from the spec: [createJob] of the missing store; a job is
    created with status [pending]. *)
Definition createJob (db : Store) (id pipelineRunId name runnerImage : string)
  : Store :=
  mkStore (projects db) (runs db)
          (jobs db ++ [mkJobRecord id pipelineRunId name runnerImage Pending]).

(** Modelled from the spec: [getProject] of the missing store. *)
Definition getProject (db : Store) (id : string) : option ProjectRecord :=
  find (fun p => String.eqb (proj_id p) id) (projects db).

(** Modelled from the spec: [getPipelineRun] of the missing store. *)
Definition getPipelineRun (db : Store) (id : string)
  : option PipelineRunRecord :=
  find (fun r => String.eqb (prr_id r) id) (runs db).

(** Modelled from the spec: [getJobsForPipelineRun] of the missing store. *)
Definition getJobsForPipelineRun (db : Store) (runId : string)
  : list JobRecord :=
  filter (fun j => String.eqb (jrec_pipeline_run_id j) runId) (jobs db).

(** Modelled from the spec: [getPendingJobs(limit)] of the missing store. *)
Definition getPendingJobs (db : Store) (limit : nat) : list JobRecord :=
  firstn limit (filter (fun j => is_pending (jrec_status j)) (jobs db)).

(** Modelled from the spec: [getJob] of the missing store. *)
Definition getJob (db : Store) (id : string) : option JobRecord :=
  find (fun j => String.eqb (jrec_id j) id) (jobs db).

(** Modelled from the spec: [updateJobStatus] of the missing store, as the
    scheduler calls it (job id and new status). *)
Definition updateJobStatus (db : Store) (id : string) (status : JobStatus)
  : Store :=
  mkStore (projects db) (runs db)
    (map (fun j =>
            if String.eqb (jrec_id j) id
            then mkJobRecord (jrec_id j) (jrec_pipeline_run_id j) (jrec_name j)
                             (jrec_runner_image j) status
            else j)
         (jobs db)).

(** ** Configuration loading ([config/loader.ts]) *)

Record ConfigContext : Type := mkContext {
  ctx_branch : string;
  ctx_sha : string;
  ctx_event_type : string
}.

(** [config.pipelines]: a list, or a function of the context. *)
Inductive Pipelines : Type :=
| Static (ps : list PipelineDefinition)
| Dynamic (f : ConfigContext -> list PipelineDefinition).

Record ZephyrConfig : Type := mkConfig {
  cfg_project : option string;     (* [config.project?.name] *)
  cfg_env : Obj string;            (* [config.project.env] *)
  cfg_pipelines : option Pipelines
}.

Inductive Error : Type :=
| ConfigFileNotFound
| NoDefaultExport
| InvalidConfig (message : string)
| PipelineNotFound (name : string)
| TypeError.                       (* reading [image] of an absent runner *)

(** The checks [validatePipeline] makes on the jobs, in order; [seen] is
    [jobNames]. *)
Fixpoint validateJobs (pipeline : PipelineDefinition) (seen : list string)
  (js : list JobDefinition) : option Error :=
  match js with
  | [] => None
  | job :: rest =>
      if is_empty (job_name job)
      then Some (InvalidConfig "job must have a name")
      else if existsb (String.eqb (job_name job)) seen
      then Some (InvalidConfig "duplicate job name")
      else
        match job_runner job with
        | None => Some (InvalidConfig "job must have a runner")
        | Some image =>
            if is_empty image
            then Some (InvalidConfig "runner must have an image")
            else
              match job_steps job with
              | [] => Some (InvalidConfig "job must have at least one step")
              | _ :: _ =>
                  let seen' := seen ++ [job_name job] in
                  if forallb
                       (fun dep =>
                          existsb (String.eqb dep) seen'
                          || existsb (fun j => String.eqb (job_name j) dep)
                                     (pl_jobs pipeline))
                       (job_dependsOn job)
                  then validateJobs pipeline seen' rest
                  else Some (InvalidConfig "job depends on unknown job")
              end
        end
  end.

(** [validatePipeline] *)
Definition validatePipeline (pipeline : PipelineDefinition) : option Error :=
  if is_empty (pl_name pipeline)
  then Some (InvalidConfig "pipeline must have a name")
  else
    match pl_triggers pipeline with
    | [] => Some (InvalidConfig "pipeline must have at least one trigger")
    | _ :: _ =>
        match pl_jobs pipeline with
        | [] => Some (InvalidConfig "pipeline must have at least one job")
        | _ :: _ => validateJobs pipeline [] (pl_jobs pipeline)
        end
    end.

Fixpoint first_error {A} (check : A -> option Error) (xs : list A)
  : option Error :=
  match xs with
  | [] => None
  | x :: rest =>
      match check x with
      | Some e => Some e
      | None => first_error check rest
      end
  end.

(** [validateConfig] *)
Definition validateConfig (config : ZephyrConfig) : option Error :=
  match cfg_project config with
  | None => Some (InvalidConfig "config must have a project")
  | Some name =>
      if is_empty name then Some (InvalidConfig "project must have a name")
      else
        match cfg_pipelines config with
        | None => Some (InvalidConfig "config must have pipelines")
        | Some (Static ps) => first_error validatePipeline ps
        | Some (Dynamic _) => None
        end
  end.

(** The files [loadConfig] can import, by absolute path: absent, a module
    without a default export, or a module exporting a config. *)
Definition FileSystem : Type := string -> option (option ZephyrConfig).

(** [loadConfig]; [cwd] is [process.cwd()]. *)
Definition loadConfig (fs : FileSystem) (cwd configPath : string)
  : Error + ZephyrConfig :=
  let absolutePath :=
    match strip_prefix "/" configPath with
    | Some _ => configPath
    | None => (cwd ++ "/" ++ configPath)%string
    end in
  match fs absolutePath with
  | None => inl ConfigFileNotFound
  | Some None => inl NoDefaultExport
  | Some (Some config) =>
      match validateConfig config with
      | Some e => inl e
      | None => inr config
      end
  end.

(** [resolvePipelines]; a validated config has its pipelines. *)
Definition resolvePipelines (config : ZephyrConfig) (context : ConfigContext)
  : list PipelineDefinition :=
  match cfg_pipelines config with
  | Some (Static ps) => ps
  | Some (Dynamic f) => f context
  | None => []
  end.

(** ** The scheduler *)

Record QueuedPipelineRun : Type := mkQueued {
  q_id : string;
  q_projectId : string;
  q_pipelineName : string;
  q_configPath : string;
  q_context : ConfigContext
}.

Definition job_row_id (runId name : string) : string :=
  (runId ++ "-" ++ name)%string.

(** The [for (const jobDef of pipeline.jobs)] loop of [queuePipelineRun]. *)
Fixpoint createJobs (db : Store) (runId : string) (defs : list JobDefinition)
  : option Error * Store :=
  match defs with
  | [] => (None, db)
  | jobDef :: rest =>
      match job_runner jobDef with
      | None => (Some TypeError, db)
      | Some image =>
          createJobs
            (createJob db (job_row_id runId (job_name jobDef)) runId
                       (job_name jobDef) image)
            runId rest
      end
  end.

(** [queuePipelineRun]: the error thrown or the id returned, and the store
    it leaves. *)
Definition queuePipelineRun (fs : FileSystem) (cwd : string) (db : Store)
  (run : QueuedPipelineRun) : (Error + string) * Store :=
  let (pipelineRun, db1) :=
    createPipelineRun db (q_id run) (q_projectId run) (q_pipelineName run)
      (ctx_event_type (q_context run)) (ctx_branch (q_context run))
      (ctx_sha (q_context run)) in
  match loadConfig fs cwd (q_configPath run) with
  | inl e => (inl e, db1)
  | inr config =>
      let pipelines := resolvePipelines config (q_context run) in
      match find (fun p => String.eqb (pl_name p) (q_pipelineName run))
                 pipelines with
      | None => (inl (PipelineNotFound (q_pipelineName run)), db1)
      | Some pipeline =>
          match createJobs db1 (prr_id pipelineRun) (pl_jobs pipeline) with
          | (Some e, db2) => (inl e, db2)
          | (None, db2) => (inr (prr_id pipelineRun), db2)
          end
      end
  end.

(** The fields of a [JobScheduler] the queue processing reads and
    writes; [activeJobs] holds the ids of the jobs being executed. *)
Record Sched : Type := mkSched {
  running : bool;
  maxConcurrent : nat;
  activeJobs : list string
}.

(** [canJobRun] *)
Definition canJobRun (db : Store) (job : JobRecord) : bool :=
  match getPipelineRun db (jrec_pipeline_run_id job) with
  | None => false
  | Some _ =>
      let allJobs := getJobsForPipelineRun db (jrec_pipeline_run_id job) in
      let pendingJobs := filter (fun j => is_pending (jrec_status j)) allJobs in
      match pendingJobs with
      | first :: _ => String.eqb (jrec_id first) (jrec_id job)
      | [] => false
      end
  end.

(** [executeJob] up to its first suspension: the job row is set to
    [running], and to [failure] when its run or project is missing. *)
Definition executeJob_begin (db : Store) (job : JobRecord) : Store :=
  let db1 := updateJobStatus db (jrec_id job) Running in
  match getPipelineRun db1 (jrec_pipeline_run_id job) with
  | None => updateJobStatus db1 (jrec_id job) Failure
  | Some pipelineRun =>
      match getProject db1 (prr_project_id pipelineRun) with
      | None => updateJobStatus db1 (jrec_id job) Failure
      | Some project =>
          match proj_config_path project with
          | None => updateJobStatus db1 (jrec_id job) Failure
          | Some path =>
              if is_empty path then updateJobStatus db1 (jrec_id job) Failure
              else db1
          end
      end
  end.

(** [executeJob] settling: the final status is written and the job leaves
    [activeJobs]. *)
Definition executeJob_end (s : Sched) (db : Store) (id : string)
  (ok : bool) : Sched * Store :=
  (mkSched (running s) (maxConcurrent s)
           (filter (fun a => negb (String.eqb a id)) (activeJobs s)),
   updateJobStatus db id (if ok then Success else Failure)).

(** One turn of the [for (const job of pendingJobs)] loop. *)
Definition dispatch (st : Sched * Store) (job : JobRecord) : Sched * Store :=
  let (s, db) := st in
  if existsb (String.eqb (jrec_id job)) (activeJobs s) then st
  else if negb (canJobRun db job) then st
  else (mkSched (running s) (maxConcurrent s) (activeJobs s ++ [jrec_id job]),
        executeJob_begin db job).

(** [processQueue] *)
Definition processQueue (s : Sched) (db : Store) : Sched * Store :=
  if negb (running s) then (s, db)
  else if (maxConcurrent s <=? List.length (activeJobs s))%nat then (s, db)
  else
    let availableSlots := (maxConcurrent s - List.length (activeJobs s))%nat in
    let pendingJobs := getPendingJobs db availableSlots in
    fold_left dispatch pendingJobs (s, db).

Definition status_of (db : Store) (id : string) : option JobStatus :=
  option_map jrec_status (getJob db id).

(** The rows [queuePipelineRun] writes for a run. *)
Definition run_row (run : QueuedPipelineRun) : PipelineRunRecord :=
  mkRunRecord (q_id run) (q_projectId run) (q_pipelineName run)
    (ctx_event_type (q_context run)) (ctx_branch (q_context run))
    (ctx_sha (q_context run)) RunPending.

Definition job_row (runId : string) (jobDef : JobDefinition) : JobRecord :=
  mkJobRecord (job_row_id runId (job_name jobDef)) runId (job_name jobDef)
    (match job_runner jobDef with Some image => image | None => "" end)
    Pending.

Definition has_runner (jobDef : JobDefinition) : bool :=
  match job_runner jobDef with Some _ => true | None => false end.

(** ** A project with one pipeline: [build], then [test] on a matrix *)

Definition a_step : StepDefinition :=
  mkStep (RunStep "make" None) None "Make" None [] None false None.

Definition build_job : JobDefinition :=
  mkJob "build" (Some "ubuntu-22.04") [] [] [a_step] None.

Definition test_job : JobDefinition :=
  mkJob "test" (Some "ubuntu-22.04") ["build"] [] [a_step]
    (Some (mkMatrix [("node", [VNum 18; VNum 20])] [] [] None)).

Definition ci_pipeline : PipelineDefinition :=
  mkPipeline "ci" ["push"] [] [build_job; test_job].

Definition ci_config : ZephyrConfig :=
  mkConfig (Some "demo") [] (Some (Static [ci_pipeline])).

Definition demo_fs : FileSystem :=
  fun path =>
    if String.eqb path "/srv/demo/zephyr.config.ts" then Some (Some ci_config)
    else None.

(** The same project with a configuration that fails validation: its
    pipeline has no trigger. *)
Definition broken_fs : FileSystem :=
  fun path =>
    if String.eqb path "/srv/demo/zephyr.config.ts"
    then Some (Some (mkConfig (Some "demo") []
                       (Some (Static [mkPipeline "ci" [] [] [build_job]]))))
    else None.

Definition demo_db : Store :=
  mkStore [mkProject "demo" (Some "/srv/demo/zephyr.config.ts")] [] [].

Definition demo_context : ConfigContext := mkContext "main" "manual" "api".

Definition demo_run (pipelineName : string) : QueuedPipelineRun :=
  mkQueued "run1" "demo" pipelineName "/srv/demo/zephyr.config.ts" demo_context.

End Scheduler.

(* ================================================================== *)
(** * Matrix environment and parallelism ([matrix/expand.ts], continued) *)
(* ================================================================== *)

Module MatrixEnv.
Import Js Types Matrix.





(** [getMatrixParallelism]; a [maxParallel] of zero is falsy. *)
Definition getMatrixParallelism (matrix : MatrixConfig) : Z :=
  let combinations := Z.of_nat (List.length (generateCombinations matrix)) in
  match mx_maxParallel matrix with
  | Some n => if Z.eqb n 0 then combinations else n
  | None => combinations
  end.

(** [hasMatrix] *)
Definition hasMatrix (job : JobDefinition) : bool :=
  match job_matrix job with
  | Some matrix =>
      match keys (mx_values matrix) with [] => false | _ :: _ => true end
  | None => false
  end.

(** The values of the instances of an expansion. *)
Definition instance_values (e : ExpandedJob) : Obj value :=
  match ej_matrix e with Some c => mc_values c | None => [] end.

Definition not_dollar (c : ascii) : bool := negb (Ascii.eqb c "$"%char).

End MatrixEnv.

(* ================================================================== *)
(** * Stream logging ([executor/runner.ts], [readStream]) *)
(* ================================================================== *)

Module RunnerLog.
Import Js Types Runner.

(** Putting a character in front of the first piece of a split. *)
Definition cons_head (c : ascii) (pieces : list string) : list string :=
  match pieces with
  | h :: t => String c h :: t
  | [] => [String c ""]
  end.

(** [s.split(sep)] for a separator of one character: never empty. *)
Fixpoint split_on (sep : ascii) (s : string) : list string :=
  match s with
  | EmptyString => [""]
  | String c s' =>
      if Ascii.eqb c sep then "" :: split_on sep s'
      else cons_head c (split_on sep s')
  end.

(** No two colons in a row anywhere in [s]. *)
Fixpoint no_colon_pair (s : string) : bool :=
  match s with
  | EmptyString => true
  | String c s' =>
      negb (Ascii.eqb c ":"%char
            && match s' with
               | String d _ => Ascii.eqb d ":"%char
               | EmptyString => false
               end)
      && no_colon_pair s'
  end.





Section WithDecoder.

(** [decoder.decode(value)]: the text of the bytes of one chunk.  The
    decoder is called without the [stream] option, so every chunk is
    decoded on its own. *)
Variable decode : list Byte.byte -> string.



End WithDecoder.


(** The value a process started by a job finds for a variable: the
    step's own, else the fixed [CI] and [ZEPHYR], else the job's, else the
    one passed to [runJob], else the server's. *)
Definition env_chain (bun_env options_env job_env step_env : Obj string)
  (k : string) : option string :=
  match lookup step_env k with
  | Some v => Some v
  | None =>
      match lookup [("CI", "true"); ("ZEPHYR", "true")] k with
      | Some v => Some v
      | None =>
          match lookup job_env k with
          | Some v => Some v
          | None =>
              match lookup options_env k with
              | Some v => Some v
              | None => lookup bun_env k
              end
          end
      end
  end.

(** A logged step is gated: without [continueOnError] it was skipped. *)
Definition gated (entry : StepDefinition * StepResult) : Prop :=
  step_continueOnError (fst entry) = false -> snd entry = skipped_result.

(** A machine on which every command fails with exit code 1. *)
Definition failing_machine (w : unit) (a : SpawnArgs) (timeout : option Z)
  : ProcRun * unit := (mkProcRun [Stderr "boom"] 1%Z, tt).

Definition failing_job : JobDefinition :=
  mkJob "ci" (Some "ubuntu-22.04") [] []
    [ plain_step None "Build" "bun run build" [];
      plain_step None "Test" "bun test" [];
      mkStep (RunStep "cleanup" None) None "Cleanup" None [] None true None ]
    None.


End RunnerLog.

(* ================================================================== *)
(** * Warm pool upkeep ([pool/warm-pool.ts], continued) *)
(* ================================================================== *)

Module WarmPoolOps.
Import Js WarmPool.

Local Open Scope Z_scope.

(** [destroyVm(id, isIdle)]: the VM is taken out of the map named and,
    if it was there, handed to the hypervisor's [destroy]. *)
Definition destroyVm (p : Pool) (id : string) (isIdle : bool) : Pool :=
  let vm := if isIdle then lookup (idleVms p) id else lookup (inUseVms p) id in
  let idle := if isIdle then remove (idleVms p) id else idleVms p in
  let inUse := if isIdle then inUseVms p else remove (inUseVms p) id in
  mkPool idle inUse (state p) (nextIndex p) (replenishPromise p) (pending p)
         (match vm with
          | Some _ => destroyed p ++ [id]
          | None => destroyed p
          end).

(** A VM is stale: idle for longer than [maxIdleTime]. *)
Definition is_stale (maxIdleTime now : Z) (vm : PooledVm) : bool :=
  now - vm_lastUsedAt vm >? maxIdleTime.

(** The loop of [healthCheck] over the idle VMs; [idleCount] is the count
    before the VM at hand. *)
Fixpoint staleIds (minIdle maxIdleTime now : Z) (idleCount : Z)
  (idle : Obj PooledVm) : list string :=
  match idle with
  | [] => []
  | (id, vm) :: rest =>
      let idleCount := idleCount + 1 in
      (if (idleCount >? minIdle) && is_stale maxIdleTime now vm
       then [id] else [])
      ++ staleIds minIdle maxIdleTime now idleCount rest
  end.

Section WithHypervisor.
Variable opts : Options.
Variable fresh_id : nat -> string.
Variable boots : string -> bool.

(** [healthCheck]; [maxIdleTime] is [options.maxIdleTime]. *)
Definition healthCheck (maxIdleTime : Z) (p : Pool) (now : Z) : Pool :=
  if negb (is_running (state p)) then p
  else
    let stale := staleIds (minIdle opts) maxIdleTime now 0 (idleVms p) in
    let p1 := fold_left (fun q id => destroyVm q id true) stale p in
    replenish opts fresh_id boots p1 now.

End WithHypervisor.

End WarmPoolOps.

(* ================================================================== *)
(** * Job execution ([scheduler/index.ts], [executeJob]) *)
(* ================================================================== *)

Module Execution.
Import Js Types Runner RunnerLog Scheduler.

(** What [validatePipeline] asks of a job of a pipeline. *)
Definition valid_job (pipeline : PipelineDefinition) (job : JobDefinition)
  : Prop :=
  job_name job <> ""
  /\ (exists image, job_runner job = Some image /\ image <> "")
  /\ job_steps job <> []
  /\ (forall dep, In dep (job_dependsOn job) ->
                  In dep (map job_name (pl_jobs pipeline))).

(** What [validatePipeline] asks of a pipeline. *)
Definition valid_pipeline (pipeline : PipelineDefinition) : Prop :=
  pl_name pipeline <> ""
  /\ pl_triggers pipeline <> []
  /\ pl_jobs pipeline <> []
  /\ NoDup (map job_name (pl_jobs pipeline))
  /\ Forall (valid_job pipeline) (pl_jobs pipeline).

(** [path.split("/").slice(0, -1).join("/")] *)
Definition dirname (path : string) : string :=
  join "/" (removelast (split_on "/"%char path)).

(** The context [executeJob] rebuilds from the run's row; the rows of the
    store hold a branch, a commit and an event type, so the defaults for
    absent ones do not come into play. *)
Definition context_of (pipelineRun : PipelineRunRecord) : ConfigContext :=
  mkContext (prr_branch pipelineRun) (prr_commit_sha pipelineRun)
            (prr_trigger_type pipelineRun).

Definition final_status (status : JobRunStatus) : JobStatus :=
  match status with JSuccess => Success | _ => Failure end.

Section WithProcesses.
Variable World : Type.
Variable spawn : World -> SpawnArgs -> option Z -> ProcRun * World.
Variable bun_env : Obj string.

(** [executeJob], from the first status update to the last; an error
    thrown while the config is loaded or the job definition is looked up
    is caught and ends the job in [failure]. *)
Definition executeJob (fs : FileSystem) (cwd : string) (w : World)
  (db : Store) (job : JobRecord) : Store * World :=
  let db1 := updateJobStatus db (jrec_id job) Running in
  let failed := (updateJobStatus db1 (jrec_id job) Failure, w) in
  match getPipelineRun db1 (jrec_pipeline_run_id job) with
  | None => failed
  | Some pipelineRun =>
      match getProject db1 (prr_project_id pipelineRun) with
      | None => failed
      | Some project =>
          match proj_config_path project with
          | None => failed
          | Some path =>
              if is_empty path then failed
              else
                match loadConfig fs cwd path with
                | inl _ => failed
                | inr config =>
                    let context := context_of pipelineRun in
                    let pipelines := resolvePipelines config context in
                    let pipeline :=
                      find (fun p => String.eqb (pl_name p)
                                       (prr_pipeline_name pipelineRun))
                           pipelines in
                    let jobDef :=
                      match pipeline with
                      | Some pl =>
                          find (fun j => String.eqb (job_name j) (jrec_name job))
                               (pl_jobs pl)
                      | None => None
                      end in
                    match jobDef with
                    | None => failed
                    | Some jobDef =>
                        let (result, w') :=
                          runJob World spawn bun_env w jobDef
                            (mkRunJobOptions (dirname path)
                               (assign (cfg_env config)
                                  (match pipeline with
                                   | Some pl => pl_env pl
                                   | None => []
                                   end))) in
                        (updateJobStatus db1 (jrec_id job)
                           (final_status (jr_status result)), w')
                    end
                end
          end
      end
  end.

End WithProcesses.

Definition not_slash (c : ascii) : bool := negb (Ascii.eqb c "/"%char).

(** The fields of a job row that are fixed when it is created. *)
Definition row_identity (j : JobRecord) : string * string * string * string :=
  (jrec_id j, jrec_pipeline_run_id j, jrec_name j, jrec_runner_image j).

End Execution.

(* ================================================================== *)
(** * Running a pipeline locally (the [run] command of the CLI) *)
(* ================================================================== *)

Module Cli.
Import Js Types Runner.

(** A [Set<string>]: its members in insertion order. *)
Definition set_has (x : string) (s : list string) : bool :=
  existsb (String.eqb x) s.

Definition set_add (x : string) (s : list string) : list string :=
  if set_has x s then s else s ++ [x].

Definition set_delete (x : string) (s : list string) : list string :=
  filter (fun y => negb (String.eqb y x)) s.

Inductive SortError : Type :=
| CircularDependency (name : string).

(** The variables [sortJobsByDependencies] closes over. *)
Record SortState : Type := mkSortState {
  sorted : list JobDefinition;
  visited : list string;
  visiting : list string
}.

(** What a visit comes to: an error thrown or the state it leaves;
    [None] is a recursion cut short. *)
Definition Visit : Type := option (SortError + SortState).

(** A [for ... of] loop whose body may throw. *)
Fixpoint for_each {A} (body : A -> SortState -> Visit) (xs : list A)
  (st : SortState) : Visit :=
  match xs with
  | [] => Some (inr st)
  | x :: rest =>
      match body x st with
      | Some (inr st') => for_each body rest st'
      | other => other
      end
  end.

(** [visit]; [fuel] bounds the depth of the recursion. *)
Fixpoint visit (fuel : nat) (jobMap : Obj JobDefinition)
  (job : JobDefinition) (st : SortState) : Visit :=
  match fuel with
  | O => None
  | S fuel' =>
      if set_has (job_name job) (visited st) then Some (inr st)
      else if set_has (job_name job) (visiting st)
      then Some (inl (CircularDependency (job_name job)))
      else
        let st1 := mkSortState (sorted st) (visited st)
                               (set_add (job_name job) (visiting st)) in
        match for_each
                (fun depName st' =>
                   match lookup jobMap depName with
                   | Some dep => visit fuel' jobMap dep st'
                   | None => Some (inr st')
                   end)
                (job_dependsOn job) st1 with
        | Some (inr st2) =>
            Some (inr (mkSortState
                         (sorted st2 ++ [job])
                         (set_add (job_name job) (visited st2))
                         (set_delete (job_name job) (visiting st2))))
        | other => other
        end
  end.

(** [new Map(jobs.map((j) => [j.name, j]))] *)
Definition job_map (jobs : list JobDefinition) : Obj JobDefinition :=
  fromEntries (map (fun j => (job_name j, j)) jobs).

(** [sortJobsByDependencies]: a visit goes no deeper than there are jobs. *)
Definition sortJobsByDependencies (jobs : list JobDefinition)
  : option (SortError + list JobDefinition) :=
  match for_each (visit (S (List.length jobs)) (job_map jobs)) jobs
                 (mkSortState [] [] []) with
  | Some (inr st) => Some (inr (sorted st))
  | Some (inl e) => Some (inl e)
  | None => None
  end.

(** Every job comes after the jobs of the list it depends on. *)
Definition dependencies_first (jobs sortedJobs : list JobDefinition) : Prop :=
  forall pre job post,
    sortedJobs = pre ++ job :: post ->
    forall dep, In dep (job_dependsOn job) -> In dep (map job_name jobs) ->
                In dep (map job_name pre).

(** What holds of the state between two visits. *)
Definition sort_invariant (jobs : list JobDefinition) (st : SortState)
  : Prop :=
  map job_name (sorted st) = visited st
  /\ NoDup (visited st)
  /\ (forall n, In n (visiting st) -> ~ In n (visited st))
  /\ incl (sorted st) jobs
  /\ dependencies_first jobs (sorted st).

(** What a visit that returns has done: the jobs being visited are the
    same, the visited ones have grown and include those of [mark]. *)
Definition visit_done (jobs : list JobDefinition) (st st' : SortState)
  (mark : list string -> Prop) : Prop :=
  sort_invariant jobs st'
  /\ visiting st' = visiting st
  /\ incl (visited st) (visited st')
  /\ mark (visited st').

(** The jobs that are not being visited: a visit can go that deep. *)
Definition free (jobs : list JobDefinition) (V : list string) : nat :=
  List.length (filter (fun n => negb (set_has n V)) (map job_name jobs)).

(** ** The loop over the sorted jobs *)

Inductive JobResultStatus : Type :=
| ResSuccess | ResFailure | ResCancelled | ResSkipped.

Record JobResult : Type := mkJobResult {
  res_status : JobResultStatus;
  res_outputs : Obj string
}.

Definition of_run (s : JobRunStatus) : JobResultStatus :=
  match s with
  | JSuccess => ResSuccess
  | JFailure => ResFailure
  | JCancelled => ResCancelled
  end.

(** [job.condition]: a keyword, or a predicate on the results so far. *)
Inductive JobCondition : Type :=
| ConditionKeyword (s : string)
| ConditionFn (f : Obj JobResult -> bool).

(** [results[dep]?.status !== "success"] *)
Definition not_succeeded (results : Obj JobResult) (dep : string) : bool :=
  match lookup results dep with
  | Some (mkJobResult ResSuccess _) => false
  | _ => true
  end.

Section WithProcesses.
Variable World : Type.
Variable spawn : World -> SpawnArgs -> option Z -> ProcRun * World.
Variable bun_env : Obj string.
(** The [condition] of a job, which the job records above leave out. *)
Variable condition : JobDefinition -> option JobCondition.

Record RunLoop : Type := mkRunLoop {
  results : Obj JobResult;
  jobResults : list JobRunResult;
  failed : bool;
  world : World
}.

(** One turn of [for (const job of sortedJobs)]; a dependency found
    failed skips the job if its name is truthy. *)
Definition run_body (configDir : string) (env : Obj string) (st : RunLoop)
  (job : JobDefinition) : RunLoop :=
  let skip :=
    mkRunLoop (set (results st) (job_name job) (mkJobResult ResSkipped []))
              (jobResults st) (failed st) (world st) in
  let run :=
    let (result, w') :=
      runJob World spawn bun_env (world st) job
             (mkRunJobOptions configDir env) in
    mkRunLoop
      (set (results st) (job_name job)
           (mkJobResult (of_run (jr_status result)) (jr_outputs result)))
      (jobResults st ++ [result])
      (match jr_status result with JFailure => true | _ => failed st end)
      w' in
  match find (not_succeeded (results st)) (job_dependsOn job) with
  | Some (String _ _) => skip
  | _ =>
      match condition job with
      | Some (ConditionKeyword s) =>
          if String.eqb s "on_failure" && negb (failed st) then skip else run
      | Some (ConditionFn f) => if f (results st) then run else skip
      | None => run
      end
  end.

(** The loop of [run] over the sorted jobs. *)
Definition run_jobs (configDir : string) (env : Obj string) (w : World)
  (sortedJobs : list JobDefinition) : RunLoop :=
  fold_left (run_body configDir env) sortedJobs (mkRunLoop [] [] false w).

End WithProcesses.

(** Every job that was run is a job of [all] whose dependencies had all
    succeeded. *)
Definition ran_after_dependencies (all : list JobDefinition)
  (results : Obj JobResult) (jobResults : list JobRunResult) : Prop :=
  forall r, In r jobResults ->
    exists job,
      In job all /\ jr_job r = job_name job
      /\ forall dep, In dep (job_dependsOn job) ->
                     not_succeeded results dep = false.

Arguments results {World}.
Arguments jobResults {World}.
Arguments failed {World}.
Arguments world {World}.

End Cli.

(* ================================================================== *)
(** * Own keys in JavaScript's order, and inherited names *)
(* ================================================================== *)

(** The records of [Js] list own properties in the order they were
    added and are read by own key.  That is what the objects of the
    program do as long as no key is an array index (such keys are listed
    first, in ascending order) and no key read or written names a
    property of [Object.prototype].  This module gives both exceptions,
    and the numbers on which [Js.to_string] and [Js.strict_eq] are those
    of JavaScript's doubles. *)
Module JsKeys.
Import Js Types.

Definition is_digit (c : ascii) : bool := in_range 48 57 c.

(** The number a string of digits writes, after [acc]. *)
Fixpoint digits_value (s : string) (acc : N) : N :=
  match s with
  | EmptyString => acc
  | String c s' => digits_value s' (acc * 10 + N.of_nat (nat_of_ascii c - 48))%N
  end.

(** A canonical numeric string: [0], or digits that do not begin with 0. *)
Definition canonical_numeric (k : string) : bool :=
  match k with
  | EmptyString => false
  | String c rest =>
      all_chars is_digit k
      && (is_empty rest || negb (Ascii.eqb c "0"%char))
  end.

(** The array index a key writes: a canonical numeric string below
    [2^32 - 1]. *)
Definition array_index (k : string) : option N :=
  if canonical_numeric k
  then let n := digits_value k 0%N in
       if (n <? 4294967295)%N then Some n else None
  else None.

(** The properties every object inherits from [Object.prototype]. *)
Definition prototype_names : list string :=
  [ "constructor"; "__proto__"; "hasOwnProperty"; "isPrototypeOf";
    "propertyIsEnumerable"; "toLocaleString"; "toString"; "valueOf";
    "__defineGetter__"; "__defineSetter__"; "__lookupGetter__";
    "__lookupSetter__" ].

Definition inherited_name (k : string) : bool :=
  existsb (String.eqb k) prototype_names.

(** A key on which [Js.set], [Js.keys] and [Js.get] are the program's
    [o[k] = v], [Object.keys(o)] and [o[k]]. *)
Definition ordinary_key (k : string) : bool :=
  negb (canonical_numeric k) && negb (inherited_name k).

Definition ordinary_keys {A} (o : Obj A) : bool :=
  forallb ordinary_key (keys o).

(** A new array index takes its place among the array indices, which
    come before every other key. *)
Fixpoint insert_index {A} (o : Obj A) (n : N) (k : string) (v : A) : Obj A :=
  match o with
  | [] => [(k, v)]
  | (k', v') :: o' =>
      match array_index k' with
      | Some n' =>
          if (n' <? n)%N then (k', v') :: insert_index o' n k v
          else (k, v) :: o
      | None => (k, v) :: o
      end
  end.

(** Defining the property [k] of an object, array indices included. *)
Definition define {A} (o : Obj A) (k : string) (v : A) : Obj A :=
  match array_index k with
  | Some n => if has o k then set o k v else insert_index o n k v
  | None => set o k v
  end.

(** The object an object literal evaluates to, its properties written in
    the order of [entries] (none of them named [__proto__]). *)
Definition literal {A} (entries : list (string * A)) : Obj A :=
  fold_left (fun o kv => define o (fst kv) (snd kv)) entries [].

(** A number that is its own double and prints as its decimal digits:
    an integer of magnitude at most [2^53 - 1]. *)
Definition safe_value (v : value) : bool :=
  match v with
  | VNum n => (Z.abs n <=? 9007199254740991)%Z
  | _ => true
  end.

Definition safe_values (o : Obj value) : bool :=
  forallb (fun kv => safe_value (snd kv)) o.

(** The keys of a matrix, of its exclusions and of its inclusions are
    ordinary. *)
Definition ordinary_matrix (m : MatrixConfig) : bool :=
  ordinary_keys (mx_values m)
  && forallb ordinary_keys (mx_exclude m)
  && forallb ordinary_keys (mx_include m).

(** The numbers of a matrix, of its exclusions and of its inclusions are
    safe. *)
Definition safe_matrix (m : MatrixConfig) : bool :=
  forallb (fun d => forallb safe_value (snd d)) (mx_values m)
  && forallb safe_values (mx_exclude m)
  && forallb safe_values (mx_include m).

(** A matrix written with an array index among its keys: [node] is
    declared first, [2] second. *)
Definition declared_dimensions : list (string * list value) :=
  [ ("node", [VStr "a"; VStr "b"]); ("2", [VStr "x"; VStr "y"]) ].

Definition indexed_job : JobDefinition :=
  mkJob "test" (Some "ubuntu-22.04") [] [] []
    (Some (mkMatrix (literal declared_dimensions) [] [] None)).

End JsKeys.

(* ================================================================== *)
(** * Jobs whose processes start ([executor/runner.ts]) *)
(* ================================================================== *)

Module RunnerStart.
Import Js Types Runner.

Section WithProcesses.
Variable World : Type.
Variable spawn : World -> SpawnArgs -> option Z -> ProcRun * World.
Variable bun_env : Obj string.

(** Whether [Bun.spawn] starts the process asked for.  When it does not
    (the working directory or the shell is not there) it throws, and
    nothing in [runCommand], [runStep] or [runJob] catches: the job is
    rejected and has no result.  [Runner.runJob] is the job all of whose
    processes start. *)
Variable starts : World -> SpawnArgs -> bool.

(** The process of the step, if it has one, starts. *)
Definition step_starts (w : World) (step : StepDefinition)
  (options : RunStepOptions) : bool :=
  match step_kind step with
  | RunStep run shell => starts w (spawn_args bun_env options step run shell)
  | SetupStep _ _ => true
  end.

(** The loop reaches [runStep] for this step. *)
Definition runs_step (st : LoopState World) (step : StepDefinition) : bool :=
  negb (skipped_by_condition step (ls_stepResults st))
  && negb (ls_jobFailed st && negb (step_continueOnError step)).

(** The loop over the steps comes to its end: every step it runs
    starts. *)
Fixpoint loop_returns (cwd : string) (env : Obj string)
  (steps : list StepDefinition) (st : LoopState World) : bool :=
  match steps with
  | [] => true
  | step :: rest =>
      (negb (runs_step st step)
       || step_starts (ls_world st) step
            (mkRunStepOptions cwd env (ls_stepResults st)))
      && loop_returns cwd env rest (loop_body World spawn bun_env cwd env st step)
  end.

(** [runJob] returns a result. *)
Definition runJob_returns (w : World) (job : JobDefinition)
  (options : RunJobOptions) : bool :=
  loop_returns (rjo_cwd options) (job_env_of job options) (job_steps job)
               (mkLoopState World [] [] false w [] []).

(** What [runStep] comes to: its result, or nothing when [Bun.spawn]
    throws. *)
Definition runStep_result (w : World) (step : StepDefinition)
  (options : RunStepOptions)
  : option (StepResult * list SpawnArgs * World) :=
  if step_starts w step options
  then Some (runStep World spawn bun_env w step options)
  else None.

(** What [runJob] comes to: its result, or nothing when a process it
    asks for does not start. *)
Definition runJob_result (w : World) (job : JobDefinition)
  (options : RunJobOptions) : option (JobRunResult * World) :=
  if runJob_returns w job options
  then Some (runJob World spawn bun_env w job options)
  else None.

(** The results of the steps of a job in the specification's words: the
    steps are taken in order; a step is skipped when its condition is
    false, or when an earlier step has failed the job and the step has
    no [continueOnError]; otherwise it is run, in the state the steps
    before it have left and with their results, and it fails the job
    when its outcome is [failure] and it has no [continueOnError]. *)
Fixpoint spec_step_results (cwd : string) (env : Obj string)
  (steps : list StepDefinition) (results : Obj StepResult) (failed : bool)
  (w : World) : list (StepDefinition * StepResult) :=
  match steps with
  | [] => []
  | step :: rest =>
      if skipped_by_condition step results
         || (failed && negb (step_continueOnError step))
      then
        (step, skipped_result)
        :: spec_step_results cwd env rest
             (record_result (step_id step) skipped_result results) failed w
      else
        let '(r, _, w') :=
          runStep World spawn bun_env w step
                  (mkRunStepOptions cwd env results) in
        (step, r)
        :: spec_step_results cwd env rest
             (record_result (step_id step) r results)
             (failed || (is_failure (sr_outcome r)
                         && negb (step_continueOnError step)))
             w'
  end.

End WithProcesses.

(** The results recorded under the ids of their steps. *)
Definition recorded (log : list (StepDefinition * StepResult))
  : Obj StepResult :=
  fold_left (fun acc e => record_result (step_id (fst e)) (snd e) acc) log [].

End RunnerStart.

(* ================================================================== *)
(** * Properties *)
(* ================================================================== *)

Import Js Types.

(** ** Records *)

Section RecordFacts.
Context {A : Type}.
Implicit Types (o acc src : Obj A) (k : string) (v : A).

Lemma keys_app o1 o2 : keys (o1 ++ o2) = keys o1 ++ keys o2.
Proof. apply map_app. Qed.

Lemma lookup_none_iff o k : lookup o k = None <-> ~ In k (keys o).
Proof.
  induction o as [|[k' v'] o IH]; simpl.
  - tauto.
  - destruct (String.eqb_spec k' k) as [->|Hne].
    + split; [discriminate | intros H; exfalso; apply H; now left].
    + rewrite IH. split; intros H; [intros [E|I]; [congruence | tauto] | tauto].
Qed.

Lemma lookup_in o k v : NoDup (keys o) -> In (k, v) o -> lookup o k = Some v.
Proof.
  induction o as [|[k' v'] o IH]; simpl; intros ND HI; [tauto|].
  inversion ND as [|? ? Hnot ND']; subst.
  destruct HI as [E|HI].
  - inversion E; subst. now rewrite String.eqb_refl.
  - destruct (String.eqb_spec k' k) as [->|Hne].
    + exfalso. apply Hnot. change k with (fst (k, v)). now apply in_map.
    + now apply IH.
Qed.

Lemma lookup_some_in o k v : lookup o k = Some v -> In (k, v) o.
Proof.
  induction o as [|[k' v'] o IH]; simpl; [discriminate|].
  destruct (String.eqb_spec k' k) as [->|Hne].
  - intros E; inversion E; now left.
  - intros H; right; now apply IH.
Qed.

Lemma has_true_iff o k : has o k = true <-> In k (keys o).
Proof.
  unfold has. destruct (lookup o k) eqn:E.
  - split; [intros _|reflexivity].
    apply lookup_some_in in E. change k with (fst (k, a)). now apply in_map.
  - apply lookup_none_iff in E. split; [discriminate | tauto].
Qed.

Lemma set_fresh o k v : ~ In k (keys o) -> set o k v = o ++ [(k, v)].
Proof.
  induction o as [|[k' v'] o IH]; simpl; intros H; [reflexivity|].
  destruct (String.eqb_spec k' k) as [->|Hne]; [tauto|].
  f_equal. apply IH. tauto.
Qed.

Lemma set_same o k v : NoDup (keys o) -> In (k, v) o -> set o k v = o.
Proof.
  induction o as [|[k' v'] o IH]; simpl; intros ND HI; [tauto|].
  inversion ND as [|? ? Hnot ND']; subst.
  destruct (String.eqb_spec k' k) as [->|Hne].
  - destruct HI as [E|HI]; [congruence|].
    exfalso. apply Hnot. change k with (fst (k, v)). now apply in_map.
  - destruct HI as [E|HI]; [congruence|]. f_equal. now apply IH.
Qed.

Lemma lookup_set_same o k v : lookup (set o k v) k = Some v.
Proof.
  induction o as [|[k' v'] o IH]; simpl.
  - now rewrite String.eqb_refl.
  - destruct (String.eqb k' k) eqn:E; simpl; rewrite E; [reflexivity | exact IH].
Qed.

Lemma lookup_set_other o k k' v : k' <> k -> lookup (set o k v) k' = lookup o k'.
Proof.
  intros Hne. induction o as [|[k0 v0] o IH]; simpl.
  - destruct (String.eqb_spec k k'); [congruence | reflexivity].
  - destruct (String.eqb_spec k0 k) as [->|H0]; simpl.
    + destruct (String.eqb_spec k k'); [congruence | reflexivity].
    + destruct (String.eqb k0 k'); [reflexivity | exact IH].
Qed.

(** A binding survives the assignment of a source that does not name its
    key; the last binding of a source wins. *)
Lemma lookup_assign_absent src acc k :
  ~ In k (keys src) -> lookup (assign acc src) k = lookup acc k.
Proof.
  unfold assign. revert acc.
  induction src as [|[k' v'] src IH]; simpl; intros acc H; [reflexivity|].
  rewrite IH by tauto. apply lookup_set_other. intros ->. tauto.
Qed.

Lemma lookup_assign_in src acc k v :
  NoDup (keys src) -> In (k, v) src -> lookup (assign acc src) k = Some v.
Proof.
  unfold assign. revert acc.
  induction src as [|[k' v'] src IH]; simpl; intros acc ND HI; [tauto|].
  inversion ND as [|? ? Hnot ND']; subst.
  destruct HI as [E|HI].
  - inversion E; subst.
    change (lookup (assign (set acc k v) src) k = Some v).
    rewrite lookup_assign_absent by exact Hnot. apply lookup_set_same.
  - now apply IH.
Qed.

(** Assigning a source whose keys are new appends it. *)
Lemma assign_fresh src acc :
  NoDup (keys acc ++ keys src) -> assign acc src = acc ++ src.
Proof.
  unfold assign. revert acc.
  induction src as [|[k v] src IH]; simpl; intros acc ND.
  - now rewrite app_nil_r.
  - assert (Hk : ~ In k (keys acc)).
    { intros Hin. apply NoDup_remove_2 in ND. apply ND.
      apply in_or_app. now left. }
    rewrite set_fresh by exact Hk. rewrite IH.
    + now rewrite <- app_assoc.
    + rewrite keys_app. simpl. rewrite <- app_assoc. exact ND.
Qed.

Lemma fromEntries_id (o : Obj A) : NoDup (keys o) -> fromEntries o = o.
Proof. intros ND. unfold fromEntries. now rewrite assign_fresh. Qed.

(** Assigning a source that agrees with the target wherever they share a
    key appends the source's other properties. *)
Lemma assign_agreeing src acc :
  NoDup (keys acc) -> NoDup (keys src) ->
  (forall k v, In (k, v) src -> In k (keys acc) -> In (k, v) acc) ->
  assign acc src = acc ++ filter (fun kv => negb (has acc (fst kv))) src.
Proof.
  unfold assign. revert acc.
  induction src as [|[k v] src IH]; simpl; intros acc NDa NDs Hag.
  - now rewrite app_nil_r.
  - inversion NDs as [|? ? Hnot NDs']; subst.
    destruct (has acc k) eqn:Hh; simpl.
    + apply has_true_iff in Hh.
      rewrite set_same; [|exact NDa | apply Hag; [now left | exact Hh]].
      apply IH; auto.
    + assert (Hk : ~ In k (keys acc)).
      { intros Hin. apply has_true_iff in Hin. congruence. }
      rewrite set_fresh by exact Hk.
      rewrite IH.
      * rewrite <- app_assoc. simpl. do 2 f_equal.
        apply filter_ext_in. intros [k' v'] Hin. simpl. f_equal.
        assert (Hne : k' <> k).
        { intros ->. apply Hnot. change k with (fst (k, v')). now apply in_map. }
        unfold has. rewrite <- (set_fresh acc k v Hk).
        now rewrite lookup_set_other.
      * rewrite keys_app. simpl. apply NoDup_app; [exact NDa | |].
        -- constructor; [intros [] | constructor].
        -- intros a Ha [<-|[]]. contradiction.
      * exact NDs'.
      * intros k' v' Hin Hkin. apply in_or_app. left.
        apply Hag; [now right|].
        rewrite keys_app in Hkin. apply in_app_or in Hkin.
        destruct Hkin as [H|[<-|[]]]; [exact H|].
        exfalso. apply Hnot. change k with (fst (k, v')). now apply in_map.
Qed.

End RecordFacts.

Lemma has_same_keys {A B} (o : Obj A) (o' : Obj B) k :
  keys o = keys o' -> has o k = has o' k.
Proof.
  intros E. destruct (has o k) eqn:H1.
  - apply has_true_iff in H1. rewrite E in H1. symmetry. now apply has_true_iff.
  - destruct (has o' k) eqn:H2; [|reflexivity].
    apply has_true_iff in H2. rewrite <- E in H2.
    apply has_true_iff in H2. congruence.
Qed.

(** ** Matrix expansion *)

Import Matrix.

Lemma flat_map_single {A B} (f : A -> B) (l : list A) :
  flat_map (fun x => [f x]) l = map f l.
Proof. induction l as [|x l IH]; simpl; [reflexivity | now rewrite IH]. Qed.

(** [spec_product] is the Cartesian product: its members are the records
    that give every dimension, in order, one of its values, and there are
    as many as the product of the dimensions' sizes. *)
Lemma spec_product_members dims c :
  In c (spec_product dims) <->
  Forall2 (fun kv d => fst kv = fst d /\ In (snd kv) (snd d)) c dims.
Proof.
  revert c. induction dims as [|[k vs] rest IH]; intros c; simpl.
  - split.
    + intros [<-|[]]. constructor.
    + intros H. inversion H. now left.
  - rewrite in_flat_map. split.
    + intros (v & Hv & Hc). apply in_map_iff in Hc as (c' & <- & Hc').
      constructor; [simpl; auto | now apply IH].
    + intros H. inversion H as [|[k' v] d c' ds [Hk Hv] Hrest]; subst.
      simpl in Hk, Hv. subst k'. exists v. split; [exact Hv|].
      apply in_map. now apply IH.
Qed.

Lemma length_flat_map_const {A B} (f : A -> list B) n l :
  (forall x, List.length (f x) = n) ->
  List.length (flat_map f l) = (List.length l * n)%nat.
Proof.
  intros H. induction l as [|x l IH]; simpl; [reflexivity|].
  now rewrite length_app, H, IH.
Qed.

Lemma spec_product_length dims :
  List.length (spec_product dims) =
  fold_right (fun d n => (List.length (snd d) * n)%nat) 1%nat dims.
Proof.
  induction dims as [|[k vs] rest IH]; simpl; [reflexivity|].
  rewrite <- IH. apply length_flat_map_const. intros v. apply length_map.
Qed.

Lemma spec_product_keys dims c : In c (spec_product dims) -> keys c = keys dims.
Proof.
  rewrite spec_product_members. intros H.
  induction H as [|kv d c ds [Hk _] _ IH]; simpl; [reflexivity | congruence].
Qed.

Lemma dim_values_in (values : Obj (list value)) k vs :
  NoDup (keys values) -> In (k, vs) values -> dim_values values k = vs.
Proof. intros ND H. unfold dim_values. now rewrite (lookup_in _ _ _ ND H). Qed.

Lemma entries_rebuilt (values rest : Obj (list value)) :
  NoDup (keys values) -> incl rest values ->
  map (fun d => (d, dim_values values d)) (keys rest) = rest.
Proof.
  intros ND. induction rest as [|[k vs] rest IH]; simpl; intros Hin.
  - reflexivity.
  - rewrite (dim_values_in values k vs ND) by (apply Hin; now left).
    f_equal. apply IH. intros x Hx. apply Hin. now right.
Qed.

Lemma cartesianProduct_fuel_spec values : forall fuel,
  NoDup (keys values) -> (List.length values <= fuel)%nat ->
  cartesianProduct_fuel fuel values = spec_product values.
Proof.
  induction values as [|[first vs] rest IH]; intros fuel ND Hlen.
  - destruct fuel; reflexivity.
  - assert (Hfirst : dim_values ((first, vs) :: rest) first = vs).
    { apply dim_values_in; [exact ND | now left]. }
    destruct rest as [|[k2 vs2] rest'].
    + destruct fuel; simpl; rewrite Hfirst;
        now rewrite <- (flat_map_single (fun v => [(first, v)])).
    + destruct fuel as [|fuel]; [simpl in Hlen; lia|].
      set (tail := (k2, vs2) :: rest') in *.
      assert (NDt : NoDup (keys tail)) by (now inversion ND).
      assert (Hnot : ~ In first (keys tail)) by (now inversion ND).
      change (cartesianProduct_fuel (S fuel) ((first, vs) :: tail))
        with (flat_map
                (fun v => map (fun restCombo => assign [(first, v)] restCombo)
                   (cartesianProduct_fuel fuel
                      (fromEntries
                         (map (fun d => (d, dim_values ((first, vs) :: tail) d))
                              (keys tail)))))
                (dim_values ((first, vs) :: tail) first)).
      rewrite Hfirst, entries_rebuilt; [|exact ND | intros x Hx; now right].
      rewrite fromEntries_id by exact NDt.
      rewrite IH; [|exact NDt | subst tail; simpl in Hlen |- *; lia].
      change (spec_product ((first, vs) :: tail))
        with (flat_map (fun v => map (fun c => (first, v) :: c)
                                     (spec_product tail)) vs).
      apply flat_map_ext. intros v. apply map_ext_in. intros c Hc.
      apply spec_product_keys in Hc.
      change ((first, v) :: c) with ([(first, v)] ++ c).
      apply assign_fresh. simpl. rewrite Hc. constructor; assumption.
Qed.

Lemma cartesianProduct_spec values :
  distinct_keys values -> cartesianProduct values = spec_product values.
Proof.
  intros ND. apply cartesianProduct_fuel_spec; [exact ND|].
  unfold keys. now rewrite length_map.
Qed.

Lemma get_in (o : Obj value) k v :
  NoDup (keys o) -> In (k, v) o -> get o k = v.
Proof. intros ND H. unfold get. now rewrite (lookup_in _ _ _ ND H). Qed.

Lemma matches_all_spec combo pattern :
  distinct_keys pattern -> matches_all combo pattern = spec_agrees combo pattern.
Proof.
  intros ND. unfold matches_all, spec_agrees, keys.
  assert (G : forall l, incl l pattern ->
            forallb (fun key => strict_eq (get combo key) (get pattern key))
                    (map fst l)
            = forallb (fun kv => strict_eq (get combo (fst kv)) (snd kv)) l).
  { induction l as [|[k v] l IH]; simpl; intros Hin; [reflexivity|].
    rewrite (get_in pattern k v ND) by (apply Hin; now left).
    f_equal. apply IH. intros x Hx. apply Hin. now right. }
  apply G, incl_refl.
Qed.

Lemma existsb_ext_in {A} (f g : A -> bool) l :
  (forall x, In x l -> f x = g x) -> existsb f l = existsb g l.
Proof.
  induction l as [|x l IH]; simpl; intros H; [reflexivity|].
  rewrite H by now left. f_equal. apply IH. intros y Hy. apply H. now right.
Qed.

Lemma shouldExclude_spec combo exclusions :
  Forall distinct_keys exclusions ->
  shouldExclude combo exclusions
  = existsb (fun e => spec_agrees combo e) exclusions.
Proof.
  intros H. unfold shouldExclude. apply existsb_ext_in. intros e He.
  apply matches_all_spec. rewrite Forall_forall in H. now apply H.
Qed.

Lemma fold_set_assign {A} (f : string -> A) ks : forall acc : Obj A,
  fold_left (fun acc dim => set acc dim (f dim)) ks acc
  = assign acc (map (fun d => (d, f d)) ks).
Proof.
  unfold assign. induction ks as [|k ks IH]; simpl; intros acc;
    [reflexivity | apply IH].
Qed.

Lemma fullCombo_spec values inclusion :
  distinct_keys values ->
  fold_left (fun acc dim => set acc dim (fill_dim values inclusion dim))
            (keys values) []
  = map (fun d => (fst d, match get inclusion (fst d) with
                          | VUndef => spec_first (snd d)
                          | v => v
                          end)) values.
Proof.
  intros ND. rewrite fold_set_assign, assign_fresh.
  - simpl. unfold keys. rewrite map_map. apply map_ext_in.
    intros [k vs] Hin. simpl. unfold fill_dim.
    rewrite (dim_values_in values k vs ND Hin).
    destruct (get inclusion k); try reflexivity. now destruct vs.
  - simpl. unfold keys at 1. rewrite map_map. simpl. rewrite map_id. exact ND.
Qed.

Lemma apply_inclusion_spec values combos inclusion :
  distinct_keys values -> distinct_keys inclusion -> scalars_only inclusion ->
  apply_inclusion values combos inclusion
  = if existsb (fun c => spec_agrees c inclusion) combos then combos
    else combos ++ [spec_synthesise values inclusion].
Proof.
  intros NDv NDi Hsc. unfold apply_inclusion.
  rewrite (existsb_ext_in _ (fun c => spec_agrees c inclusion))
    by (intros; now apply matches_all_spec).
  destruct (existsb _ combos); [reflexivity|].
  do 2 f_equal. rewrite (fullCombo_spec values inclusion NDv).
  set (F := map _ values).
  assert (HkF : keys F = keys values).
  { unfold F, keys. rewrite map_map. reflexivity. }
  unfold spec_synthesise. fold F.
  rewrite assign_agreeing.
  - f_equal. apply filter_ext. intros [k v]. simpl. f_equal.
    now apply has_same_keys.
  - rewrite HkF. exact NDv.
  - exact NDi.
  - intros k v Hin Hk. rewrite HkF in Hk.
    apply in_map_iff in Hk as ([k' vs] & Ek & Hd). simpl in Ek. subst k'.
    unfold F. apply in_map_iff. exists (k, vs). split; [|exact Hd].
    simpl. rewrite (get_in inclusion k v NDi Hin).
    unfold scalars_only in Hsc. rewrite Forall_forall in Hsc.
    specialize (Hsc (k, v) Hin). simpl in Hsc. now destruct v.
Qed.

Lemma include_spec values inclusions : forall combos,
  distinct_keys values ->
  Forall distinct_keys inclusions -> Forall scalars_only inclusions ->
  fold_left (apply_inclusion values) inclusions combos
  = spec_include values combos inclusions.
Proof.
  induction inclusions as [|inc rest IH]; simpl; intros combos NDv Hd Hs;
    [reflexivity|].
  inversion Hd; inversion Hs; subst.
  rewrite apply_inclusion_spec by assumption.
  destruct (existsb _ combos); now apply IH.
Qed.

Lemma generateCombinations_spec m :
  keys (mx_values m) <> [] -> distinct_keys (mx_values m) ->
  Forall distinct_keys (mx_exclude m) ->
  Forall distinct_keys (mx_include m) -> Forall scalars_only (mx_include m) ->
  generateCombinations m = number_from 0 (spec_combinations m).
Proof.
  intros Hne NDv Hex Hin Hsc. unfold generateCombinations, spec_combinations.
  destruct (keys (mx_values m)) eqn:Ek; [congruence|].
  rewrite cartesianProduct_spec by exact NDv.
  rewrite include_spec by assumption.
  do 2 f_equal. apply filter_ext. intros c. f_equal.
  now apply shouldExclude_spec.
Qed.

Lemma instances_numbered job cs : forall i j,
  instances_from job i (number_from j cs)
  = map (fun ic => spec_instance job (fst ic) (snd ic))
        (combine (seq i (List.length cs)) cs).
Proof.
  induction cs as [|c cs IH]; simpl; intros i j; [reflexivity|].
  now rewrite IH.
Qed.

(** On ordinary keys defining a property is [Js.set], and a literal is
    the list of its entries. *)
Lemma define_ordinary {A} (o : Obj A) k v :
  JsKeys.ordinary_key k = true -> JsKeys.define o k v = set o k v.
Proof.
  unfold JsKeys.ordinary_key, JsKeys.define, JsKeys.array_index.
  intros H. apply andb_true_iff in H as [H _].
  apply negb_true_iff in H. now rewrite H.
Qed.

Lemma literal_ordinary {A} (entries : list (string * A)) :
  distinct_keys entries -> JsKeys.ordinary_keys entries = true ->
  JsKeys.literal entries = entries.
Proof.
  intros ND Hord. unfold JsKeys.literal.
  assert (E : forall acc,
             fold_left (fun o kv => JsKeys.define o (fst kv) (snd kv))
                       entries acc
             = assign acc entries).
  { unfold assign. clear ND. unfold JsKeys.ordinary_keys, keys in Hord.
    induction entries as [|[k v] es IH]; intros acc; [reflexivity|].
    cbn [map forallb fst] in Hord. apply andb_true_iff in Hord as [Hk Hes].
    cbn [fold_left fst snd]. rewrite define_ordinary by exact Hk.
    now apply IH. }
  rewrite E. change (fromEntries entries = entries).
  now apply fromEntries_id.
Qed.

(** C3, as the code has it.  For a matrix whose keys are ordinary (no
    array index, no name of [Object.prototype]) and whose numbers are
    safe integers, a job whose matrix has at least one dimension expands
    to the Cartesian product of its dimensions in declaration order,
    less the combinations agreeing with an exclusion, followed by a
    synthesised combination for each inclusion that agrees with none
    present; on such keys the object lists its dimensions as they are
    declared; the matrix of scenario 3 gives the three instances
    named. *)
Theorem expandMatrix_is_planned_expansion :
  forall job m,
    job_matrix job = Some m ->
    keys (mx_values m) <> [] ->
    distinct_keys (mx_values m) ->
    Forall distinct_keys (mx_exclude m) ->
    Forall distinct_keys (mx_include m) ->
    Forall scalars_only (mx_include m) ->
    JsKeys.ordinary_matrix m = true ->
    JsKeys.safe_matrix m = true ->
    expandMatrix job = spec_expand job m
    /\ JsKeys.literal (mx_values m) = mx_values m
    /\ map ej_displayName (expandMatrix scenario3_job)
       = ["test (os=ubuntu, node=18)"; "test (os=ubuntu, node=20)";
          "test (os=alpine, node=20)"].
Proof.
  intros job m Hm Hne NDv Hex Hin Hsc Hord _.
  split; [|split; [|vm_compute; reflexivity]].
  - unfold expandMatrix, spec_expand. rewrite Hm.
    rewrite generateCombinations_spec by assumption.
    apply instances_numbered.
  - apply literal_ordinary; [exact NDv|].
    unfold JsKeys.ordinary_matrix in Hord.
    apply andb_true_iff in Hord as [Hord _].
    now apply andb_true_iff in Hord as [Hord _].
Qed.

Lemma expandMatrix_is_planned_expansion_witness :
  expandMatrix scenario3_job
  = spec_expand scenario3_job
      (mkMatrix
         [("os", [VStr "ubuntu"; VStr "alpine"]); ("node", [VNum 18; VNum 20])]
         [[("os", VStr "alpine"); ("node", VNum 18)]] [] None).
Proof.
  refine (proj1 (expandMatrix_is_planned_expansion scenario3_job _
                   eq_refl _ _ _ _ _ eq_refl eq_refl)).
  - discriminate.
  - repeat constructor; simpl; intuition discriminate.
  - repeat constructor; simpl; intuition discriminate.
  - constructor.
  - constructor.
Defined.

(** C3 as stated fails for a matrix with an array index among its keys:
    written [{ node: [a, b], 2: [x, y] }], it lists [2] before [node], so
    [2] is the outer dimension and comes first in every name, against
    the declaration order. *)
Lemma expandMatrix_array_index_key_first :
  map fst JsKeys.declared_dimensions = ["node"; "2"]
  /\ keys (JsKeys.literal JsKeys.declared_dimensions) = ["2"; "node"]
  /\ map ej_displayName (expandMatrix JsKeys.indexed_job)
     = ["test (2=x, node=a)"; "test (2=x, node=b)";
        "test (2=y, node=a)"; "test (2=y, node=b)"]
  /\ map ej_displayName
         (spec_expand JsKeys.indexed_job
            (mkMatrix JsKeys.declared_dimensions [] [] None))
     = ["test (node=a, 2=x)"; "test (node=a, 2=y)";
        "test (node=b, 2=x)"; "test (node=b, 2=y)"]
  /\ expandMatrix JsKeys.indexed_job
     <> spec_expand JsKeys.indexed_job
          (mkMatrix JsKeys.declared_dimensions [] [] None).
Proof.
  repeat split; try (vm_compute; reflexivity).
  vm_compute. discriminate.
Qed.

(** C10.  A job whose matrix is present but lists no dimension expands to
    no instance at all, whatever its inclusions; the same job without a
    matrix expands to one instance. *)
Theorem expandMatrix_no_dimensions :
  forall job m,
    job_matrix job = Some m ->
    keys (mx_values m) = [] ->
    expandMatrix job = []
    /\ List.length
         (expandMatrix (mkJob (job_name job) (job_runner job)
                              (job_dependsOn job) (job_env job)
                              (job_steps job) None)) = 1%nat.
Proof.
  intros job m Hm Hk. split; [|reflexivity].
  unfold expandMatrix, generateCombinations. now rewrite Hm, Hk.
Qed.

Lemma expandMatrix_no_dimensions_witness :
  expandMatrix
    (mkJob "test" (Some "ubuntu-22.04") [] [] []
           (Some (mkMatrix [] [] [[("os", VStr "alpine")]] None))) = [].
Proof.
  exact (proj1 (expandMatrix_no_dimensions
                  (mkJob "test" (Some "ubuntu-22.04") [] [] []
                     (Some (mkMatrix [] [] [[("os", VStr "alpine")]] None)))
                  (mkMatrix [] [] [[("os", VStr "alpine")]] None)
                  eq_refl eq_refl)).
Defined.

(** ** Matrix placeholders *)

Lemma append_empty_r (s : string) : (s ++ "")%string = s.
Proof. induction s as [|c s IH]; simpl; [reflexivity | now rewrite IH]. Qed.

Lemma append_assoc (a b c : string) :
  ((a ++ b) ++ c)%string = (a ++ (b ++ c))%string.
Proof. induction a as [|x a IH]; simpl; [reflexivity | now rewrite IH]. Qed.

Lemma length_append (a b : string) :
  String.length (a ++ b) = (String.length a + String.length b)%nat.
Proof. induction a as [|x a IH]; simpl; [reflexivity | now rewrite IH]. Qed.

(** A greedy class takes exactly a run of its characters when what follows
    is the end of the text or a character outside the class. *)
Lemma span_run f (k rest : string) :
  all_chars f k = true -> stops f rest = true ->
  span f (k ++ rest) = (k, rest).
Proof.
  intros Hk Hr. induction k as [|c k IH]; simpl in *.
  - destruct rest as [|d rest]; simpl in *; [reflexivity|].
    apply negb_true_iff in Hr. now rewrite Hr.
  - apply andb_true_iff in Hk as [Hc Hk]. now rewrite Hc, IH.
Qed.

Lemma replace_fuel_empty fuel m : replace_fuel fuel "" m = "".
Proof. destruct fuel; reflexivity. Qed.

Lemma match_placeholder_matrix k :
  word_key k = true -> match_placeholder (matrix k) = Some (k, "").
Proof.
  unfold word_key. intros H. apply andb_true_iff in H as [Hne Hw].
  unfold matrix, match_placeholder. simpl.
  rewrite (span_run is_word k " }}" Hw eq_refl).
  destruct k; [discriminate|]. reflexivity.
Qed.

(** C9 fails on the code.  The helper's own example, [matrix] of the
    key [node-version], gives a placeholder the interpolation pattern
    does not match, since the pattern takes word characters only: the
    text comes back unchanged although the matrix binds the key. *)
Theorem interpolateMatrix_hyphen_key_unreplaced :
  get [("node-version", VStr "18")] "node-version" = VStr "18"
  /\ match_placeholder (matrix "node-version") = None
  /\ interpolateMatrix (matrix "node-version") [("node-version", VStr "18")]
     = "${{ matrix.node-version }}"
  /\ interpolateMatrix (matrix "node-version") [("node-version", VStr "18")]
     <> to_string (VStr "18").
Proof. repeat split; vm_compute; solve [reflexivity | discriminate]. Qed.

(** ** Step executor *)

Import Runner RunnerStart.

Lemma fold_on_event_quiet events : forall st,
  ~ In TimerExpired events ->
  fold_left on_event events st
  = mkCmdState (cs_output st ++ text_of events) (cs_killed st) (cs_timer st)
               (cs_kills st).
Proof.
  induction events as [|e events IH]; simpl; intros st Hno.
  - rewrite append_empty_r. now destruct st.
  - destruct e as [text|text|]; [| |exfalso; apply Hno; now left];
      (rewrite IH by tauto; simpl; now rewrite append_assoc).
Qed.

Lemma fold_on_event_disarmed events : forall st,
  cs_timer st = false ->
  fold_left on_event events st
  = mkCmdState (cs_output st ++ text_of events) (cs_killed st) false
               (cs_kills st).
Proof.
  induction events as [|e events IH]; cbn [fold_left]; intros st Ht.
  - simpl. rewrite append_empty_r. destruct st; simpl in *; now subst.
  - destruct e as [text|text|].
    + rewrite IH by exact Ht. simpl. now rewrite append_assoc.
    + rewrite IH by exact Ht. simpl. now rewrite append_assoc.
    + assert (E : on_event st TimerExpired = st)
        by (unfold on_event; now rewrite Ht).
      rewrite E. now apply IH.
Qed.

Lemma first_expiry events :
  In TimerExpired events ->
  exists before after,
    events = before ++ TimerExpired :: after /\ ~ In TimerExpired before.
Proof.
  induction events as [|e events IH]; simpl; [tauto|].
  intros H. destruct e as [text|text|].
  - destruct H as [H|H]; [discriminate|].
    destruct (IH H) as (b & a & -> & Hb).
    exists (Stdout text :: b), a. split; [reflexivity|].
    intros [E|E]; [discriminate | tauto].
  - destruct H as [H|H]; [discriminate|].
    destruct (IH H) as (b & a & -> & Hb).
    exists (Stderr text :: b), a. split; [reflexivity|].
    intros [E|E]; [discriminate | tauto].
  - exists [], events. split; [reflexivity | intros []].
Qed.

Lemma runCommand_on_expiry t before after exited :
  t <> 0%Z -> ~ In TimerExpired before ->
  runCommand_on (Some t) (mkProcRun (before ++ TimerExpired :: after) exited)
  = mkCmdResult 124 (text_of before ++ timeout_notice ++ text_of after) 1.
Proof.
  intros Ht Hb. unfold runCommand_on. simpl.
  apply Z.eqb_neq in Ht. rewrite Ht. simpl.
  rewrite fold_left_app, (fold_on_event_quiet before) by exact Hb. simpl.
  rewrite fold_on_event_disarmed by reflexivity. simpl.
  now rewrite append_assoc.
Qed.

(** C6.  When the timer of a run step with a (non-zero) timeout expires
    while its process is being read, the process is killed once, the exit
    code reported is 124, the notice is appended to the output read so
    far, and the step's outcome is failure. *)
Theorem timeout_ends_step_in_failure :
  forall (World : Type)
         (spawn : World -> SpawnArgs -> option Z -> ProcRun * World)
         (bun_env : Obj string) (w : World) (step : StepDefinition)
         (options : RunStepOptions) run shell t,
    step_kind step = RunStep run shell ->
    step_timeout step = Some t -> t <> 0%Z ->
    In TimerExpired
       (pr_events (fst (spawn w (spawn_args bun_env options step run shell)
                              (step_timeout step)))) ->
    let cr := fst (runCommand World spawn bun_env w options step run shell) in
    cr_kills cr = 1%nat
    /\ cr_exitCode cr = 124%Z
    /\ (exists before after,
          pr_events (fst (spawn w (spawn_args bun_env options step run shell)
                                (step_timeout step)))
          = before ++ TimerExpired :: after
          /\ ~ In TimerExpired before
          /\ cr_output cr
             = (text_of before
                ++ String LF "[TIMEOUT] Step exceeded timeout limit"
                ++ text_of after)%string)
    /\ sr_outcome (fst (fst (runStep World spawn bun_env w step options)))
       = StFailure.
Proof.
  intros World spawn bun_env w step options run shell t Hk Ht Hnz Hin cr.
  unfold runStep. rewrite Hk. subst cr. unfold runCommand.
  rewrite Ht in *.
  destruct (spawn w (spawn_args bun_env options step run shell) (Some t))
    as [[events exited] w'] eqn:Es.
  cbn [fst pr_events] in *.
  destruct (first_expiry events Hin) as (b & a & -> & Hb).
  rewrite (runCommand_on_expiry t b a exited Hnz Hb).
  cbn [fst cr_kills cr_exitCode cr_output].
  repeat split; try reflexivity.
  exists b, a. repeat split; auto.
Qed.

Lemma timeout_ends_step_in_failure_witness :
  sr_outcome
    (fst (fst (runStep unit slow_machine [] tt sleep_step
                       (mkRunStepOptions "/repo" [] [])))) = StFailure.
Proof.
  refine (proj2 (proj2 (proj2
    (timeout_ends_step_in_failure unit slow_machine [] tt sleep_step
       (mkRunStepOptions "/repo" [] []) "sleep 5" None 1%Z
       eq_refl eq_refl _ _)))).
  - discriminate.
  - simpl. right. now left.
Defined.

Section JobLoop.
Variable World : Type.
Variable spawn : World -> SpawnArgs -> option Z -> ProcRun * World.
Variable bun_env : Obj string.
Variables (cwd : string) (env : Obj string).

Let body := loop_body World spawn bun_env cwd env.

(** One turn logs one entry for its step, and leaves [jobFailed] set
    exactly when it was set or the entry fails the job. *)
Lemma loop_body_entry st step :
  exists r,
    ls_log (body st step) = ls_log st ++ [(step, r)]
    /\ (ls_jobFailed (body st step) = true
        <-> ls_jobFailed st = true \/ fails_job (step, r)).
Proof.
  unfold body, loop_body, fails_job.
  destruct (skipped_by_condition step (ls_stepResults st)).
  { exists skipped_result. simpl. split; [reflexivity|].
    split; [tauto | intros [H|[H _]]; [exact H | discriminate]]. }
  destruct (ls_jobFailed st && negb (step_continueOnError step)).
  { exists skipped_result. simpl. split; [reflexivity|].
    split; [tauto | intros [H|[H _]]; [exact H | discriminate]]. }
  destruct (runStep World spawn bun_env (ls_world st) step _)
    as [[result spawned] w'].
  exists result. simpl. split; [reflexivity|].
  destruct (sr_outcome result), (step_continueOnError step),
    (ls_jobFailed st); simpl; split; intros H;
    try tauto; try discriminate;
    destruct H as [H|[H1 H2]]; congruence.
Qed.

Lemma loop_log steps : forall st,
  exists added,
    ls_log (fold_left body steps st) = ls_log st ++ added
    /\ map fst added = steps
    /\ (ls_jobFailed (fold_left body steps st) = true
        <-> ls_jobFailed st = true \/ Exists fails_job added).
Proof.
  induction steps as [|step steps IH]; simpl; intros st.
  - exists []. rewrite app_nil_r. repeat split; auto.
    intros [H|H]; [exact H | inversion H].
  - destruct (loop_body_entry st step) as (r & Hlog & Hfail).
    destruct (IH (body st step)) as (added & Hlog' & Hsteps & Hfail').
    exists ((step, r) :: added). split; [|split].
    + rewrite Hlog', Hlog, <- app_assoc. reflexivity.
    + simpl. now rewrite Hsteps.
    + rewrite Hfail', Hfail, Exists_cons. tauto.
Qed.

(** The loop logs, and records, the results the specification lists. *)
Lemma loop_is_spec steps : forall st,
  ls_log (fold_left body steps st)
  = ls_log st
    ++ spec_step_results World spawn bun_env cwd env steps
         (ls_stepResults st) (ls_jobFailed st) (ls_world st)
  /\ ls_stepResults (fold_left body steps st)
     = fold_left (fun acc e => record_result (step_id (fst e)) (snd e) acc)
         (spec_step_results World spawn bun_env cwd env steps
            (ls_stepResults st) (ls_jobFailed st) (ls_world st))
         (ls_stepResults st).
Proof.
  induction steps as [|step steps IH]; intros st;
    cbn [fold_left spec_step_results].
  - rewrite app_nil_r. now split.
  - destruct (IH (body st step)) as [IH1 IH2]. rewrite IH1, IH2. clear IH1 IH2.
    unfold body, loop_body.
    destruct (skipped_by_condition step (ls_stepResults st)).
    { cbn [orb ls_log ls_stepResults ls_jobFailed ls_world fold_left fst snd].
      now rewrite <- app_assoc. }
    cbn [orb].
    destruct (ls_jobFailed st && negb (step_continueOnError step)) eqn:Eg.
    { cbn [ls_log ls_stepResults ls_jobFailed ls_world fold_left fst snd].
      now rewrite <- app_assoc. }
    destruct (runStep World spawn bun_env (ls_world st) step
                (mkRunStepOptions cwd env (ls_stepResults st)))
      as [[result spawned] w'].
    cbn [ls_log ls_stepResults ls_jobFailed ls_world fold_left fst snd].
    assert (Ef : (if is_failure (sr_outcome result)
                     && negb (step_continueOnError step)
                  then true else ls_jobFailed st)
                 = ls_jobFailed st
                   || (is_failure (sr_outcome result)
                       && negb (step_continueOnError step)))
      by (destruct (is_failure (sr_outcome result)
                    && negb (step_continueOnError step)),
            (ls_jobFailed st); reflexivity).
    rewrite Ef. now rewrite <- app_assoc.
Qed.

End JobLoop.

(** C5.  A run step that returns a result (its process has started) has
    outcome [success] exactly when its command's exit code is 0 and
    [failure] otherwise; its status is its outcome, except that a failure
    under [continueOnError] has status [success].  A job that returns a
    result has given its steps, in order, the results the specification
    lists (skipped, or what [runStep] returns for the step), has recorded
    them under the steps' ids, and ends in [failure] exactly when some
    step has outcome [failure] without [continueOnError], and in
    [success] otherwise. *)
Theorem step_and_job_result_mapping :
  forall (World : Type)
         (spawn : World -> SpawnArgs -> option Z -> ProcRun * World)
         (bun_env : Obj string) (starts : World -> SpawnArgs -> bool)
         (w : World) (step : StepDefinition)
         (options : RunStepOptions) run shell
         (job : JobDefinition) (joptions : RunJobOptions)
         (r : StepResult) (spawned : list SpawnArgs) (w1 w2 : World)
         (jr : JobRunResult),
    step_kind step = RunStep run shell ->
    runStep_result World spawn bun_env starts w step options
    = Some (r, spawned, w1) ->
    runJob_result World spawn bun_env starts w job joptions = Some (jr, w2) ->
    let exitCode :=
      cr_exitCode (fst (runCommand World spawn bun_env w options step run shell)) in
    let results :=
      spec_step_results World spawn bun_env (rjo_cwd joptions)
        (job_env_of job joptions) (job_steps job) [] false w in
    (sr_outcome r = StSuccess <-> exitCode = 0%Z)
    /\ (sr_outcome r = StFailure <-> exitCode <> 0%Z)
    /\ sr_status r
       = (if is_failure (sr_outcome r) && step_continueOnError step
          then StSuccess else sr_outcome r)
    /\ jr_log jr = results
    /\ jr_steps jr = recorded results
    /\ (jr_status jr = JFailure <-> Exists fails_job results)
    /\ (jr_status jr = JSuccess <-> ~ Exists fails_job results).
Proof.
  intros World spawn bun_env starts w step options run shell job joptions
         r spawned w1 w2 jr Hk Hstep Hjr exitCode results.
  unfold runStep_result in Hstep.
  destruct (step_starts World bun_env starts w step options);
    [|discriminate].
  unfold runJob_result in Hjr.
  destruct (runJob_returns World spawn bun_env starts w job joptions);
    [|discriminate].
  assert (Hr : r = step_result step exitCode
                     (cr_output (fst (runCommand World spawn bun_env w options
                                                 step run shell)))).
  { subst exitCode. unfold runStep in Hstep. rewrite Hk in Hstep.
    destruct (runCommand World spawn bun_env w options step run shell).
    now inversion Hstep. }
  assert (Hjob : jr_log jr = results /\ jr_steps jr = recorded results
                 /\ (jr_status jr = JFailure <-> Exists fails_job results)
                 /\ jr_status jr <> JCancelled).
  { inversion Hjr as [[Ejr Ew]]. subst results. unfold recorded.
    cbn [fst jr_log jr_status jr_steps].
    destruct (loop_is_spec World spawn bun_env (rjo_cwd joptions)
                (job_env_of job joptions) (job_steps job)
                (mkLoopState World [] [] false w [] []))
      as [Hspec Hrec].
    destruct (loop_log World spawn bun_env (rjo_cwd joptions)
                (job_env_of job joptions) (job_steps job)
                (mkLoopState World [] [] false w [] []))
      as (added & Hlog & _ & Hfail).
    cbn [ls_log ls_jobFailed ls_stepResults ls_world app] in *.
    rewrite Hlog in Hspec. subst added.
    split; [exact Hlog|]. split; [exact Hrec|].
    destruct (ls_jobFailed _) eqn:Ef.
    - split; [|discriminate]. split; [intros _ | reflexivity].
      destruct (proj1 Hfail eq_refl) as [H|H]; [discriminate | exact H].
    - split; [|discriminate]. split; [discriminate|]. intros H.
      assert (E : false = true) by (apply (proj2 Hfail); now right).
      discriminate. }
  destruct Hjob as (Hlog & Hrec & Hfail & Hnc).
  rewrite Hr. unfold step_result. cbn [sr_outcome sr_status].
  split; [|split; [|split; [|split; [|split; [|split]]]]].
  - split; [|intros ->; reflexivity].
    destruct (Z.eqb_spec exitCode 0); [auto | discriminate].
  - split; [|intros H; apply Z.eqb_neq in H; now rewrite H].
    destruct (Z.eqb_spec exitCode 0); [discriminate | auto].
  - destruct (Z.eqb exitCode 0), (step_continueOnError step); reflexivity.
  - exact Hlog.
  - exact Hrec.
  - exact Hfail.
  - split.
    + intros Hs He. apply Hfail in He. congruence.
    + intros Hn. destruct (jr_status jr) eqn:Es; [reflexivity | tauto |].
      congruence.
Qed.

Lemma step_and_job_result_mapping_witness :
  jr_status (fst (runJob unit RunnerLog.failing_machine [] tt
                    RunnerLog.failing_job (mkRunJobOptions "/repo" [])))
  = JFailure
  <-> Exists fails_job
        (spec_step_results unit RunnerLog.failing_machine [] "/repo"
           (job_env_of RunnerLog.failing_job (mkRunJobOptions "/repo" []))
           (job_steps RunnerLog.failing_job) [] false tt).
Proof.
  exact (proj1 (proj2 (proj2 (proj2 (proj2 (proj2
    (step_and_job_result_mapping unit RunnerLog.failing_machine []
       (fun _ _ => true) tt
       sleep_step (mkRunStepOptions "/repo" [] []) "sleep 5" None
       RunnerLog.failing_job (mkRunJobOptions "/repo" [])
       (fst (fst (runStep unit RunnerLog.failing_machine [] tt sleep_step
                    (mkRunStepOptions "/repo" [] []))))
       (snd (fst (runStep unit RunnerLog.failing_machine [] tt sleep_step
                    (mkRunStepOptions "/repo" [] []))))
       tt tt
       (fst (runJob unit RunnerLog.failing_machine [] tt
               RunnerLog.failing_job (mkRunJobOptions "/repo" [])))
       eq_refl eq_refl eq_refl))))))).
Defined.

(** ** Step outputs and the environment of later steps *)

Lemma strip_prefix_length p : forall s r,
  strip_prefix p s = Some r ->
  String.length s = (String.length p + String.length r)%nat.
Proof.
  induction p as [|a p IH]; simpl; intros s r H.
  - now inversion H.
  - destruct s as [|b s]; [discriminate|].
    destruct (Ascii.eqb a b); [|discriminate].
    simpl. f_equal. now apply IH.
Qed.

Lemma span_length f s : forall a b,
  span f s = (a, b) ->
  String.length s = (String.length a + String.length b)%nat.
Proof.
  induction s as [|c s IH]; simpl; intros a b H.
  - now inversion H.
  - destruct (f c).
    + destruct (span f s) as [a' b']. inversion H; subst. simpl.
      f_equal. now apply IH.
    + now inversion H.
Qed.

Lemma match_set_output_shorter text name value rest :
  match_set_output text = Some (name, value, rest) ->
  (String.length rest < String.length text)%nat.
Proof.
  unfold match_set_output.
  destruct (strip_prefix "::set-output name=" text) as [t1|] eqn:E1;
    [|discriminate].
  destruct (span not_colon t1) as [n t2] eqn:E2.
  destruct (is_empty n); [discriminate|].
  destruct (strip_prefix "::" t2) as [t3|] eqn:E3; [|discriminate].
  destruct (span is_dot t3) as [v r] eqn:E4.
  destruct (is_empty v); [discriminate|].
  intros H. inversion H; subst.
  apply strip_prefix_length in E1, E3. apply span_length in E2, E4.
  simpl in E1, E3. lia.
Qed.

(** The scan does not depend on its bound once the bound exceeds the
    length of the text. *)
Lemma set_output_matches_fuel n : forall m text,
  (String.length text < n)%nat -> (String.length text < m)%nat ->
  set_output_matches n text = set_output_matches m text.
Proof.
  induction n as [|n IH]; intros m text Hn Hm; [lia|].
  destruct m as [|m]; [lia|].
  cbn [set_output_matches].
  destruct (match_set_output text) as [[[name value] rest]|] eqn:E.
  - apply match_set_output_shorter in E. f_equal. apply IH; lia.
  - destruct text as [|c text]; [reflexivity|]. simpl in Hn, Hm.
    apply IH; lia.
Qed.

Lemma strip_prefix_cons a p b s :
  strip_prefix (String a p) (String b s)
  = if Ascii.eqb a b then strip_prefix p s else None.
Proof. reflexivity. Qed.

Lemma is_empty_false_iff s : is_empty s = false <-> s <> "".
Proof. destruct s; simpl; split; congruence. Qed.

Lemma set_keys_in {A} (o : Obj A) k v k' :
  In k' (keys (set o k v)) -> k' = k \/ In k' (keys o).
Proof.
  induction o as [|[k0 v0] o IH]; simpl.
  - intros [E|[]]. now left.
  - destruct (String.eqb k0 k); simpl; [tauto|].
    intros [E|H]; [tauto|]. destruct (IH H); tauto.
Qed.

Lemma set_distinct {A} (o : Obj A) k v :
  distinct_keys o -> distinct_keys (set o k v).
Proof.
  unfold distinct_keys.
  induction o as [|[k0 v0] o IH]; simpl; intros ND.
  - repeat constructor. intros [].
  - inversion ND as [|? ? Hnot ND']; subst.
    destruct (String.eqb_spec k0 k) as [->|Hne]; simpl.
    + now constructor.
    + constructor; [|now apply IH].
      intros Hin. apply set_keys_in in Hin. destruct Hin; congruence.
Qed.

Lemma assign_distinct {A} (src : Obj A) : forall acc,
  distinct_keys acc -> distinct_keys (assign acc src).
Proof.
  unfold assign. induction src as [|[k v] src IH]; simpl; intros acc Ha;
    [exact Ha|].
  apply IH. now apply set_distinct.
Qed.

(** C4 fails on the code, at scenario 4.  The first step's outputs hold
    [version = 1.2.3]; the second step's [env] binds [VER] to the
    placeholder the [output] helper writes for it, and its process is
    started with [VER] bound to the placeholder text, not to [1.2.3]:
    [runStep] is handed the results of the earlier steps and never reads
    them.  Nor does every matching line give an entry: a name that is not
    closed by [::] on its line runs on into the next line and swallows
    it. *)
Theorem scenario4_placeholder_unresolved :
  option_map sr_outputs (lookup (jr_steps scenario4_run) "build")
  = Some [("version", "1.2.3")]
  /\ map (fun a => lookup (sp_env a) "VER") (jr_spawned scenario4_run)
     = [None; Some "${{ steps.build.outputs.version }}"]
  /\ nth 1 (map (fun a => lookup (sp_env a) "VER") (jr_spawned scenario4_run))
         None
     <> Some "1.2.3"
  /\ lookup
       (parse_outputs
          ("::set-output name=a" ++ String LF "::set-output name=b::c"))
       "b" = None.
Proof. repeat split; vm_compute; solve [reflexivity | discriminate]. Qed.

(** ** Warm pool *)

Import WarmPool.

Lemma scheduleReplenish_maps opts p :
  idleVms (scheduleReplenish opts p) = idleVms p
  /\ inUseVms (scheduleReplenish opts p) = inUseVms p.
Proof.
  unfold scheduleReplenish. destruct (replenishPromise p); [now split|].
  unfold begin_replenish. now split.
Qed.

Lemma remove_absent {A} (o : Obj A) k : ~ In k (keys o) -> remove o k = o.
Proof.
  induction o as [|[k' v'] o IH]; simpl; intros H; [reflexivity|].
  destruct (String.eqb_spec k' k) as [->|Hne]; [tauto|].
  f_equal. apply IH. tauto.
Qed.

Lemma remove_keys_in {A} (o : Obj A) k k' :
  In k' (keys (remove o k)) -> In k' (keys o).
Proof.
  induction o as [|[k0 v0] o IH]; simpl; [tauto|].
  destruct (String.eqb k0 k); simpl; [tauto|]. intros [E|H]; [tauto|].
  right. now apply IH.
Qed.

Lemma remove_gone {A} (o : Obj A) k :
  distinct_keys o -> ~ In k (keys (remove o k)).
Proof.
  unfold distinct_keys.
  induction o as [|[k' v'] o IH]; simpl; intros ND; [tauto|].
  inversion ND as [|? ? Hnot ND']; subst.
  destruct (String.eqb_spec k' k) as [->|Hne]; [exact Hnot|].
  simpl. intros [E|H]; [congruence | now apply IH in H].
Qed.

(** C7 fails on the code.  The replenish that the first [acquire]
    schedules creates its VM on its own time and puts it among the idle
    ones when it arrives, without looking at the limits again.  With the
    limits of scenario 6 (at most 3 idle, at most 4 in all), when that VM
    arrives after the fourth [acquire] the pool holds 5 VMs and the fifth
    [acquire] succeeds instead of failing with [PoolExhausted]; when it
    arrives after the last [release] the pool ends with 4 idle VMs, not
    3.  The counts of the scenario come out only when every replenish
    settles before the next call. *)
Theorem warm_pool_late_replenish_breaks_limits :
  maxIdle scenario6_opts = 3%Z /\ maxTotal scenario6_opts = 4%Z
  /\ fst scenario6_arrival_before_fifth = [(0, 4); (1, 4); (0, 5)]%Z
  /\ id_of (snd scenario6_arrival_before_fifth) = "warm-2"
  /\ scenario6_arrival_after_releases
     = ([(0, 4); (3, 0); (4, 0)]%Z, inl PoolExhausted)
  /\ scenario6
     = ([(2, 0); (0, 4); (0, 4); (1, 3); (3, 1); (3, 0)]%Z,
        inl PoolExhausted).
Proof. repeat split; vm_compute; reflexivity. Qed.


(** ** Scheduler *)

Import Scheduler.

Lemma createJobs_ok runId defs : forall db,
  forallb has_runner defs = true ->
  createJobs db runId defs
  = (None, mkStore (projects db) (runs db)
                   (jobs db ++ map (job_row runId) defs)).
Proof.
  induction defs as [|jobDef defs IH]; simpl; intros db H.
  - rewrite app_nil_r. now destruct db.
  - apply andb_true_iff in H as [Hr Hrest]. unfold has_runner in Hr.
    unfold job_row at 1. destruct (job_runner jobDef) as [image|];
      [|discriminate].
    rewrite IH by exact Hrest. unfold createJob. cbn [projects runs jobs].
    now rewrite <- app_assoc.
Qed.

Lemma createJobs_error runId defs : forall db e db',
  createJobs db runId defs = (Some e, db') ->
  e = TypeError /\ forallb has_runner defs = false.
Proof.
  induction defs as [|jobDef defs IH]; simpl; intros db e db' H;
    [discriminate|].
  unfold has_runner at 1. destruct (job_runner jobDef) as [image|].
  - now apply IH in H.
  - inversion H. now split.
Qed.

Lemma append_inj_l (p a b : string) : (p ++ a)%string = (p ++ b)%string -> a = b.
Proof.
  induction p as [|c p IH]; simpl; intros H; [exact H|].
  inversion H. now apply IH.
Qed.

Lemma job_row_ids_distinct runId defs :
  NoDup (map job_name defs) ->
  NoDup (map jrec_id (map (job_row runId) defs)).
Proof.
  induction defs as [|d defs IH]; simpl; intros ND; [constructor|].
  inversion ND as [|? ? Hnot ND']; subst. constructor; [|now apply IH].
  intros Hin. apply Hnot. rewrite map_map in Hin.
  apply in_map_iff in Hin as (d' & E & Hd'). apply in_map_iff.
  exists d'. split; [|exact Hd']. unfold job_row, job_row_id in E.
  cbn [jrec_id] in E. apply append_inj_l in E.
  now apply (append_inj_l "-") in E.
Qed.

(** C2, as the code has it.  When the config loads and names the
    pipeline, [queuePipelineRun] appends the run's row with status
    [pending] and one [pending] job row per job definition of the
    pipeline, in order, with the id made of the run id and the job name
    (distinct for distinct names), and returns the run id. *)
Theorem queuePipelineRun_persists_definitions :
  forall (fs : FileSystem) (cwd : string) (db : Store)
         (run : QueuedPipelineRun) (config : ZephyrConfig)
         (pipeline : PipelineDefinition),
    loadConfig fs cwd (q_configPath run) = inr config ->
    find (fun p => String.eqb (pl_name p) (q_pipelineName run))
         (resolvePipelines config (q_context run)) = Some pipeline ->
    forallb has_runner (pl_jobs pipeline) = true ->
    queuePipelineRun fs cwd db run
    = (inr (q_id run),
       mkStore (projects db) (runs db ++ [run_row run])
               (jobs db ++ map (job_row (q_id run)) (pl_jobs pipeline)))
    /\ prr_status (run_row run) = RunPending
    /\ (NoDup (map job_name (pl_jobs pipeline)) ->
        NoDup (map jrec_id (map (job_row (q_id run)) (pl_jobs pipeline)))).
Proof.
  intros fs cwd db run config pipeline Hload Hfind Hrun.
  split; [|split; [reflexivity | apply job_row_ids_distinct]].
  unfold queuePipelineRun, createPipelineRun. rewrite Hload, Hfind.
  cbn [prr_id]. rewrite createJobs_ok by exact Hrun. reflexivity.
Qed.

Lemma queuePipelineRun_persists_definitions_witness :
  queuePipelineRun demo_fs "/" demo_db (demo_run "ci")
  = (inr "run1",
     mkStore (projects demo_db) [run_row (demo_run "ci")]
             (map (job_row "run1") [build_job; test_job])).
Proof.
  exact (proj1 (queuePipelineRun_persists_definitions demo_fs "/" demo_db
                  (demo_run "ci") ci_config ci_pipeline
                  eq_refl eq_refl eq_refl)).
Defined.

(** C2 as stated fails on the demo pipeline: its jobs expand to three
    instances ([build] and two of [test]), and two job rows are written,
    one per definition. *)
Lemma queuePipelineRun_rows_not_expanded :
  List.length (expandPipelineJobs (pl_jobs ci_pipeline)) = 3%nat
  /\ map jrec_id
         (jobs (snd (queuePipelineRun demo_fs "/" demo_db (demo_run "ci"))))
     = ["run1-build"; "run1-test"]
  /\ List.length
       (jobs (snd (queuePipelineRun demo_fs "/" demo_db (demo_run "ci"))))
     <> List.length (expandPipelineJobs (pl_jobs ci_pipeline)).
Proof. repeat split; vm_compute; solve [reflexivity | discriminate]. Qed.

(** C8, as the code has it.  When [queuePipelineRun] fails because the
    config does not load or validate, or does not name the pipeline, the
    error goes to the caller, no job row is written, and the run's row,
    written before the config is read, stays in the store. *)
Theorem queuePipelineRun_config_error :
  forall (fs : FileSystem) (cwd : string) (db : Store)
         (run : QueuedPipelineRun) (e : Error),
    fst (queuePipelineRun fs cwd db run) = inl e ->
    e <> TypeError ->
    (loadConfig fs cwd (q_configPath run) = inl e
     \/ e = PipelineNotFound (q_pipelineName run))
    /\ snd (queuePipelineRun fs cwd db run)
       = mkStore (projects db) (runs db ++ [run_row run]) (jobs db).
Proof.
  intros fs cwd db run e. unfold queuePipelineRun, createPipelineRun.
  destruct (loadConfig fs cwd (q_configPath run)) as [e'|config].
  - cbn [fst snd]. intros H _. inversion H. split; [now left | reflexivity].
  - destruct (find _ _) as [pipeline|].
    + destruct (createJobs _ _ _) as [[e'|] db2] eqn:Ec; cbn [fst snd].
      * intros H Hne. inversion H; subst.
        apply createJobs_error in Ec. tauto.
      * discriminate.
    + cbn [fst snd]. intros H _. inversion H. split; [now right | reflexivity].
Qed.

Lemma queuePipelineRun_config_error_witness :
  snd (queuePipelineRun broken_fs "/" demo_db (demo_run "ci"))
  = mkStore (projects demo_db) [run_row (demo_run "ci")] [].
Proof.
  refine (proj2 (queuePipelineRun_config_error broken_fs "/" demo_db
                   (demo_run "ci")
                   (InvalidConfig "pipeline must have at least one trigger")
                   eq_refl _)).
  discriminate.
Defined.

(** C8 as stated fails: after an enqueue that fails because the pipeline
    is not in the config, or because the config is invalid, the store
    holds the run's row. *)
Lemma failed_enqueue_leaves_run_row :
  fst (queuePipelineRun demo_fs "/" demo_db (demo_run "deploy"))
  = inl (PipelineNotFound "deploy")
  /\ getPipelineRun
       (snd (queuePipelineRun demo_fs "/" demo_db (demo_run "deploy"))) "run1"
     = Some (run_row (demo_run "deploy"))
  /\ fst (queuePipelineRun broken_fs "/" demo_db (demo_run "ci"))
     = inl (InvalidConfig "pipeline must have at least one trigger")
  /\ getPipelineRun
       (snd (queuePipelineRun broken_fs "/" demo_db (demo_run "ci"))) "run1"
     = Some (run_row (demo_run "ci"))
  /\ getPipelineRun demo_db "run1" = None.
Proof. repeat split; vm_compute; reflexivity. Qed.

(** C1 fails on the code.  The demo run is queued and the queue is
    processed once with four slots: [test], which depends on [build], is
    set to [running] in the same pass as [build], which is [running] and
    has not succeeded.  With one slot, [test] is dispatched on the pass
    after [build] has ended in [failure]. *)
Theorem processQueue_ignores_dependsOn :
  let db := snd (queuePipelineRun demo_fs "/" demo_db (demo_run "ci")) in
  let after := snd (processQueue (mkSched true 4 []) db) in
  let (s1, db1) := processQueue (mkSched true 1 []) db in
  let (s2, db2) := executeJob_end s1 db1 "run1-build" false in
  let after' := snd (processQueue s2 db2) in
  job_dependsOn test_job = ["build"]
  /\ status_of db "run1-build" = Some Pending
  /\ status_of db "run1-test" = Some Pending
  /\ status_of after "run1-build" = Some Running
  /\ status_of after "run1-test" = Some Running
  /\ status_of after' "run1-build" = Some Failure
  /\ status_of after' "run1-test" = Some Running.
Proof. vm_compute. repeat split; reflexivity. Qed.

(* ================================================================== *)
(** * Further properties *)
(* ================================================================== *)

(** ** Matrix expansion, continued *)

Import MatrixEnv.

Lemma number_from_length cs : forall i,
  List.length (number_from i cs) = List.length cs.
Proof. induction cs as [|c cs IH]; simpl; intros i; [reflexivity | now rewrite IH]. Qed.

Lemma instances_from_length job cs : forall i,
  List.length (instances_from job i cs) = List.length cs.
Proof. induction cs as [|c cs IH]; simpl; intros i; [reflexivity | now rewrite IH]. Qed.

(** X1.  Without exclusions and inclusions a matrix expands to as many
    instances as the product of the sizes of its dimensions. *)
Theorem expandMatrix_count_is_product :
  forall job m,
    job_matrix job = Some m ->
    keys (mx_values m) <> [] ->
    distinct_keys (mx_values m) ->
    mx_exclude m = [] -> mx_include m = [] ->
    List.length (expandMatrix job)
    = fold_right (fun d n => (List.length (snd d) * n)%nat) 1%nat (mx_values m).
Proof.
  intros job m Hm Hne ND Hex Hin. unfold expandMatrix. rewrite Hm.
  rewrite instances_from_length.
  rewrite generateCombinations_spec; try assumption;
    try (rewrite Hex; constructor); try (rewrite Hin; constructor).
  rewrite number_from_length. unfold spec_combinations.
  rewrite Hex, Hin. cbn [spec_include existsb negb].
  rewrite <- spec_product_length. f_equal.
  apply forallb_filter_id. apply forallb_forall. reflexivity.
Qed.

Lemma expandMatrix_count_is_product_witness :
  List.length
    (expandMatrix
       (mkJob "test" (Some "ubuntu-22.04") [] [] []
          (Some (mkMatrix
             [("os", [VStr "ubuntu"; VStr "alpine"; VStr "debian"]);
              ("node", [VNum 18; VNum 20])] [] [] None)))) = 6%nat.
Proof.
  refine (expandMatrix_count_is_product
            (mkJob "test" (Some "ubuntu-22.04") [] [] []
               (Some (mkMatrix
                  [("os", [VStr "ubuntu"; VStr "alpine"; VStr "debian"]);
                   ("node", [VNum 18; VNum 20])] [] [] None)))
            (mkMatrix
               [("os", [VStr "ubuntu"; VStr "alpine"; VStr "debian"]);
                ("node", [VNum 18; VNum 20])] [] [] None)
            eq_refl _ _ eq_refl eq_refl).
  - discriminate.
  - repeat constructor; simpl; intuition discriminate.
Defined.

Lemma instances_from_index job cs : forall i,
  map (fun e => option_map mc_index (ej_matrix e)) (instances_from job i cs)
  = map Some (seq i (List.length cs)).
Proof.
  induction cs as [|c cs IH]; simpl; intros i; [reflexivity | now rewrite IH].
Qed.

Lemma instances_from_job job cs : forall i,
  Forall (fun e => ej_job e = job) (instances_from job i cs).
Proof.
  induction cs as [|c cs IH]; simpl; intros i; constructor; auto.
Qed.

(** X2.  The instances of a job with a matrix are numbered from 0 in the
    order they are produced, and each carries the job it came from. *)
Theorem expandMatrix_numbers_instances :
  forall job m,
    job_matrix job = Some m ->
    map (fun e => option_map mc_index (ej_matrix e)) (expandMatrix job)
    = map Some (seq 0 (List.length (expandMatrix job)))
    /\ Forall (fun e => ej_job e = job) (expandMatrix job).
Proof.
  intros job m Hm. unfold expandMatrix. rewrite Hm.
  rewrite instances_from_index, instances_from_length.
  split; [reflexivity | apply instances_from_job].
Qed.

Lemma expandMatrix_numbers_instances_witness :
  map (fun e => option_map mc_index (ej_matrix e)) (expandMatrix scenario3_job)
  = map Some (seq 0 (List.length (expandMatrix scenario3_job))).
Proof.
  exact (proj1 (expandMatrix_numbers_instances scenario3_job
                  (mkMatrix
                     [("os", [VStr "ubuntu"; VStr "alpine"]);
                      ("node", [VNum 18; VNum 20])]
                     [[("os", VStr "alpine"); ("node", VNum 18)]] [] None)
                  eq_refl)).
Defined.

Lemma instances_from_values job cs : forall i,
  map instance_values (instances_from job i cs) = map mc_values cs.
Proof.
  induction cs as [|c cs IH]; simpl; intros i; [reflexivity | now rewrite IH].
Qed.

Lemma number_from_values cs : forall i, map mc_values (number_from i cs) = cs.
Proof.
  induction cs as [|c cs IH]; simpl; intros i; [reflexivity | now rewrite IH].
Qed.

(** The combinations behind the instances of a matrix with a dimension. *)
Lemma expandMatrix_values job m :
  job_matrix job = Some m -> keys (mx_values m) <> [] ->
  map instance_values (expandMatrix job)
  = fold_left (apply_inclusion (mx_values m)) (mx_include m)
      (filter (fun combo => negb (shouldExclude combo (mx_exclude m)))
              (cartesianProduct (mx_values m))).
Proof.
  intros Hm Hne. unfold expandMatrix, generateCombinations. rewrite Hm.
  destruct (keys (mx_values m)); [congruence|].
  now rewrite instances_from_values, number_from_values.
Qed.

(** X3.  Without inclusions no instance agrees with an exclusion on all
    of the exclusion's keys; an exclusion with no key removes every
    combination. *)
Theorem expandMatrix_respects_exclusions :
  forall job m,
    job_matrix job = Some m ->
    mx_include m = [] ->
    Forall (fun e => shouldExclude (instance_values e) (mx_exclude m) = false)
           (expandMatrix job)
    /\ (In [] (mx_exclude m) -> expandMatrix job = []).
Proof.
  intros job m Hm Hin.
  assert (Hall : Forall (fun e => shouldExclude (instance_values e)
                                    (mx_exclude m) = false)
                        (expandMatrix job)).
  { destruct (keys (mx_values m)) eqn:Ek.
    - unfold expandMatrix, generateCombinations. rewrite Hm, Ek. constructor.
    - assert (Hv := expandMatrix_values job m Hm).
      rewrite Ek, Hin in Hv. specialize (Hv ltac:(discriminate)).
      cbn [fold_left] in Hv.
      apply Forall_forall. intros e He.
      assert (Hc : In (instance_values e)
                      (filter (fun combo =>
                                 negb (shouldExclude combo (mx_exclude m)))
                              (cartesianProduct (mx_values m)))).
      { rewrite <- Hv. now apply in_map. }
      apply filter_In in Hc as [_ Hc]. now apply negb_true_iff. }
  split; [exact Hall|].
  intros Hempty. destruct (expandMatrix job) as [|e rest]; [reflexivity|].
  inversion Hall as [|? ? He _]; subst. unfold shouldExclude in He.
  assert (Ht : existsb (fun exclusion => matches_all (instance_values e) exclusion)
                       (mx_exclude m) = true).
  { apply existsb_exists. exists []. split; [exact Hempty | reflexivity]. }
  congruence.
Qed.

Lemma expandMatrix_respects_exclusions_witness :
  Forall (fun e => shouldExclude (instance_values e)
                     [[("os", VStr "alpine"); ("node", VNum 18)]] = false)
         (expandMatrix scenario3_job).
Proof.
  exact (proj1 (expandMatrix_respects_exclusions scenario3_job
                  (mkMatrix
                     [("os", [VStr "ubuntu"; VStr "alpine"]);
                      ("node", [VNum 18; VNum 20])]
                     [[("os", VStr "alpine"); ("node", VNum 18)]] [] None)
                  eq_refl eq_refl)).
Defined.

Lemma strict_eq_refl v : strict_eq v v = true.
Proof.
  destruct v as [s|n|b|]; simpl;
    [apply String.eqb_refl | apply Z.eqb_refl | now destruct b | reflexivity].
Qed.

Lemma matches_all_assigned acc inclusion :
  distinct_keys inclusion -> matches_all (assign acc inclusion) inclusion = true.
Proof.
  intros ND. unfold matches_all. apply forallb_forall. intros k Hk.
  apply in_map_iff in Hk as ([k' v] & E & Hin). simpl in E. subst k'.
  unfold get. rewrite (lookup_assign_in inclusion acc k v ND Hin).
  rewrite (lookup_in inclusion k v ND Hin). apply strict_eq_refl.
Qed.

Lemma apply_inclusion_grows values combos inclusion :
  exists added, apply_inclusion values combos inclusion = combos ++ added.
Proof.
  unfold apply_inclusion. destruct (existsb _ combos).
  - exists []. now rewrite app_nil_r.
  - eexists. reflexivity.
Qed.

Lemma fold_inclusion_grows values inclusions : forall combos,
  exists added,
    fold_left (apply_inclusion values) inclusions combos = combos ++ added.
Proof.
  induction inclusions as [|inc rest IH]; simpl; intros combos.
  - exists []. now rewrite app_nil_r.
  - destruct (apply_inclusion_grows values combos inc) as (a1 & ->).
    destruct (IH (combos ++ a1)) as (a2 & ->).
    exists (a1 ++ a2). now rewrite app_assoc.
Qed.

Lemma apply_inclusion_covers values combos inclusion :
  distinct_keys inclusion ->
  existsb (fun c => matches_all c inclusion)
          (apply_inclusion values combos inclusion) = true.
Proof.
  intros ND. unfold apply_inclusion.
  destruct (existsb _ combos) eqn:E; [exact E|].
  rewrite existsb_app. apply orb_true_iff. right. cbn [existsb].
  now rewrite matches_all_assigned.
Qed.

(** X4.  In a matrix with a dimension every inclusion is honoured: some
    instance agrees with it on all of its keys, also when an exclusion
    names the same combination. *)
Theorem expandMatrix_honours_inclusions :
  forall job m inclusion,
    job_matrix job = Some m ->
    keys (mx_values m) <> [] ->
    In inclusion (mx_include m) ->
    distinct_keys inclusion ->
    exists e, In e (expandMatrix job)
              /\ matches_all (instance_values e) inclusion = true.
Proof.
  intros job m inclusion Hm Hne Hin ND.
  assert (Hv := expandMatrix_values job m Hm Hne).
  assert (G : forall incs combos,
             In inclusion incs ->
             existsb (fun c => matches_all c inclusion)
                     (fold_left (apply_inclusion (mx_values m)) incs combos)
             = true).
  { induction incs as [|inc rest IH]; simpl; intros combos Hi; [tauto|].
    destruct Hi as [->|Hi]; [|now apply IH].
    destruct (fold_inclusion_grows (mx_values m) rest
                (apply_inclusion (mx_values m) combos inclusion)) as (a & ->).
    rewrite existsb_app, apply_inclusion_covers by exact ND. reflexivity. }
  specialize (G (mx_include m)
                (filter (fun combo => negb (shouldExclude combo (mx_exclude m)))
                        (cartesianProduct (mx_values m))) Hin).
  rewrite <- Hv in G.
  apply existsb_exists in G as (c & Hc & Hmatch).
  apply in_map_iff in Hc as (e & <- & He). now exists e.
Qed.

Lemma expandMatrix_honours_inclusions_witness :
  exists e,
    In e (expandMatrix
            (mkJob "test" (Some "ubuntu-22.04") [] [] []
               (Some (mkMatrix [("os", [VStr "ubuntu"; VStr "alpine"])]
                               [[("os", VStr "alpine")]]
                               [[("os", VStr "alpine")]] None))))
    /\ matches_all (instance_values e) [("os", VStr "alpine")] = true.
Proof.
  refine (expandMatrix_honours_inclusions
            (mkJob "test" (Some "ubuntu-22.04") [] [] []
               (Some (mkMatrix [("os", [VStr "ubuntu"; VStr "alpine"])]
                               [[("os", VStr "alpine")]]
                               [[("os", VStr "alpine")]] None)))
            (mkMatrix [("os", [VStr "ubuntu"; VStr "alpine"])]
                      [[("os", VStr "alpine")]]
                      [[("os", VStr "alpine")]] None)
            [("os", VStr "alpine")] eq_refl _ _ _).
  - discriminate.
  - now left.
  - constructor; [intros [] | constructor].
Defined.

(** ** Interpolation, continued *)

Lemma match_placeholder_shorter text key rest :
  match_placeholder text = Some (key, rest) ->
  (String.length rest < String.length text)%nat.
Proof.
  unfold match_placeholder.
  destruct (strip_prefix "${{" text) as [t1|] eqn:E1; [|discriminate].
  destruct (span is_space t1) as [sp1 t1'] eqn:E2. cbn [snd].
  destruct (strip_prefix "matrix." t1') as [t2|] eqn:E3; [|discriminate].
  destruct (span is_word t2) as [k t3] eqn:E4.
  destruct (is_empty k); [discriminate|].
  destruct (span is_space t3) as [sp2 t3'] eqn:E5. cbn [snd].
  destruct (strip_prefix "}}" t3') as [r|] eqn:E6; [|discriminate].
  intros H. inversion H; subst.
  apply strip_prefix_length in E1, E3, E6.
  apply span_length in E2, E4, E5. simpl in E1, E3, E6. lia.
Qed.

Lemma replace_fuel_enough m n : forall n' text,
  (String.length text < n)%nat -> (String.length text < n')%nat ->
  replace_fuel n text m = replace_fuel n' text m.
Proof.
  induction n as [|n IH]; intros n' text Hn Hn'; [lia|].
  destruct n' as [|n']; [lia|]. cbn [replace_fuel].
  destruct (match_placeholder text) as [[key rest]|] eqn:E.
  - apply match_placeholder_shorter in E. f_equal. apply IH; lia.
  - destruct text as [|c text]; [reflexivity|]. simpl in Hn, Hn'.
    f_equal. apply IH; lia.
Qed.

Lemma match_placeholder_other c text :
  not_dollar c = true -> match_placeholder (String c text) = None.
Proof.
  unfold not_dollar, match_placeholder. intros H.
  apply negb_true_iff in H. rewrite strip_prefix_cons.
  destruct (Ascii.eqb_spec "$"%char c) as [<-|Hne]; [discriminate | reflexivity].
Qed.

Lemma replace_fuel_plain m pre : forall rest n,
  all_chars not_dollar pre = true ->
  (String.length (pre ++ rest) < n)%nat ->
  replace_fuel n (pre ++ rest) m = (pre ++ replace_fuel n rest m)%string.
Proof.
  induction pre as [|c pre IH]; intros rest n Hp Hn; [reflexivity|].
  destruct n as [|n]; [lia|].
  change ((String c pre ++ rest)%string) with (String c (pre ++ rest)) in *.
  cbn [all_chars] in Hp. apply andb_true_iff in Hp as [Hc Hp].
  remember (replace_fuel (S n) rest m) as tail. cbn [replace_fuel].
  rewrite (match_placeholder_other c _ Hc). simpl in Hn.
  rewrite IH by (auto; lia). subst tail.
  rewrite length_append in Hn.
  rewrite (replace_fuel_enough m n (S n) rest) by lia. reflexivity.
Qed.

(** X5.  Text without a dollar sign comes back from [interpolateMatrix]
    unchanged, whatever the matrix. *)
Theorem interpolateMatrix_plain_text :
  forall text m,
    all_chars not_dollar text = true -> interpolateMatrix text m = text.
Proof.
  intros text m H. unfold interpolateMatrix.
  rewrite <- (append_empty_r text) at 2.
  rewrite replace_fuel_plain; [|exact H | rewrite append_empty_r; lia].
  rewrite replace_fuel_empty. apply append_empty_r.
Qed.

Lemma interpolateMatrix_plain_text_witness :
  interpolateMatrix "bun test --coverage" [("node", VNum 20)]
  = "bun test --coverage".
Proof.
  exact (interpolateMatrix_plain_text "bun test --coverage"
           [("node", VNum 20)] eq_refl).
Defined.




(** ** The environment of a matrix instance *)




(** ** Step executor, continued *)

Import RunnerLog.

Lemma split_on_nonempty sep s : split_on sep s <> [].
Proof.
  destruct s as [|c s]; simpl; [discriminate|].
  destruct (Ascii.eqb c sep); [discriminate|].
  destruct (split_on sep s); discriminate.
Qed.

Lemma cons_head_split c l :
  l <> [] ->
  removelast (cons_head c l) = match l with
                               | [_] => []
                               | _ => cons_head c (removelast l)
                               end
  /\ last (cons_head c l) "" = match l with
                               | [h] => String c h
                               | _ => last l ""
                               end.
Proof.
  destruct l as [|h [|h' t]]; [congruence | |]; intros _; split; reflexivity.
Qed.








Lemma expiry_or_not events :
  In TimerExpired events \/ ~ In TimerExpired events.
Proof.
  induction events as [|e events IH]; [right; intros []|].
  destruct e; [| |left; now left];
    (destruct IH as [H|H]; [left; now right |
     right; intros [E|E]; [discriminate | tauto]]).
Qed.

(** X9.  [runCommand] kills the process at most once.  When it has not
    killed it, and always when the step has no timeout or a timeout of
    zero, the exit code is the process's own and the output is the text
    read from the two pipes; when it has, the exit code is 124. *)
Theorem runCommand_kills_at_most_once :
  forall timeout run,
    let r := runCommand_on timeout run in
    (cr_kills r <= 1)%nat
    /\ (cr_kills r = 0%nat ->
        cr_exitCode r = pr_exited run
        /\ cr_output r = text_of (pr_events run))
    /\ (cr_kills r = 1%nat -> cr_exitCode r = 124%Z)
    /\ (truthy_timeout timeout = false -> cr_kills r = 0%nat).
Proof.
  intros timeout [events exited] r. subst r. unfold runCommand_on.
  cbn [pr_events pr_exited].
  destruct (truthy_timeout timeout) eqn:Et.
  - destruct (expiry_or_not events) as [Hin|Hno].
    + destruct (first_expiry events Hin) as (b & a & -> & Hb).
      rewrite fold_left_app, (fold_on_event_quiet b) by exact Hb.
      cbn [fold_left on_event cs_timer cs_output cs_killed cs_kills].
      rewrite fold_on_event_disarmed by reflexivity.
      cbn [cs_killed cs_kills cs_output cr_kills cr_exitCode cr_output].
      repeat split; try discriminate; auto.
    + rewrite fold_on_event_quiet by exact Hno.
      cbn [cs_killed cs_kills cs_output cr_kills cr_exitCode cr_output].
      repeat split; try discriminate; auto.
  - rewrite fold_on_event_disarmed by reflexivity.
    cbn [cs_killed cs_kills cs_output cr_kills cr_exitCode cr_output].
    repeat split; try discriminate; auto.
Qed.

Lemma runCommand_kills_at_most_once_witness :
  cr_kills (runCommand_on None (mkProcRun [Stdout "ok"; TimerExpired] 3%Z))
  = 0%nat
  /\ cr_exitCode (runCommand_on None (mkProcRun [Stdout "ok"; TimerExpired] 3%Z))
     = 3%Z.
Proof.
  destruct (runCommand_kills_at_most_once None
              (mkProcRun [Stdout "ok"; TimerExpired] 3%Z))
    as (_ & Hquiet & _ & Hoff).
  split; [exact (Hoff eq_refl) | exact (proj1 (Hquiet (Hoff eq_refl)))].
Defined.

Lemma match_set_output_needs_colons text :
  no_colon_pair text = true -> match_set_output text = None.
Proof.
  intros H. unfold match_set_output.
  destruct text as [|c [|d text]]; [reflexivity | |].
  - rewrite strip_prefix_cons. now destruct (Ascii.eqb ":" c).
  - rewrite strip_prefix_cons.
    destruct (Ascii.eqb_spec ":"%char c) as [<-|Hc]; [|reflexivity].
    rewrite strip_prefix_cons.
    destruct (Ascii.eqb_spec ":"%char d) as [<-|Hd]; [|reflexivity].
    cbn in H. discriminate H.
Qed.

Lemma set_output_matches_none n : forall text,
  no_colon_pair text = true -> set_output_matches n text = [].
Proof.
  induction n as [|n IH]; intros text H; [reflexivity|].
  cbn [set_output_matches].
  rewrite (match_set_output_needs_colons text H).
  destruct text as [|c text]; [reflexivity|].
  apply IH. cbn [no_colon_pair] in H.
  now apply andb_true_iff in H as [_ H].
Qed.

(** X10.  A command whose output holds no two colons in a row sets no
    output. *)
Theorem parse_outputs_without_marker :
  forall output, no_colon_pair output = true -> parse_outputs output = [].
Proof.
  intros output H. unfold parse_outputs.
  now rewrite set_output_matches_none.
Qed.

Lemma parse_outputs_without_marker_witness :
  parse_outputs "Password: added 12 packages in 3s: done:" = [].
Proof.
  exact (parse_outputs_without_marker
           "Password: added 12 packages in 3s: done:" eq_refl).
Defined.

Lemma lookup_assign {A} (src acc : Obj A) k :
  distinct_keys src ->
  lookup (assign acc src) k
  = match lookup src k with Some v => Some v | None => lookup acc k end.
Proof.
  intros ND. destruct (lookup src k) as [v|] eqn:E.
  - apply lookup_some_in in E. now apply lookup_assign_in.
  - apply lookup_none_iff in E. now apply lookup_assign_absent.
Qed.

(** The environment of the process of a run step of a job. *)
Lemma spawn_env_chain bun_env job options results step run shell k :
  distinct_keys (rjo_env options) -> distinct_keys (job_env job) ->
  distinct_keys (step_env step) ->
  lookup (sp_env (spawn_args bun_env
                    (mkRunStepOptions (rjo_cwd options)
                                      (job_env_of job options) results)
                    step run shell)) k
  = env_chain bun_env (rjo_env options) (job_env job) (step_env step) k.
Proof.
  intros Ho Hj Hs. unfold spawn_args, merged_env, job_env_of, env_chain.
  cbn [sp_env rso_env].
  assert (H1 : distinct_keys (assign (rjo_env options) (job_env job)))
    by now apply assign_distinct.
  assert (H2 : distinct_keys
                 (assign (assign (rjo_env options) (job_env job))
                         [("CI", "true"); ("ZEPHYR", "true")]))
    by now apply assign_distinct.
  rewrite lookup_assign by now apply assign_distinct.
  rewrite (lookup_assign (step_env step)) by exact Hs.
  destruct (lookup (step_env step) k) as [v|]; [reflexivity|].
  rewrite (lookup_assign [("CI", "true"); ("ZEPHYR", "true")]).
  2:{ constructor; [simpl; intuition discriminate|].
      constructor; [intros [] | constructor]. }
  destruct (lookup [("CI", "true"); ("ZEPHYR", "true")] k) as [v|];
    [reflexivity|].
  rewrite (lookup_assign (job_env job)) by exact Hj.
  destruct (lookup (job_env job) k) as [v|]; [reflexivity|].
  now destruct (lookup (rjo_env options) k).
Qed.

Section JobLoopMore.
Variable World : Type.
Variable spawn : World -> SpawnArgs -> option Z -> ProcRun * World.
Variable bun_env : Obj string.
Variables (cwd : string) (env : Obj string).

Let body := loop_body World spawn bun_env cwd env.

(** Once the job has failed, a step without [continueOnError] is logged
    as skipped. *)
Lemma loop_body_gate st step r :
  ls_log (body st step) = ls_log st ++ [(step, r)] ->
  ls_jobFailed st = true -> step_continueOnError step = false ->
  r = skipped_result.
Proof.
  unfold body, loop_body. intros Hlog Hf Hc. rewrite Hf, Hc in Hlog.
  cbn [andb negb] in Hlog.
  destruct (skipped_by_condition step (ls_stepResults st));
    cbn [ls_log] in Hlog; apply app_inv_head in Hlog; now inversion Hlog.
Qed.

Lemma loop_gate steps : forall st added,
  ls_log (fold_left body steps st) = ls_log st ++ added ->
  (ls_jobFailed st = true -> Forall gated added)
  /\ (forall before entry after,
         added = before ++ entry :: after -> fails_job entry ->
         Forall gated after).
Proof.
  induction steps as [|step steps IH]; cbn [fold_left]; intros st added Hlog.
  - rewrite <- (app_nil_r (ls_log st)) in Hlog at 1.
    apply app_inv_head in Hlog. subst added. split; [constructor|].
    intros [|? ?] ? ? E; discriminate.
  - destruct (loop_body_entry World spawn bun_env cwd env st step)
      as (r & Hr & Hfail). fold body in Hr, Hfail.
    destruct (loop_log World spawn bun_env cwd env steps (body st step))
      as (added' & Hlog' & _ & _). fold body in Hlog'.
    assert (Ea : added = (step, r) :: added').
    { rewrite Hlog', Hr, <- app_assoc in Hlog.
      apply app_inv_head in Hlog. now symmetry. }
    destruct (IH (body st step) added' Hlog') as [IH1 IH2].
    split.
    + intros Hf. rewrite Ea. constructor.
      * unfold gated. cbn [fst snd]. intros Hc.
        now apply (loop_body_gate st step r Hr Hf).
      * apply IH1. apply Hfail. now left.
    + intros before entry after E Hentry. rewrite Ea in E.
      destruct before as [|b before]; cbn [app] in E; inversion E; subst.
      * apply IH1. apply Hfail. now right.
      * now apply (IH2 before entry after).
Qed.

(** A step without an [if] always gets a timing. *)
Lemma loop_timings steps : forall st,
  Forall (fun s => step_if s = None) steps ->
  map tm_name (ls_stepTimings (fold_left body steps st))
  = map tm_name (ls_stepTimings st) ++ map step_name steps.
Proof.
  induction steps as [|step steps IH]; cbn [fold_left map]; intros st Hall.
  - now rewrite app_nil_r.
  - inversion Hall as [|? ? Hif Hrest]; subst. rewrite IH by exact Hrest.
    assert (E : map tm_name (ls_stepTimings (body st step))
                = map tm_name (ls_stepTimings st) ++ [step_name step]).
    { unfold body, loop_body, skipped_by_condition. rewrite Hif.
      destruct (ls_jobFailed st && negb (step_continueOnError step)).
      - cbn [ls_stepTimings]. now rewrite map_app.
      - destruct (runStep World spawn bun_env (ls_world st) step _)
          as [[result spawned] w']. cbn [ls_stepTimings].
        now rewrite map_app. }
    rewrite E, <- app_assoc. reflexivity.
Qed.

Lemma loop_timings_bound steps : forall st,
  (List.length (ls_stepTimings (fold_left body steps st))
   <= List.length (ls_stepTimings st) + List.length steps)%nat.
Proof.
  induction steps as [|step steps IH]; cbn [fold_left]; intros st;
    [simpl; lia|].
  specialize (IH (body st step)).
  assert (E : (List.length (ls_stepTimings (body st step))
               <= S (List.length (ls_stepTimings st)))%nat).
  { unfold body, loop_body.
    destruct (skipped_by_condition step (ls_stepResults st));
      [cbn [ls_stepTimings]; lia|].
    destruct (ls_jobFailed st && negb (step_continueOnError step)).
    - cbn [ls_stepTimings]. rewrite length_app. simpl. lia.
    - destruct (runStep World spawn bun_env (ls_world st) step _)
        as [[result spawned] w']. cbn [ls_stepTimings].
      rewrite length_app. simpl. lia. }
  simpl. lia.
Qed.

(** Every process the loop starts is the one of a run step of the job,
    started with the job's environment. *)
Lemma loop_spawned steps : forall st a,
  In a (ls_spawned (fold_left body steps st)) ->
  In a (ls_spawned st)
  \/ exists step results run shell,
       In step steps /\ step_kind step = RunStep run shell
       /\ a = spawn_args bun_env (mkRunStepOptions cwd env results)
                         step run shell.
Proof.
  induction steps as [|step steps IH]; cbn [fold_left]; intros st a Hin;
    [now left|].
  destruct (IH _ _ Hin) as [H|(s & rs & run & sh & Hs & Hk & ->)].
  - unfold body, loop_body in H.
    destruct (skipped_by_condition step (ls_stepResults st));
      [now left|].
    destruct (ls_jobFailed st && negb (step_continueOnError step));
      [now left|].
    unfold runStep in H.
    destruct (step_kind step) as [run shell|rt ver] eqn:Ek.
    + destruct (runCommand World spawn bun_env (ls_world st) _ step run shell)
        as [cr w']. cbn [ls_spawned] in H.
      apply in_app_or in H as [H|[<-|[]]]; [now left|].
      right. exists step, (ls_stepResults st), run, shell.
      split; [now left | now split].
    + cbn [ls_spawned] in H. rewrite app_nil_r in H. now left.
  - right. exists s, rs, run, sh. split; [now right | now split].
Qed.

End JobLoopMore.

(** X11.  After a step has failed its job, every later step without
    [continueOnError] is skipped. *)
Theorem runJob_skips_after_failure :
  forall (World : Type)
         (spawn : World -> SpawnArgs -> option Z -> ProcRun * World)
         (bun_env : Obj string) (w : World)
         (job : JobDefinition) (options : RunJobOptions)
         before entry after,
    jr_log (fst (runJob World spawn bun_env w job options))
    = before ++ entry :: after ->
    fails_job entry ->
    Forall gated after.
Proof.
  intros World spawn bun_env w job options before entry after Hlog Hfail.
  unfold runJob in Hlog. cbn [fst jr_log] in Hlog.
  destruct (loop_gate World spawn bun_env (rjo_cwd options)
              (job_env_of job options) (job_steps job)
              (mkLoopState World [] [] false w [] [])
              (before ++ entry :: after)) as [_ H].
  - cbn [ls_log app]. exact Hlog.
  - exact (H before entry after eq_refl Hfail).
Qed.

Lemma runJob_skips_after_failure_witness :
  Forall gated
    [(plain_step None "Test" "bun test" [], skipped_result);
     (mkStep (RunStep "cleanup" None) None "Cleanup" None [] None true None,
      mkStepResult StSuccess StFailure [])].
Proof.
  refine (runJob_skips_after_failure unit failing_machine [] tt failing_job
            (mkRunJobOptions "/repo" []) []
            (plain_step None "Build" "bun run build" [],
             mkStepResult StFailure StFailure [])
            _ eq_refl _).
  split; reflexivity.
Defined.

(** X12.  Every process a job starts belongs to one of its run steps, and
    finds for each variable the step's own value, else the fixed [CI] and
    [ZEPHYR], else the job's value, else the value passed to [runJob],
    else the server's: only a step can override [CI] and [ZEPHYR]. *)
Theorem runJob_environment_precedence :
  forall (World : Type)
         (spawn : World -> SpawnArgs -> option Z -> ProcRun * World)
         (bun_env : Obj string) (w : World)
         (job : JobDefinition) (options : RunJobOptions) (a : SpawnArgs),
    distinct_keys (rjo_env options) ->
    distinct_keys (job_env job) ->
    Forall (fun s => distinct_keys (step_env s)) (job_steps job) ->
    In a (jr_spawned (fst (runJob World spawn bun_env w job options))) ->
    exists step,
      In step (job_steps job)
      /\ forall k,
           lookup (sp_env a) k
           = env_chain bun_env (rjo_env options) (job_env job)
                       (step_env step) k.
Proof.
  intros World spawn bun_env w job options a Ho Hj Hs Hin.
  unfold runJob in Hin. cbn [fst jr_spawned] in Hin.
  apply loop_spawned in Hin as [[]|(step & rs & run & sh & Hstep & Hk & ->)].
  exists step. split; [exact Hstep|]. intros k.
  apply spawn_env_chain; try assumption.
  rewrite Forall_forall in Hs. now apply Hs.
Qed.

Lemma runJob_environment_precedence_witness :
  exists step,
    In step (job_steps scenario4_job)
    /\ forall k,
         lookup (sp_env (nth 1 (jr_spawned scenario4_run)
                             (mkSpawn [] "" []))) k
         = env_chain [] [] (job_env scenario4_job) (step_env step) k.
Proof.
  refine (runJob_environment_precedence unit echo_machine [] tt scenario4_job
            (mkRunJobOptions "/repo" []) _ _ _ _ _).
  - constructor.
  - constructor.
  - repeat constructor; intros [].
  - right. now left.
Defined.

(** X13.  A job that returns a result, every process it asked for having
    started, has recorded at most one timing per step, and exactly one
    per step, in order and under the step's name, when no step has a
    condition. *)
Theorem runJob_step_timings :
  forall (World : Type)
         (spawn : World -> SpawnArgs -> option Z -> ProcRun * World)
         (bun_env : Obj string) (starts : World -> SpawnArgs -> bool)
         (w w' : World) (job : JobDefinition) (options : RunJobOptions)
         (jr : JobRunResult),
    runJob_result World spawn bun_env starts w job options = Some (jr, w') ->
    (List.length (jr_stepTimings jr) <= List.length (job_steps job))%nat
    /\ (Forall (fun s => step_if s = None) (job_steps job) ->
        map tm_name (jr_stepTimings jr) = map step_name (job_steps job)).
Proof.
  intros World spawn bun_env starts w w' job options jr Hjr.
  unfold runJob_result in Hjr.
  destruct (runJob_returns World spawn bun_env starts w job options);
    [|discriminate].
  inversion Hjr as [[Ejr Ew]]. cbn [jr_stepTimings]. split.
  - apply (loop_timings_bound World spawn bun_env (rjo_cwd options)
             (job_env_of job options) (job_steps job)
             (mkLoopState World [] [] false w [] [])).
  - intros Hall.
    apply (loop_timings World spawn bun_env (rjo_cwd options)
             (job_env_of job options) (job_steps job)
             (mkLoopState World [] [] false w [] []) Hall).
Qed.

Lemma runJob_step_timings_witness :
  map tm_name
      (jr_stepTimings
         (fst (runJob unit failing_machine [] tt failing_job
                 (mkRunJobOptions "/repo" []))))
  = ["Build"; "Test"; "Cleanup"].
Proof.
  apply (proj2 (runJob_step_timings unit failing_machine [] (fun _ _ => true)
                  tt tt failing_job (mkRunJobOptions "/repo" [])
                  (fst (runJob unit failing_machine [] tt failing_job
                          (mkRunJobOptions "/repo" [])))
                  eq_refl)).
  repeat constructor.
Defined.

(** X14.  The working directory of a step's process is absolute whenever
    the job's working directory is. *)
Theorem resolve_workdir_absolute :
  forall options step,
    strip_prefix "/" (rso_cwd options) <> None ->
    strip_prefix "/" (resolve_workdir options step) <> None.
Proof.
  intros options step Hcwd. unfold resolve_workdir.
  destruct (step_workdir step) as [wd|]; [|exact Hcwd].
  destruct (is_empty wd); [exact Hcwd|].
  destruct (strip_prefix "/" wd) eqn:E; [congruence|].
  destruct (rso_cwd options) as [|c rest]; [now elim Hcwd|].
  change ((String c rest ++ "/" ++ wd)%string)
    with (String c (rest ++ "/" ++ wd)).
  rewrite strip_prefix_cons in *.
  destruct (Ascii.eqb "/" c); [discriminate | exact Hcwd].
Qed.

Lemma resolve_workdir_absolute_witness :
  strip_prefix "/"
    (resolve_workdir (mkRunStepOptions "/repo" [] [])
       (mkStep (RunStep "ls" None) None "List" None [] (Some "packages/core")
               false None)) <> None.
Proof.
  refine (resolve_workdir_absolute (mkRunStepOptions "/repo" [] []) _ _).
  discriminate.
Defined.

(** ** Warm pool, continued *)

Import WarmPoolOps.

Lemma set_length {A} (o : Obj A) k v :
  (List.length (set o k v) <= S (List.length o))%nat.
Proof.
  induction o as [|[k' v'] o IH]; simpl; [lia|].
  destruct (String.eqb k' k); simpl; lia.
Qed.

Lemma remove_length {A} (o : Obj A) k :
  (List.length (remove o k) <= List.length o)%nat.
Proof.
  induction o as [|[k' v'] o IH]; simpl; [lia|].
  destruct (String.eqb k' k); simpl; lia.
Qed.

Lemma remove_length_found {A} (o : Obj A) k v :
  lookup o k = Some v -> S (List.length (remove o k)) = List.length o.
Proof.
  induction o as [|[k' v'] o IH]; simpl; [discriminate|].
  destruct (String.eqb k' k); simpl; [reflexivity|].
  intros H. now rewrite IH.
Qed.

(** X15.  [release] keeps the idle VMs within [maxIdle] and never makes
    the pool larger. *)
Theorem release_keeps_pool_bounds :
  forall (opts : Options) (p : Pool) (now : Z) (vmId : string)
         (destroy : bool),
    ((size (idleVms p) <= maxIdle opts)%Z ->
     (size (idleVms (release opts p vmId destroy now)) <= maxIdle opts)%Z)
    /\ (totalCount (release opts p vmId destroy now) <= totalCount p)%Z.
Proof.
  intros opts p now vmId destroy. split.
  - intros Hle. unfold release.
    destruct (lookup (inUseVms p) vmId) as [vm|]; [|exact Hle].
    cbn [with_inUse idleVms].
    destruct (destroy || (size (idleVms p) >=? maxIdle opts)%Z)%bool eqn:Ed.
    + cbn [destroyVm_inUse idleVms]. exact Hle.
    + apply orb_false_iff in Ed as [_ Ed].
      destruct (Z.geb_spec (size (idleVms p)) (maxIdle opts)); [discriminate|].
      cbn [with_idle idleVms]. unfold size in *.
      pose proof (set_length (idleVms p) vmId (touched vm now)). lia.
  - unfold release.
    destruct (lookup (inUseVms p) vmId) as [vm|] eqn:El; [|lia].
    pose proof (remove_length_found _ _ _ El) as Hrem.
    cbv zeta. unfold with_inUse, with_idle, destroyVm_inUse, totalCount, size.
    cbn [idleVms inUseVms].
    pose proof (remove_length (remove (inUseVms p) vmId) vmId).
    pose proof (set_length (idleVms p) vmId (touched vm now)).
    destruct (destroy || _)%bool; cbn [idleVms inUseVms]; lia.
Qed.

Lemma release_keeps_pool_bounds_witness :
  (size
     (idleVms
        (release scenario6_opts
           (mkPool [] [("warm-0", mkVm "warm-0" 0 0 0 1)] WarmPool.Running 1
                   false [] [])
           "warm-0" false 9)) <= 3)%Z.
Proof.
  refine (proj1 (release_keeps_pool_bounds scenario6_opts
                   (mkPool [] [("warm-0", mkVm "warm-0" 0 0 0 1)]
                           WarmPool.Running 1 false [] [])
                   9 "warm-0" false) _).
  vm_compute. discriminate.
Defined.

(** X31.  What one call does before it is first suspended.  On a running
    pool [acquire] hands out the first idle VM, with its use counted,
    when there is one, and fails with [PoolExhausted], changing nothing,
    when none is idle and the pool holds [maxTotal] VMs; [release] takes
    the VM out of the in-use map and either hands it to [destroy] (on
    request, or with [maxIdle] VMs idle) or puts it last among the idle
    ones with [lastUsedAt] renewed. *)
Theorem acquire_release_single_call :
  forall (opts : Options) (fresh_id : nat -> string) (boots : string -> bool)
         (p : Pool) (now : Z) (vmId : string) (destroy : bool)
         (pooledVm : PooledVm),
    state p = WarmPool.Running ->
    distinct_keys (inUseVms p) ->
    let a := acquire opts fresh_id boots p now in
    let q := release opts p vmId destroy now in
    (forall id vm rest,
        idleVms p = (id, vm) :: rest ->
        fst a = inr (used vm now)
        /\ idleVms (snd a) = remove (idleVms p) id
        /\ inUseVms (snd a) = set (inUseVms p) id (used vm now))
    /\ (idleVms p = [] -> (totalCount p >= maxTotal opts)%Z ->
        a = (inl PoolExhausted, p))
    /\ (lookup (inUseVms p) vmId = Some pooledVm ->
        inUseVms q = remove (inUseVms p) vmId
        /\ (destroy = true \/ (size (idleVms p) >= maxIdle opts)%Z ->
            idleVms q = idleVms p /\ destroyed q = destroyed p ++ [vmId])
        /\ (destroy = false -> (size (idleVms p) < maxIdle opts)%Z ->
            idleVms q = set (idleVms p) vmId (touched pooledVm now)
            /\ lookup (idleVms q) vmId = Some (touched pooledVm now)
            /\ vm_lastUsedAt (touched pooledVm now) = now
            /\ destroyed q = destroyed p)).
Proof.
  intros opts fresh_id boots p now vmId destroy pooledVm Hrun Hd a q.
  repeat apply conj.
  - intros id vm rest Hidle. subst a. unfold acquire.
    rewrite Hrun, Hidle. cbn [is_running negb fst snd].
    destruct (scheduleReplenish_maps opts
                (with_inUse
                   (with_idle p (remove ((id, vm) :: rest) id))
                   (set (inUseVms (with_idle p (remove ((id, vm) :: rest) id)))
                        id (used vm now)))) as [Hi Hu].
    repeat split; [exact Hi | exact Hu].
  - intros Hidle Hge. subst a. unfold acquire.
    rewrite Hrun, Hidle. cbn [is_running negb].
    destruct (Z.geb_spec (totalCount p) (maxTotal opts)); [reflexivity | lia].
  - intros Hin. subst q. unfold release. rewrite Hin.
    cbn [with_inUse idleVms inUseVms].
    split; [|split].
    + destruct (destroy || _)%bool; [|reflexivity].
      cbn [destroyVm_inUse inUseVms]. apply remove_absent.
      now apply remove_gone.
    + intros Hdes.
      assert (E : (destroy || (size (idleVms p) >=? maxIdle opts)%Z)%bool = true).
      { destruct Hdes as [->|H]; [reflexivity|]. apply orb_true_iff. right.
        destruct (Z.geb_spec (size (idleVms p)) (maxIdle opts));
          [reflexivity | lia]. }
      rewrite E. split; reflexivity.
    + intros Hdes Hlt.
      assert (E : (destroy || (size (idleVms p) >=? maxIdle opts)%Z)%bool = false).
      { rewrite Hdes. cbn [orb].
        destruct (Z.geb_spec (size (idleVms p)) (maxIdle opts));
          [lia | reflexivity]. }
      rewrite E. cbn [with_idle idleVms destroyed].
      split; [reflexivity|]. split; [apply lookup_set_same|].
      split; reflexivity.
Qed.

Lemma acquire_release_single_call_witness :
  idleVms
    (release scenario6_opts
       (mkPool [] [("warm-0", mkVm "warm-0" 0 0 0 1)] WarmPool.Running 1 false
               [] [])
       "warm-0" false 9)
  = set [] "warm-0" (touched (mkVm "warm-0" 0 0 0 1) 9).
Proof.
  assert (ND : distinct_keys [("warm-0", mkVm "warm-0" 0 0 0 1)]).
  { constructor; [intros [] | constructor]. }
  destruct (acquire_release_single_call scenario6_opts scenario6_id
              (fun _ => true)
              (mkPool [] [("warm-0", mkVm "warm-0" 0 0 0 1)] WarmPool.Running
                      1 false [] [])
              9 "warm-0" false (mkVm "warm-0" 0 0 0 1) eq_refl ND)
    as (_ & _ & Hrel).
  destruct (Hrel eq_refl) as (_ & _ & Hidle).
  exact (proj1 (Hidle eq_refl eq_refl)).
Defined.

(** X16.  Releasing a VM twice does what releasing it once does: the
    second call finds it gone from the in-use map and changes nothing. *)
Theorem release_twice_is_release_once :
  forall (opts : Options) (p : Pool) (vmId : string)
         (destroy destroy' : bool) (now now' : Z),
    distinct_keys (inUseVms p) ->
    release opts (release opts p vmId destroy now) vmId destroy' now'
    = release opts p vmId destroy now.
Proof.
  intros opts p vmId destroy destroy' now now' ND.
  assert (Hgone : lookup (inUseVms (release opts p vmId destroy now)) vmId
                  = None).
  { unfold release. destruct (lookup (inUseVms p) vmId) as [vm|] eqn:El;
      [|exact El].
    cbn [with_inUse idleVms inUseVms].
    destruct (destroy || _)%bool.
    - cbn [destroyVm_inUse inUseVms]. apply lookup_none_iff.
      rewrite remove_absent by now apply remove_gone.
      now apply remove_gone.
    - cbn [with_idle inUseVms]. apply lookup_none_iff. now apply remove_gone. }
  unfold release at 1. now rewrite Hgone.
Qed.

Lemma release_twice_is_release_once_witness :
  release scenario6_opts
    (release scenario6_opts
       (mkPool [] [("warm-0", mkVm "warm-0" 0 0 0 1)] WarmPool.Running 1 false [] [])
       "warm-0" false 8)
    "warm-0" true 9
  = release scenario6_opts
      (mkPool [] [("warm-0", mkVm "warm-0" 0 0 0 1)] WarmPool.Running 1 false [] [])
      "warm-0" false 8.
Proof.
  refine (release_twice_is_release_once scenario6_opts
            (mkPool [] [("warm-0", mkVm "warm-0" 0 0 0 1)] WarmPool.Running 1 false
                    [] [])
            "warm-0" false true 8 9 _).
  constructor; [intros [] | constructor].
Defined.

Lemma remove_app_fresh {A} (o : Obj A) k v :
  ~ In k (keys o) -> remove (o ++ [(k, v)]) k = o.
Proof.
  induction o as [|[k' v'] o IH]; simpl; intros H.
  - now rewrite String.eqb_refl.
  - destruct (String.eqb_spec k' k) as [->|Hne]; [tauto|].
    f_equal. apply IH. tauto.
Qed.

(** X17.  A running pool hands out its idle VMs oldest first and takes a
    released VM back at the end of the line: acquiring the first idle VM
    and releasing it again moves it behind the other idle VMs, with its
    use counted and its last use renewed, and leaves the VMs in use as
    they were. *)
Theorem acquire_release_rotates :
  forall (opts : Options) (fresh_id : nat -> string) (boots : string -> bool)
         (p : Pool) (id : string) (vm : PooledVm) (rest : Obj PooledVm)
         (now now' : Z),
    state p = WarmPool.Running ->
    idleVms p = (id, vm) :: rest ->
    ~ In id (keys rest) -> ~ In id (keys (inUseVms p)) ->
    (size rest < maxIdle opts)%Z ->
    let q := release opts (snd (acquire opts fresh_id boots p now)) id false
                     now' in
    idleVms q
    = rest ++ [(id, mkVm (vm_id vm) (vm_index vm) (vm_createdAt vm) now'
                         (S (vm_useCount vm)))]
    /\ inUseVms q = inUseVms p
    /\ destroyed q = destroyed p.
Proof.
  intros opts fresh_id boots p id vm rest now now' Hrun Hidle Hrest Huse Hlt q.
  subst q. unfold acquire. rewrite Hrun, Hidle. cbn [is_running negb snd].
  set (p2 := with_inUse _ _).
  destruct (scheduleReplenish_maps opts p2) as [Hi Hu].
  assert (Hd : destroyed (scheduleReplenish opts p2) = destroyed p).
  { unfold scheduleReplenish. destruct (replenishPromise p2); reflexivity. }
  unfold release. rewrite Hu.
  subst p2. cbn [with_inUse with_idle idleVms inUseVms remove] in *.
  rewrite String.eqb_refl in *.
  rewrite lookup_set_same. cbn [with_inUse with_idle idleVms inUseVms].
  rewrite Hi.
  assert (E : (false || (size rest >=? maxIdle opts)%Z)%bool = false).
  { cbn [orb]. destruct (Z.geb_spec (size rest) (maxIdle opts));
      [lia | reflexivity]. }
  rewrite E. split; [|split].
  - unfold with_idle at 1. cbn [idleVms].
    now rewrite (set_fresh rest id _ Hrest).
  - unfold with_idle at 1. unfold with_inUse at 1. cbn [inUseVms].
    rewrite (set_fresh (inUseVms p) id (used vm now) Huse).
    now apply remove_app_fresh.
  - unfold with_idle at 1. unfold with_inUse at 1. cbn [destroyed].
    exact Hd.
Qed.

Lemma acquire_release_rotates_witness :
  idleVms
    (release scenario6_opts
       (snd (acquire scenario6_opts scenario6_id (fun _ => true)
               (mkPool [("warm-0", mkVm "warm-0" 0 0 0 0);
                        ("warm-1", mkVm "warm-1" 1 0 0 0)]
                       [] WarmPool.Running 2 false [] []) 5))
       "warm-0" false 6)
  = [("warm-1", mkVm "warm-1" 1 0 0 0); ("warm-0", mkVm "warm-0" 0 0 6 1)].
Proof.
  refine (proj1 (acquire_release_rotates scenario6_opts scenario6_id
                   (fun _ => true)
                   (mkPool [("warm-0", mkVm "warm-0" 0 0 0 0);
                            ("warm-1", mkVm "warm-1" 1 0 0 0)]
                           [] WarmPool.Running 2 false [] [])
                   "warm-0" (mkVm "warm-0" 0 0 0 0)
                   [("warm-1", mkVm "warm-1" 1 0 0 0)] 5 6
                   eq_refl eq_refl _ _ eq_refl)).
  - simpl. intuition discriminate.
  - intros [].
Defined.

Lemma keys_skipn {A} (o : Obj A) n : keys (skipn n o) = skipn n (keys o).
Proof. unfold keys. symmetry. apply skipn_map. Qed.

Lemma NoDup_skipn {A} (l : list A) n : NoDup l -> NoDup (skipn n l).
Proof.
  intros H. rewrite <- (firstn_skipn n l) in H.
  now apply NoDup_app_remove_l in H.
Qed.

Lemma keys_filter_in {A} (f : string * A -> bool) (o : Obj A) k :
  In k (keys (filter f o)) -> In k (keys o).
Proof.
  intros H. apply in_map_iff in H as (kv & <- & Hin).
  apply filter_In in Hin as [Hin _]. now apply in_map.
Qed.

Lemma keys_filter_distinct {A} (f : string * A -> bool) (o : Obj A) :
  distinct_keys o -> distinct_keys (filter f o).
Proof.
  unfold distinct_keys. induction o as [|[k v] o IH]; simpl; intros ND;
    [constructor|].
  inversion ND as [|? ? Hnot ND']; subst.
  destruct (f (k, v)); [|now apply IH].
  simpl. constructor; [|now apply IH].
  intros Hin. apply Hnot. now apply keys_filter_in in Hin.
Qed.

Lemma remove_keeps {A} (o : Obj A) k k' :
  k' <> k -> In k' (keys o) -> In k' (keys (remove o k)).
Proof.
  intros Hne. induction o as [|[k0 v0] o IH]; simpl; [tauto|].
  destruct (String.eqb_spec k0 k) as [->|H0]; simpl.
  - intros [E|H]; [congruence | exact H].
  - intros [E|H]; [now left | right; now apply IH].
Qed.

Lemma destroyVm_idle_found p id vm :
  lookup (idleVms p) id = Some vm ->
  idleVms (destroyVm p id true) = remove (idleVms p) id
  /\ inUseVms (destroyVm p id true) = inUseVms p
  /\ state (destroyVm p id true) = state p
  /\ nextIndex (destroyVm p id true) = nextIndex p
  /\ destroyed (destroyVm p id true) = destroyed p ++ [id].
Proof. intros H. unfold destroyVm. rewrite H. now repeat split. Qed.

Lemma lookup_remove_other {A} (o : Obj A) k k' :
  k' <> k -> lookup (remove o k) k' = lookup o k'.
Proof.
  intros Hne. induction o as [|[k0 v0] o IH]; simpl; [reflexivity|].
  destruct (String.eqb_spec k0 k) as [->|H0]; simpl.
  - destruct (String.eqb_spec k k'); [congruence | reflexivity].
  - destruct (String.eqb k0 k'); [reflexivity | exact IH].
Qed.

(** Destroying idle VMs that are all there, one after the other. *)
Lemma destroy_idle_all ids : forall p,
  NoDup ids -> incl ids (keys (idleVms p)) ->
  let q := fold_left (fun q id => destroyVm q id true) ids p in
  destroyed q = destroyed p ++ ids
  /\ inUseVms q = inUseVms p /\ state q = state p
  /\ nextIndex q = nextIndex p
  /\ (forall k, ~ In k ids -> lookup (idleVms q) k = lookup (idleVms p) k).
Proof.
  induction ids as [|id ids IH]; cbn [fold_left]; intros p ND Hin.
  - cbn zeta. rewrite app_nil_r. repeat split.
  - inversion ND as [|? ? Hnot ND']; subst.
    assert (Hid : In id (keys (idleVms p))) by (apply Hin; now left).
    destruct (lookup (idleVms p) id) as [vm|] eqn:El;
      [|apply lookup_none_iff in El; tauto].
    destruct (destroyVm_idle_found p id vm El) as (Ei & Eu & Es & En & Ed).
    destruct (IH (destroyVm p id true) ND') as (Hd & Hu & Hs & Hn & Hl).
    { rewrite Ei. intros k Hk. apply remove_keeps; [intros ->; tauto|].
      apply Hin. now right. }
    cbn zeta. rewrite Hd, Hu, Hs, Hn, Ed, Eu, Es, En, <- app_assoc.
    repeat split.
    intros k Hk. rewrite Hl by (intros H; apply Hk; now right).
    rewrite Ei. apply lookup_remove_other. intros ->. apply Hk. now left.
Qed.

(** The scan of [healthCheck] picks the stale VMs past the first
    [minIdle]. *)
Lemma staleIds_spec minIdle maxIdleTime now idle : forall idleCount,
  (0 <= idleCount)%Z ->
  staleIds minIdle maxIdleTime now idleCount idle
  = keys (filter (fun kv => is_stale maxIdleTime now (snd kv))
                 (skipn (Z.to_nat (minIdle - idleCount)) idle)).
Proof.
  induction idle as [|[id vm] rest IH]; intros c Hc; cbn [staleIds].
  - now rewrite skipn_nil.
  - rewrite IH by lia.
    destruct (Z.gtb_spec (c + 1) minIdle) as [Hgt|Hle].
    + replace (Z.to_nat (minIdle - c)) with 0%nat by lia.
      replace (Z.to_nat (minIdle - (c + 1))) with 0%nat by lia.
      cbn [skipn filter snd andb].
      destruct (is_stale maxIdleTime now vm); reflexivity.
    + replace (Z.to_nat (minIdle - c))
        with (S (Z.to_nat (minIdle - (c + 1)))) by lia.
      reflexivity.
Qed.

Lemma finish_creations_destroyed fresh_id boots indices now : forall p,
  destroyed (finish_creations fresh_id boots p indices now) = destroyed p.
Proof.
  unfold finish_creations.
  induction indices as [|i indices IH]; cbn [fold_left]; intros p;
    [reflexivity|].
  rewrite IH. now destruct (createVm fresh_id boots i now).
Qed.

(** X18.  A health check of a running pool destroys exactly the idle VMs
    that come after the first [minIdle] in the order they became idle
    and have been idle for longer than [maxIdleTime], in that order. *)
Theorem healthCheck_destroys_stale_beyond_minIdle :
  forall (opts : Options) (fresh_id : nat -> string) (boots : string -> bool)
         (maxIdleTime : Z) (p : Pool) (now : Z),
    state p = WarmPool.Running ->
    distinct_keys (idleVms p) ->
    destroyed (healthCheck opts fresh_id boots maxIdleTime p now)
    = destroyed p
      ++ keys (filter (fun kv => is_stale maxIdleTime now (snd kv))
                      (skipn (Z.to_nat (minIdle opts)) (idleVms p))).
Proof.
  intros opts fresh_id boots maxIdleTime p now Hrun ND.
  unfold healthCheck. rewrite Hrun. cbn [is_running negb].
  unfold replenish, begin_replenish.
  rewrite finish_creations_destroyed. cbn [destroyed].
  rewrite staleIds_spec by lia. rewrite Z.sub_0_r.
  apply destroy_idle_all.
  - apply keys_filter_distinct. unfold distinct_keys.
    rewrite keys_skipn. now apply NoDup_skipn.
  - intros k Hk. apply keys_filter_in in Hk. rewrite keys_skipn in Hk.
    rewrite <- (firstn_skipn (Z.to_nat (minIdle opts)) (keys (idleVms p))).
    apply in_or_app. now right.
Qed.

Lemma healthCheck_destroys_stale_beyond_minIdle_witness :
  destroyed
    (healthCheck scenario6_opts scenario6_id (fun _ => true) 300
       (mkPool [("warm-0", mkVm "warm-0" 0 0 0 0);
                ("warm-1", mkVm "warm-1" 1 0 0 0);
                ("warm-2", mkVm "warm-2" 2 0 0 0);
                ("warm-3", mkVm "warm-3" 3 0 900 1)]
               [] WarmPool.Running 4 false [] []) 1000)
  = ["warm-2"].
Proof.
  refine (healthCheck_destroys_stale_beyond_minIdle scenario6_opts
            scenario6_id (fun _ => true) 300
            (mkPool [("warm-0", mkVm "warm-0" 0 0 0 0);
                     ("warm-1", mkVm "warm-1" 1 0 0 0);
                     ("warm-2", mkVm "warm-2" 2 0 0 0);
                     ("warm-3", mkVm "warm-3" 3 0 900 1)]
                    [] WarmPool.Running 4 false [] []) 1000 eq_refl _).
  repeat constructor; simpl; intuition discriminate.
Defined.

(** ** Config validation and the scheduler, continued *)

Import Execution.

Lemma existsb_eqb_in (x : string) l :
  existsb (String.eqb x) l = true <-> In x l.
Proof.
  rewrite existsb_exists. split.
  - intros (y & Hy & E). apply String.eqb_eq in E. now subst.
  - intros H. exists x. split; [exact H | apply String.eqb_refl].
Qed.

Lemma existsb_name_in (dep : string) (js : list JobDefinition) :
  existsb (fun j => String.eqb (job_name j) dep) js = true
  <-> In dep (map job_name js).
Proof.
  rewrite existsb_exists, in_map_iff. split.
  - intros (j & Hj & E). apply String.eqb_eq in E. now exists j.
  - intros (j & E & Hj). exists j. split; [exact Hj|].
    now apply String.eqb_eq.
Qed.

Lemma validateJobs_spec pipeline js : forall seen,
  incl seen (map job_name (pl_jobs pipeline)) ->
  incl (map job_name js) (map job_name (pl_jobs pipeline)) ->
  validateJobs pipeline seen js = None
  <-> NoDup (map job_name js)
      /\ (forall j, In j js -> ~ In (job_name j) seen)
      /\ Forall (valid_job pipeline) js.
Proof.
  induction js as [|job rest IH]; intros seen Hseen Hjs; cbn [validateJobs].
  - split; [intros _|reflexivity].
    split; [constructor | split; [intros j [] | constructor]].
  - assert (Hrest : incl (map job_name rest) (map job_name (pl_jobs pipeline))).
    { intros x Hx. apply Hjs. now right. }
    assert (Hseen' : incl (seen ++ [job_name job])
                          (map job_name (pl_jobs pipeline))).
    { intros x Hx. apply in_app_or in Hx as [Hx|[<-|[]]];
        [now apply Hseen | apply Hjs; now left]. }
    specialize (IH (seen ++ [job_name job]) Hseen' Hrest).
    destruct (is_empty (job_name job)) eqn:En.
    { split; [discriminate|]. intros (_ & _ & Hv).
      inversion Hv as [|? ? [Hname _] _]; subst.
      destruct (job_name job); [congruence | discriminate]. }
    apply is_empty_false_iff in En.
    destruct (existsb (String.eqb (job_name job)) seen) eqn:Edup.
    { split; [discriminate|]. intros (_ & Hfresh & _).
      apply existsb_eqb_in in Edup.
      exfalso. now apply (Hfresh job (or_introl eq_refl)). }
    assert (Hnew : ~ In (job_name job) seen).
    { intros Hin. apply existsb_eqb_in in Hin. congruence. }
    destruct (job_runner job) as [image|] eqn:Er.
    2:{ split; [discriminate|]. intros (_ & _ & Hv).
        inversion Hv as [|? ? (_ & (i & Hi & _) & _) _]; subst. congruence. }
    destruct (is_empty image) eqn:Ei.
    { split; [discriminate|]. intros (_ & _ & Hv).
      inversion Hv as [|? ? (_ & (i & Hi & Hne) & _) _]; subst.
      rewrite Er in Hi. inversion Hi; subst.
      destruct i; [congruence | discriminate]. }
    apply is_empty_false_iff in Ei.
    destruct (job_steps job) as [|st sts] eqn:Es.
    { split; [discriminate|]. intros (_ & _ & Hv).
      inversion Hv as [|? ? (_ & _ & Hsteps & _) _]; subst. congruence. }
    destruct (forallb _ (job_dependsOn job)) eqn:Ed.
    + rewrite IH. rewrite forallb_forall in Ed.
      assert (Hdeps : forall dep, In dep (job_dependsOn job) ->
                                  In dep (map job_name (pl_jobs pipeline))).
      { intros dep Hdep. specialize (Ed dep Hdep).
        apply orb_true_iff in Ed as [Ed|Ed].
        - apply existsb_exists in Ed as (y & Hy & E).
          apply String.eqb_eq in E. subst y. now apply Hseen'.
        - now apply existsb_name_in. }
      split.
      * intros (ND & Hfresh & Hv). split; [|split].
        -- cbn [map]. constructor; [|exact ND].
           intros Hin. apply in_map_iff in Hin as (j & Ej & Hj).
           apply (Hfresh j Hj). rewrite Ej. apply in_or_app. right. now left.
        -- intros j [<-|Hj]; [exact Hnew|].
           intros Hin. apply (Hfresh j Hj). apply in_or_app. now left.
        -- constructor; [|exact Hv].
           repeat split; try assumption; try congruence.
           exists image. now split.
      * intros (ND & Hfresh & Hv). cbn [map] in ND.
        inversion ND as [|? ? Hnot ND']; subst.
        inversion Hv as [|? ? _ Hv']; subst.
        split; [exact ND'|]. split; [|exact Hv'].
        intros j Hj Hin. apply in_app_or in Hin as [Hin|[E|[]]].
        -- apply (Hfresh j); [now right | exact Hin].
        -- apply Hnot. rewrite E. now apply in_map.
    + split; [discriminate|]. intros (_ & _ & Hv).
      inversion Hv as [|? ? (_ & _ & _ & Hdeps) _]; subst.
      assert (Ht : forallb
                     (fun dep =>
                        existsb (String.eqb dep) (seen ++ [job_name job])
                        || existsb (fun j => String.eqb (job_name j) dep)
                                   (pl_jobs pipeline))
                     (job_dependsOn job) = true).
      { apply forallb_forall. intros dep Hdep. apply orb_true_iff. right.
        apply existsb_name_in. now apply Hdeps. }
      congruence.
Qed.

(** X21.  [validatePipeline] accepts a pipeline exactly when it has a
    name, a trigger and a job, its job names are non-empty and distinct,
    every job has a runner image and a step, and every dependency names
    a job of the pipeline.  Nothing more is asked: a job may depend on
    itself or on a job that depends on it. *)
Theorem validatePipeline_accepts_iff_valid :
  forall pipeline,
    validatePipeline pipeline = None <-> valid_pipeline pipeline.
Proof.
  intros pipeline. unfold validatePipeline, valid_pipeline.
  destruct (is_empty (pl_name pipeline)) eqn:En.
  { split; [discriminate|]. intros (Hn & _).
    destruct (pl_name pipeline); [congruence | discriminate]. }
  apply is_empty_false_iff in En.
  destruct (pl_triggers pipeline) as [|t ts] eqn:Et.
  { split; [discriminate|]. intros (_ & Ht & _). congruence. }
  destruct (pl_jobs pipeline) as [|j js] eqn:Ej.
  { split; [discriminate|]. intros (_ & _ & Hj & _). congruence. }
  rewrite <- Ej.
  rewrite (validateJobs_spec pipeline (pl_jobs pipeline) []);
    [|intros x [] | apply incl_refl].
  split.
  - intros (ND & _ & Hv). repeat split; try assumption; try congruence.
  - intros (_ & _ & _ & ND & Hv). split; [exact ND|].
    split; [intros ? _ [] | exact Hv].
Qed.

Lemma validatePipeline_accepts_iff_valid_witness :
  valid_pipeline ci_pipeline.
Proof.
  exact (proj1 (validatePipeline_accepts_iff_valid ci_pipeline) eq_refl).
Defined.

Lemma first_error_none {A} (check : A -> option Error) xs :
  first_error check xs = None -> forall x, In x xs -> check x = None.
Proof.
  induction xs as [|y xs IH]; simpl; intros H x Hx; [tauto|].
  destruct (check y) eqn:E; [discriminate|].
  destruct Hx as [<-|Hx]; [exact E | now apply IH].
Qed.

Lemma validateJobs_runners pipeline js : forall seen,
  validateJobs pipeline seen js = None -> forallb has_runner js = true.
Proof.
  induction js as [|job rest IH]; intros seen H; [reflexivity|].
  cbn [validateJobs] in H. cbn [forallb]. unfold has_runner at 1.
  destruct (is_empty (job_name job)); [discriminate|].
  destruct (existsb (String.eqb (job_name job)) seen); [discriminate|].
  destruct (job_runner job) as [image|]; [|discriminate].
  destruct (is_empty image); [discriminate|].
  destruct (job_steps job); [discriminate|].
  destruct (forallb _ (job_dependsOn job)); [|discriminate].
  now apply (IH _ H).
Qed.

Lemma validatePipeline_runners pipeline :
  validatePipeline pipeline = None ->
  forallb has_runner (pl_jobs pipeline) = true.
Proof.
  unfold validatePipeline. intros H.
  destruct (is_empty (pl_name pipeline)); [discriminate|].
  destruct (pl_triggers pipeline); [discriminate|].
  destruct (pl_jobs pipeline) as [|j js] eqn:Ej; [discriminate|].
  now apply (validateJobs_runners pipeline (j :: js) []).
Qed.

Lemma loadConfig_static_runners fs cwd path config ps :
  loadConfig fs cwd path = inr config ->
  cfg_pipelines config = Some (Static ps) ->
  forall pipeline, In pipeline ps ->
                   forallb has_runner (pl_jobs pipeline) = true.
Proof.
  unfold loadConfig. intros Hload Hps.
  destruct (fs _) as [[c|]|]; try discriminate.
  destruct (validateConfig c) eqn:Ev; [discriminate|].
  inversion Hload; subst c. unfold validateConfig in Ev.
  destruct (cfg_project config) as [name|]; [|discriminate].
  destruct (is_empty name); [discriminate|]. rewrite Hps in Ev.
  intros pipeline Hin. apply validatePipeline_runners.
  now apply (first_error_none validatePipeline ps Ev).
Qed.

(** X22.  With a config that loads and lists its pipelines, enqueuing
    succeeds exactly when the list names the pipeline, and fails with
    the pipeline-not-found error otherwise: validation has made sure
    that every job has a runner. *)
Theorem queuePipelineRun_static_config :
  forall (fs : FileSystem) (cwd : string) (db : Store)
         (run : QueuedPipelineRun) (config : ZephyrConfig)
         (ps : list PipelineDefinition),
    loadConfig fs cwd (q_configPath run) = inr config ->
    cfg_pipelines config = Some (Static ps) ->
    fst (queuePipelineRun fs cwd db run)
    = match find (fun p => String.eqb (pl_name p) (q_pipelineName run)) ps with
      | Some _ => inr (q_id run)
      | None => inl (PipelineNotFound (q_pipelineName run))
      end.
Proof.
  intros fs cwd db run config ps Hload Hps.
  pose proof (loadConfig_static_runners fs cwd _ config ps Hload Hps)
    as Hrunners.
  unfold queuePipelineRun, createPipelineRun. rewrite Hload.
  unfold resolvePipelines. rewrite Hps.
  destruct (find _ ps) as [pipeline|] eqn:Ef; [|reflexivity].
  apply find_some in Ef as [Hin _].
  rewrite createJobs_ok by (now apply Hrunners).
  reflexivity.
Qed.

Lemma queuePipelineRun_static_config_witness :
  fst (queuePipelineRun demo_fs "/" demo_db (demo_run "nightly"))
  = inl (PipelineNotFound "nightly").
Proof.
  exact (queuePipelineRun_static_config demo_fs "/" demo_db
           (demo_run "nightly") ci_config [ci_pipeline] eq_refl eq_refl).
Defined.

(** ** The queue *)

Lemma update_keeps_ids db i st :
  map jrec_id (jobs (updateJobStatus db i st)) = map jrec_id (jobs db).
Proof.
  destruct db as [ps rs js]. cbn [updateJobStatus jobs].
  rewrite map_map. apply map_ext. intros j.
  now destruct (String.eqb (jrec_id j) i).
Qed.

Lemma update_keeps_identity db i st :
  map row_identity (jobs (updateJobStatus db i st))
  = map row_identity (jobs db).
Proof.
  destruct db as [ps rs js]. cbn [updateJobStatus jobs].
  rewrite map_map. apply map_ext. intros j.
  now destruct (String.eqb (jrec_id j) i).
Qed.

Lemma update_other_rows db i st j :
  jrec_id j <> i -> In j (jobs db) -> In j (jobs (updateJobStatus db i st)).
Proof.
  intros Hne Hin. destruct db as [ps rs js]. cbn [updateJobStatus jobs] in *.
  apply in_map_iff. exists j. split; [|exact Hin].
  apply String.eqb_neq in Hne. now rewrite Hne.
Qed.

Lemma pending_after_update db i st :
  is_pending st = false ->
  filter (fun j => is_pending (jrec_status j))
         (jobs (updateJobStatus db i st))
  = filter (fun j => is_pending (jrec_status j)
                     && negb (String.eqb (jrec_id j) i))
           (jobs db).
Proof.
  intros Hst. destruct db as [ps rs js]. cbn [updateJobStatus jobs].
  induction js as [|j js IH]; [reflexivity|]. cbn [map filter].
  rewrite IH. destruct (String.eqb (jrec_id j) i); cbn [jrec_status].
  - rewrite Hst, andb_false_r. reflexivity.
  - rewrite andb_true_r. reflexivity.
Qed.

Lemma others_pending_after_update db i st :
  filter (fun j => is_pending (jrec_status j)
                   && negb (String.eqb (jrec_id j) i))
         (jobs (updateJobStatus db i st))
  = filter (fun j => is_pending (jrec_status j)
                     && negb (String.eqb (jrec_id j) i))
           (jobs db).
Proof.
  destruct db as [ps rs js]. cbn [updateJobStatus jobs].
  induction js as [|j js IH]; [reflexivity|]. cbn [map filter].
  rewrite IH. destruct (String.eqb (jrec_id j) i) eqn:E; cbn [jrec_id].
  - rewrite E, !andb_false_r. reflexivity.
  - rewrite E. reflexivity.
Qed.

Lemma begin_keeps_runs db job : runs (executeJob_begin db job) = runs db.
Proof.
  unfold executeJob_begin.
  repeat match goal with
         | |- context [match ?x with _ => _ end] => destruct x
         end; reflexivity.
Qed.

Lemma begin_keeps_projects db job :
  projects (executeJob_begin db job) = projects db.
Proof.
  unfold executeJob_begin.
  repeat match goal with
         | |- context [match ?x with _ => _ end] => destruct x
         end; reflexivity.
Qed.

Lemma begin_keeps_identity db job :
  map row_identity (jobs (executeJob_begin db job))
  = map row_identity (jobs db).
Proof.
  unfold executeJob_begin.
  repeat match goal with
         | |- context [match ?x with _ => _ end] => destruct x
         end; now rewrite ?update_keeps_identity.
Qed.

Lemma begin_keeps_ids db job :
  map jrec_id (jobs (executeJob_begin db job)) = map jrec_id (jobs db).
Proof.
  unfold executeJob_begin.
  repeat match goal with
         | |- context [match ?x with _ => _ end] => destruct x
         end; now rewrite ?update_keeps_ids.
Qed.

Lemma begin_other_rows db job j :
  jrec_id j <> jrec_id job -> In j (jobs db) ->
  In j (jobs (executeJob_begin db job)).
Proof.
  intros Hne Hin. unfold executeJob_begin.
  repeat match goal with
         | |- context [match ?x with _ => _ end] => destruct x
         end; repeat apply update_other_rows; assumption.
Qed.

Lemma pending_after_begin db job :
  filter (fun j => is_pending (jrec_status j)) (jobs (executeJob_begin db job))
  = filter (fun j => is_pending (jrec_status j)
                     && negb (String.eqb (jrec_id j) (jrec_id job)))
           (jobs db).
Proof.
  unfold executeJob_begin.
  repeat match goal with
         | |- context [match ?x with _ => _ end] => destruct x
         end;
    rewrite pending_after_update by reflexivity;
    rewrite ?others_pending_after_update;
    now rewrite ?pending_after_update by reflexivity.
Qed.

Lemma filter_filter {A} (f g : A -> bool) l :
  filter f (filter g l) = filter (fun x => g x && f x) l.
Proof.
  induction l as [|x l IH]; [reflexivity|]. cbn [filter].
  destruct (g x); cbn [filter andb]; [destruct (f x)|]; now rewrite IH.
Qed.

Lemma filter_swap {A} (f g : A -> bool) l :
  filter f (filter g l) = filter g (filter f l).
Proof.
  rewrite !filter_filter. apply filter_ext. intros x. apply andb_comm.
Qed.

Lemma NoDup_ids_filter (f : JobRecord -> bool) js :
  NoDup (map jrec_id js) -> NoDup (map jrec_id (filter f js)).
Proof.
  induction js as [|j js IH]; cbn [map filter]; intros ND; [constructor|].
  inversion ND as [|? ? Hnot ND']; subst.
  destruct (f j); [|now apply IH]. cbn [map]. constructor; [|now apply IH].
  intros Hin. apply Hnot. apply in_map_iff in Hin as (x & Ex & Hx).
  apply filter_In in Hx as [Hx _]. apply in_map_iff. now exists x.
Qed.

Lemma first_pending_removed js j t :
  NoDup (map jrec_id js) ->
  filter (fun x => is_pending (jrec_status x)) js = j :: t ->
  filter (fun x => is_pending (jrec_status x)
                   && negb (String.eqb (jrec_id x) (jrec_id j))) js = t.
Proof.
  intros ND Hf.
  rewrite <- (filter_filter
                (fun x => negb (String.eqb (jrec_id x) (jrec_id j)))
                (fun x => is_pending (jrec_status x))).
  pose proof (NoDup_ids_filter (fun x => is_pending (jrec_status x)) js ND)
    as NDf.
  rewrite Hf in *. cbn [filter]. rewrite String.eqb_refl. cbn [negb].
  cbn [map] in NDf. inversion NDf as [|? ? Hnot _]; subst.
  clear - Hnot. induction t as [|x t IH]; [reflexivity|].
  cbn [filter]. cbn [map] in Hnot.
  destruct (String.eqb (jrec_id x) (jrec_id j)) eqn:E.
  - apply String.eqb_eq in E. exfalso. apply Hnot. now left.
  - cbn [negb]. f_equal. apply IH. intros Hin. apply Hnot. now right.
Qed.

Lemma dispatch_keeps_limit st job :
  maxConcurrent (fst (dispatch st job)) = maxConcurrent (fst st)
  /\ running (fst (dispatch st job)) = running (fst st)
  /\ (List.length (activeJobs (fst (dispatch st job)))
      <= S (List.length (activeJobs (fst st))))%nat.
Proof.
  destruct st as [s db]. unfold dispatch.
  destruct (existsb (String.eqb (jrec_id job)) (activeJobs s));
    [cbn [fst]; repeat split; lia|].
  destruct (negb (canJobRun db job));
    cbn [fst maxConcurrent running activeJobs]; [repeat split; lia|].
  rewrite length_app. cbn [List.length]. repeat split; lia.
Qed.

Lemma dispatch_all_limit l : forall st,
  maxConcurrent (fst (fold_left dispatch l st)) = maxConcurrent (fst st)
  /\ (List.length (activeJobs (fst (fold_left dispatch l st)))
      <= List.length (activeJobs (fst st)) + List.length l)%nat.
Proof.
  induction l as [|j l IH]; intros st; cbn [fold_left List.length].
  - split; [reflexivity | lia].
  - destruct (IH (dispatch st j)) as [Hm Hl].
    destruct (dispatch_keeps_limit st j) as (Hm' & _ & Hl').
    split; [congruence | lia].
Qed.

(** X23.  The scheduler never holds more jobs than its concurrency limit:
    a pass over the queue that starts within the limit ends within it,
    and leaves the limit itself alone. *)
Theorem processQueue_respects_maxConcurrent :
  forall (s : Sched) (db : Store),
    (List.length (activeJobs s) <= maxConcurrent s)%nat ->
    maxConcurrent (fst (processQueue s db)) = maxConcurrent s
    /\ (List.length (activeJobs (fst (processQueue s db)))
        <= maxConcurrent s)%nat.
Proof.
  intros s db Hle. unfold processQueue.
  destruct (negb (running s)); [now split|].
  destruct (maxConcurrent s <=? List.length (activeJobs s))%nat eqn:E;
    [now split|].
  apply Nat.leb_gt in E.
  destruct (dispatch_all_limit
              (getPendingJobs db
                 (maxConcurrent s - List.length (activeJobs s))) (s, db))
    as [Hm Hl].
  split; [exact Hm|]. cbn [fst] in Hl.
  unfold getPendingJobs in Hl at 2.
  pose proof (firstn_le_length
                (maxConcurrent s - List.length (activeJobs s))
                (filter (fun j => is_pending (jrec_status j)) (jobs db))).
  lia.
Qed.

Lemma processQueue_respects_maxConcurrent_witness :
  (List.length
     (activeJobs
        (fst (processQueue (mkSched true 1 [])
                (snd (queuePipelineRun demo_fs "/" demo_db (demo_run "ci"))))))
   <= 1)%nat.
Proof.
  exact (proj2 (processQueue_respects_maxConcurrent (mkSched true 1 [])
                  (snd (queuePipelineRun demo_fs "/" demo_db (demo_run "ci")))
                  (Nat.le_0_l 1))).
Defined.

Lemma NoDup_app_disjoint {A} (l l' : list A) x :
  NoDup (l ++ l') -> In x l -> In x l' -> False.
Proof.
  induction l as [|y l IH]; cbn [app In]; intros ND Hl Hl'; [exact Hl|].
  inversion ND as [|? ? Hnot ND']; subst. destruct Hl as [->|Hl].
  - apply Hnot. apply in_or_app. now right.
  - now apply IH.
Qed.

Lemma in_firstn {A} (x : A) n : forall l, In x (firstn n l) -> In x l.
Proof.
  induction n as [|n IH]; intros [|y l]; cbn [firstn In]; try tauto.
  intros [<-|H]; [now left | right; now apply IH].
Qed.

Lemma dispatch_all_started l : forall s db rest,
  NoDup (map jrec_id (jobs db)) ->
  filter (fun j => is_pending (jrec_status j)) (jobs db) = l ++ rest ->
  (forall j, In j l ->
             getPipelineRun db (jrec_pipeline_run_id j) <> None
             /\ ~ In (jrec_id j) (activeJobs s)) ->
  activeJobs (fst (fold_left dispatch l (s, db)))
  = activeJobs s ++ map jrec_id l
  /\ filter (fun j => is_pending (jrec_status j))
            (jobs (snd (fold_left dispatch l (s, db)))) = rest.
Proof.
  induction l as [|j l IH]; intros s db rest ND Hp Hok; cbn [fold_left].
  - cbn [fst snd map]. rewrite app_nil_r. split; [reflexivity | exact Hp].
  - destruct (Hok j (or_introl eq_refl)) as [Hrun Hfree].
    pose proof (NoDup_ids_filter (fun x => is_pending (jrec_status x))
                  (jobs db) ND) as NDp.
    rewrite Hp in NDp. cbn [app map] in NDp.
    inversion NDp as [|? ? Hnot _]; subst.
    assert (Hd : dispatch (s, db) j
                 = (mkSched (running s) (maxConcurrent s)
                            (activeJobs s ++ [jrec_id j]),
                    executeJob_begin db j)).
    { unfold dispatch.
      destruct (existsb (String.eqb (jrec_id j)) (activeJobs s)) eqn:Ea.
      { apply existsb_eqb_in in Ea. contradiction. }
      assert (Hcan : canJobRun db j = true).
      { unfold canJobRun.
        destruct (getPipelineRun db (jrec_pipeline_run_id j));
          [|congruence].
        unfold getJobsForPipelineRun. rewrite filter_swap.
        rewrite Hp. cbn [app filter]. rewrite String.eqb_refl.
        apply String.eqb_refl. }
      rewrite Hcan. reflexivity. }
    rewrite Hd.
    destruct (IH (mkSched (running s) (maxConcurrent s)
                          (activeJobs s ++ [jrec_id j]))
                 (executeJob_begin db j) rest) as [Ha Hr].
    + now rewrite begin_keeps_ids.
    + rewrite pending_after_begin.
      now apply (first_pending_removed (jobs db) j (l ++ rest)).
    + intros x Hx. destruct (Hok x (or_intror Hx)) as [Hrx Hfx]. split.
      * unfold getPipelineRun in *. now rewrite begin_keeps_runs.
      * cbn [activeJobs]. intros Hin.
        apply in_app_or in Hin as [Hin|[E|[]]]; [contradiction|].
        apply Hnot. rewrite map_app. apply in_or_app. left.
        rewrite E. now apply in_map.
    + split; [|exact Hr]. rewrite Ha. cbn [activeJobs map].
      now rewrite <- app_assoc.
Qed.

Lemma status_update_cases db i' st i :
  status_of (updateJobStatus db i' st) i = status_of db i
  \/ status_of (updateJobStatus db i' st) i = Some st.
Proof.
  unfold status_of, getJob. destruct db as [ps rs js].
  cbn [updateJobStatus jobs]. induction js as [|j js IH]; [now left|].
  cbn [map find]. destruct (String.eqb (jrec_id j) i') eqn:E.
  - cbn [jrec_id]. destruct (String.eqb (jrec_id j) i); [now right | exact IH].
  - destruct (String.eqb (jrec_id j) i); [now left | exact IH].
Qed.

Lemma status_begin_cases db job i :
  status_of (executeJob_begin db job) i = status_of db i
  \/ status_of (executeJob_begin db job) i = Some Scheduler.Running
  \/ status_of (executeJob_begin db job) i = Some Failure.
Proof.
  pose proof (status_update_cases db (jrec_id job) Scheduler.Running i) as H1.
  pose proof (status_update_cases
                (updateJobStatus db (jrec_id job) Scheduler.Running)
                (jrec_id job) Failure i) as H2.
  unfold executeJob_begin.
  repeat match goal with
         | |- context [match ?x with _ => _ end] => destruct x
         end;
    destruct H1 as [H1|H1], H2 as [H2|H2]; rewrite ?H2, ?H1; tauto.
Qed.

Lemma dispatch_all_status l i : forall st,
  status_of (snd (fold_left dispatch l st)) i = status_of (snd st) i
  \/ status_of (snd (fold_left dispatch l st)) i = Some Scheduler.Running
  \/ status_of (snd (fold_left dispatch l st)) i = Some Failure.
Proof.
  induction l as [|j l IH]; intros st; cbn [fold_left]; [now left|].
  destruct (IH (dispatch st j)) as [H|H]; [|now right].
  rewrite H. destruct st as [s db]. unfold dispatch.
  destruct (existsb (String.eqb (jrec_id j)) (activeJobs s)); [now left|].
  destruct (negb (canJobRun db j)); [now left|]. cbn [snd].
  apply status_begin_cases.
Qed.

Lemma getJob_in db j :
  NoDup (map jrec_id (jobs db)) -> In j (jobs db) ->
  getJob db (jrec_id j) = Some j.
Proof.
  unfold getJob. induction (jobs db) as [|x js IH]; cbn [map In find];
    intros ND Hin; [tauto|].
  inversion ND as [|? ? Hnot ND']; subst. destruct Hin as [->|Hin].
  - now rewrite String.eqb_refl.
  - destruct (String.eqb_spec (jrec_id x) (jrec_id j)) as [E|_];
      [|now apply IH].
    exfalso. apply Hnot. rewrite E. now apply in_map.
Qed.

(** X24.  In a store whose job ids are distinct, whose pending jobs
    belong to runs that exist and are not already held by the scheduler,
    a pass over the queue takes up every pending job it fetches, the
    first free-slots pending jobs in creation order, whatever their runs
    and whatever they depend on: each is [running] after the pass, or
    has already ended in [failure]; the jobs left pending are the ones
    not fetched; and the scheduler holds no job it did not hold before
    or fetch. *)
Theorem processQueue_starts_every_fetched_job :
  forall (s : Sched) (db : Store),
    running s = true ->
    (List.length (activeJobs s) < maxConcurrent s)%nat ->
    NoDup (map jrec_id (jobs db)) ->
    (forall j, In j (jobs db) -> is_pending (jrec_status j) = true ->
               getPipelineRun db (jrec_pipeline_run_id j) <> None
               /\ ~ In (jrec_id j) (activeJobs s)) ->
    let slots := (maxConcurrent s - List.length (activeJobs s))%nat in
    let pending := filter (fun j => is_pending (jrec_status j)) (jobs db) in
    let after := snd (processQueue s db) in
    filter (fun j => is_pending (jrec_status j)) (jobs after)
    = skipn slots pending
    /\ (forall j, In j (firstn slots pending) ->
                  status_of after (jrec_id j) = Some Scheduler.Running
                  \/ status_of after (jrec_id j) = Some Failure)
    /\ incl (activeJobs (fst (processQueue s db)))
            (activeJobs s ++ map jrec_id (firstn slots pending)).
Proof.
  intros s db Hrun Hlt ND Hok slots pending after.
  assert (Hfold : after = snd (fold_left dispatch (firstn slots pending)
                                         (s, db))
                  /\ fst (processQueue s db)
                     = fst (fold_left dispatch (firstn slots pending) (s, db))).
  { subst after. unfold processQueue. rewrite Hrun. cbn [negb].
    apply Nat.leb_gt in Hlt. rewrite Hlt. now split. }
  destruct Hfold as [Eafter Esched].
  destruct (dispatch_all_started (firstn slots pending) s db
              (skipn slots pending) ND) as [Hactive Hleft].
  { symmetry. apply firstn_skipn. }
  { intros j Hj. apply in_firstn in Hj. apply filter_In in Hj as [Hin Hp].
    now apply Hok. }
  rewrite <- Eafter in Hleft. rewrite <- Esched in Hactive.
  split; [exact Hleft|]. split; [|rewrite Hactive; apply incl_refl].
  intros j Hj.
  assert (Hjp : In j pending) by (now apply in_firstn in Hj).
  pose proof Hjp as Hjdb. apply filter_In in Hjdb as [Hjdb Hpend].
  destruct (dispatch_all_status (firstn slots pending) (jrec_id j) (s, db))
    as [H|H]; [|now rewrite Eafter].
  exfalso. rewrite <- Eafter in H. cbn [snd] in H.
  unfold status_of in H. rewrite (getJob_in db j ND Hjdb) in H.
  cbn [option_map] in H.
  unfold getJob in H.
  destruct (find (fun x => String.eqb (jrec_id x) (jrec_id j)) (jobs after))
    as [row|] eqn:Ef; [|discriminate].
  apply find_some in Ef as [Hrow Eid]. apply String.eqb_eq in Eid.
  cbn [option_map] in H. inversion H as [Hst].
  assert (Hrp : In row (skipn slots pending)).
  { rewrite <- Hleft. apply filter_In. split; [exact Hrow|].
    now rewrite Hst. }
  pose proof (NoDup_ids_filter (fun x => is_pending (jrec_status x))
                (jobs db) ND) as NDp.
  fold pending in NDp. rewrite <- (firstn_skipn slots pending) in NDp.
  rewrite map_app in NDp.
  apply (NoDup_app_disjoint _ _ (jrec_id j) NDp).
  - now apply in_map.
  - rewrite <- Eid. now apply in_map.
Qed.

Lemma processQueue_starts_every_fetched_job_witness :
  let db := snd (queuePipelineRun demo_fs "/" demo_db (demo_run "ci")) in
  filter (fun j => is_pending (jrec_status j))
         (jobs (snd (processQueue (mkSched true 4 []) db))) = []
  /\ incl (activeJobs (fst (processQueue (mkSched true 4 []) db)))
          ["run1-build"; "run1-test"].
Proof.
  destruct (processQueue_starts_every_fetched_job (mkSched true 4 [])
              (snd (queuePipelineRun demo_fs "/" demo_db (demo_run "ci")))
              eq_refl) as (Hleft & _ & Hactive).
  - cbn. lia.
  - vm_compute. repeat constructor; simpl; intuition discriminate.
  - intros j Hj _. split; [|intros []].
    vm_compute in Hj. destruct Hj as [<-|[<-|[]]]; vm_compute; discriminate.
  - split; [exact Hleft | exact Hactive].
Defined.

Lemma dispatch_all_keeps l : forall st,
  projects (snd (fold_left dispatch l st)) = projects (snd st)
  /\ runs (snd (fold_left dispatch l st)) = runs (snd st)
  /\ map row_identity (jobs (snd (fold_left dispatch l st)))
     = map row_identity (jobs (snd st)).
Proof.
  induction l as [|j l IH]; intros st; cbn [fold_left]; [now repeat split|].
  destruct (IH (dispatch st j)) as (Hp & Hr & Hi).
  rewrite Hp, Hr, Hi. destruct st as [s db]. unfold dispatch.
  destruct (existsb (String.eqb (jrec_id j)) (activeJobs s));
    [now repeat split|].
  destruct (negb (canJobRun db j)); [now repeat split|]. cbn [snd].
  now rewrite begin_keeps_projects, begin_keeps_runs, begin_keeps_identity.
Qed.

Lemma dispatch_all_other_rows l j : forall st,
  (forall x, In x l -> jrec_id x <> jrec_id j) ->
  In j (jobs (snd st)) ->
  In j (jobs (snd (fold_left dispatch l st))).
Proof.
  induction l as [|x l IH]; intros st Hne Hin; cbn [fold_left]; [exact Hin|].
  apply IH; [intros y Hy; apply Hne; now right|].
  destruct st as [s db]. unfold dispatch.
  destruct (existsb (String.eqb (jrec_id x)) (activeJobs s)); [exact Hin|].
  destruct (negb (canJobRun db x)); [exact Hin|]. cbn [snd] in *.
  apply begin_other_rows; [|exact Hin].
  intros E. now apply (Hne x (or_introl eq_refl)).
Qed.

Lemma NoDup_ids_injective (js : list JobRecord) x y :
  NoDup (map jrec_id js) -> In x js -> In y js ->
  jrec_id x = jrec_id y -> x = y.
Proof.
  induction js as [|j js IH]; cbn [map In]; intros ND Hx Hy E; [tauto|].
  inversion ND as [|? ? Hnot ND']; subst.
  destruct Hx as [<-|Hx], Hy as [<-|Hy]; try reflexivity.
  - exfalso. apply Hnot. rewrite E. now apply in_map.
  - exfalso. apply Hnot. rewrite <- E. now apply in_map.
  - now apply IH.
Qed.

(** X25.  A pass over the queue writes statuses of pending jobs and
    nothing else: projects and runs are left as they are, no job row is
    added, removed or renamed, and, job ids being distinct, every job
    that was not pending keeps its row. *)
Theorem processQueue_changes_only_pending_jobs :
  forall (s : Sched) (db : Store),
    NoDup (map jrec_id (jobs db)) ->
    let after := snd (processQueue s db) in
    projects after = projects db
    /\ runs after = runs db
    /\ map row_identity (jobs after) = map row_identity (jobs db)
    /\ (forall j, In j (jobs db) -> is_pending (jrec_status j) = false ->
                  In j (jobs after)).
Proof.
  intros s db ND after. subst after. unfold processQueue.
  destruct (negb (running s)); [now repeat split|].
  destruct (maxConcurrent s <=? List.length (activeJobs s))%nat;
    [now repeat split|].
  set (l := getPendingJobs db _).
  destruct (dispatch_all_keeps l (s, db)) as (Hp & Hr & Hi).
  repeat split; try assumption.
  intros j Hj Hnp. apply dispatch_all_other_rows; [|exact Hj].
  intros x Hx E. subst l. unfold getPendingJobs in Hx.
  apply in_firstn in Hx. apply filter_In in Hx as [Hx Hpend].
  rewrite (NoDup_ids_injective (jobs db) x j ND Hx Hj E) in Hpend.
  congruence.
Qed.

Lemma processQueue_changes_only_pending_jobs_witness :
  let db := snd (processQueue (mkSched true 1 [])
                   (snd (queuePipelineRun demo_fs "/" demo_db
                           (demo_run "ci")))) in
  In (mkJobRecord "run1-build" "run1" "build" "ubuntu-22.04" Scheduler.Running)
     (jobs (snd (processQueue (mkSched true 1 []) db))).
Proof.
  refine (proj2 (proj2 (proj2
            (processQueue_changes_only_pending_jobs (mkSched true 1 [])
               (snd (processQueue (mkSched true 1 [])
                       (snd (queuePipelineRun demo_fs "/" demo_db
                               (demo_run "ci"))))) _))) _ _ _).
  - vm_compute. repeat constructor; simpl; intuition discriminate.
  - vm_compute. now left.
  - reflexivity.
Defined.

Lemma getJob_update db i st row :
  getJob db i = Some row ->
  status_of (updateJobStatus db i st) i = Some st.
Proof.
  unfold status_of, getJob. destruct db as [ps rs js].
  cbn [updateJobStatus jobs]. induction js as [|j js IH]; [discriminate|].
  cbn [map find]. destruct (String.eqb (jrec_id j) i) eqn:E.
  - cbn [jrec_id]. rewrite E. reflexivity.
  - rewrite E. exact IH.
Qed.

Lemma getJob_update_some db i st row :
  getJob db i = Some row ->
  exists row', getJob (updateJobStatus db i st) i = Some row'.
Proof.
  intros H. pose proof (getJob_update db i st row H) as Hs.
  unfold status_of in Hs.
  destruct (getJob (updateJobStatus db i st) i) as [r|]; [|discriminate].
  now exists r.
Qed.

Ltac agree :=
  repeat match goal with
         | H : None = Some _ |- _ => discriminate H
         | H : inl _ = inr _ |- _ => discriminate H
         | H : Some _ = Some _ |- _ => inversion H; subst; clear H
         | H : inr _ = inr _ |- _ => inversion H; subst; clear H
         | E : ?t = _, H : ?t = _ |- _ => rewrite E in H
         end.

Section Executing.
Variable World : Type.
Variable spawn : World -> SpawnArgs -> option Z -> ProcRun * World.
Variable bun_env : Obj string.

(** X26.  [executeJob] never leaves its job [running]: the row ends in
    [success] or in [failure], and in [success] exactly when the run and
    the project of the job are in the store, the project's config loads
    and still defines the pipeline and the job, and the job's steps,
    run in the directory of the config file, end in success. *)
Theorem executeJob_settles_job :
  forall (fs : FileSystem) (cwd : string) (w : World) (db : Store)
         (job row : JobRecord),
    getJob db (jrec_id job) = Some row ->
    let after := fst (executeJob World spawn bun_env fs cwd w db job) in
    (status_of after (jrec_id job) = Some Success
     \/ status_of after (jrec_id job) = Some Failure)
    /\ (status_of after (jrec_id job) = Some Success <->
        exists pipelineRun project path config pipeline jobDef,
          getPipelineRun db (jrec_pipeline_run_id job) = Some pipelineRun
          /\ getProject db (prr_project_id pipelineRun) = Some project
          /\ proj_config_path project = Some path /\ path <> ""
          /\ loadConfig fs cwd path = inr config
          /\ find (fun p => String.eqb (pl_name p)
                              (prr_pipeline_name pipelineRun))
                  (resolvePipelines config (context_of pipelineRun))
             = Some pipeline
          /\ find (fun j => String.eqb (job_name j) (jrec_name job))
                  (pl_jobs pipeline) = Some jobDef
          /\ jr_status
               (fst (runJob World spawn bun_env w jobDef
                       (mkRunJobOptions (dirname path)
                          (assign (cfg_env config) (pl_env pipeline)))))
             = JSuccess).
Proof.
  intros fs cwd w db job row Hrow after. subst after.
  destruct (getJob_update_some db (jrec_id job) Scheduler.Running row Hrow)
    as [row1 Hrow1].
  pose proof (fun st => getJob_update _ _ st _ Hrow1) as Hset.
  assert (Hfail : forall w' : World,
             let after := fst (updateJobStatus
                                 (updateJobStatus db (jrec_id job)
                                    Scheduler.Running)
                                 (jrec_id job) Failure, w') in
             (status_of after (jrec_id job) = Some Success
              \/ status_of after (jrec_id job) = Some Failure)
             /\ status_of after (jrec_id job) <> Some Success).
  { intros w'. cbn [fst]. rewrite Hset. split; [now right | discriminate]. }
  unfold executeJob.
  change (getPipelineRun (updateJobStatus db (jrec_id job) Scheduler.Running)
            (jrec_pipeline_run_id job))
    with (getPipelineRun db (jrec_pipeline_run_id job)).
  destruct (getPipelineRun db (jrec_pipeline_run_id job))
    as [pipelineRun|] eqn:Erun.
  2:{ destruct (Hfail w) as [H1 H2]. split; [exact H1|]. split; [tauto|].
      intros (r & p & x & c & pl & jd & Hx); decompose [and] Hx.
      agree. }
  change (getProject (updateJobStatus db (jrec_id job) Scheduler.Running)
            (prr_project_id pipelineRun))
    with (getProject db (prr_project_id pipelineRun)).
  destruct (getProject db (prr_project_id pipelineRun))
    as [project|] eqn:Eproj.
  2:{ destruct (Hfail w) as [H1 H2]. split; [exact H1|]. split; [tauto|].
      intros (r & p & x & c & pl & jd & Hx); decompose [and] Hx.
      agree. }
  destruct (proj_config_path project) as [path|] eqn:Epath.
  2:{ destruct (Hfail w) as [H1 H2]. split; [exact H1|]. split; [tauto|].
      intros (r & p & x & c & pl & jd & Hx); decompose [and] Hx.
      agree. }
  destruct (is_empty path) eqn:Eempty.
  { destruct (Hfail w) as [H1 H2]. split; [exact H1|]. split; [tauto|].
    intros (r & p & x & c & pl & jd & Hx); decompose [and] Hx.
    agree.
    match goal with
    | E : is_empty ?s = true |- _ => destruct s; [congruence | discriminate]
    end. }
  apply is_empty_false_iff in Eempty.
  destruct (loadConfig fs cwd path) as [e|config] eqn:Eload.
  { destruct (Hfail w) as [H1 H2]. split; [exact H1|]. split; [tauto|].
    intros (r & p & x & c & pl & jd & Hx); decompose [and] Hx.
    agree. }
  destruct (find _ (resolvePipelines config (context_of pipelineRun)))
    as [pipeline|] eqn:Epl.
  2:{ destruct (Hfail w) as [H1 H2]. split; [exact H1|]. split; [tauto|].
      intros (r & p & x & c & pl & jd & Hx); decompose [and] Hx.
      agree. }
  destruct (find _ (pl_jobs pipeline)) as [jobDef|] eqn:Ejob.
  2:{ destruct (Hfail w) as [H1 H2]. split; [exact H1|]. split; [tauto|].
      intros (r & p & x & c & pl & jd & Hx); decompose [and] Hx.
      agree. }
  destruct (runJob World spawn bun_env w jobDef _) as [result w'] eqn:Eres.
  cbn [fst]. rewrite Hset. split.
  - destruct (jr_status result); cbn [final_status]; tauto.
  - split.
    + intros Hs. exists pipelineRun, project, path, config, pipeline, jobDef.
      repeat split; try assumption. rewrite Eres. cbn [fst].
      destruct (jr_status result); cbn [final_status] in Hs;
        [reflexivity | discriminate | discriminate].
    + intros (r & p & x & c & pl & jd & Hx); decompose [and] Hx.
      agree.
      match goal with
      | H : jr_status _ = JSuccess |- _ =>
          rewrite Eres in H; cbn [fst] in H; now rewrite H
      end.
Qed.

End Executing.

Lemma executeJob_settles_job_witness :
  let db := snd (queuePipelineRun demo_fs "/" demo_db (demo_run "ci")) in
  let job := mkJobRecord "run1-build" "run1" "build" "ubuntu-22.04" Pending in
  status_of (fst (executeJob unit failing_machine [] demo_fs "/" tt db job))
            "run1-build" = Some Failure.
Proof.
  pose proof (executeJob_settles_job unit failing_machine [] demo_fs "/" tt
                (snd (queuePipelineRun demo_fs "/" demo_db (demo_run "ci")))
                (mkJobRecord "run1-build" "run1" "build" "ubuntu-22.04" Pending)
                (mkJobRecord "run1-build" "run1" "build" "ubuntu-22.04" Pending)
                eq_refl) as [[H|H] _].
  - vm_compute in H. discriminate.
  - exact H.
Defined.

Lemma split_on_whole sep s :
  all_chars (fun c => negb (Ascii.eqb c sep)) s = true ->
  split_on sep s = [s].
Proof.
  induction s as [|c s IH]; [reflexivity|]. cbn [all_chars split_on].
  intros H. apply andb_true_iff in H as [Hc Hs].
  apply negb_true_iff in Hc. rewrite Hc, (IH Hs). reflexivity.
Qed.

Lemma cons_head_app c l l' :
  l <> [] -> cons_head c (l ++ l') = cons_head c l ++ l'.
Proof. destruct l; [congruence | reflexivity]. Qed.

Lemma split_on_file sep dir file :
  all_chars (fun c => negb (Ascii.eqb c sep)) file = true ->
  split_on sep (dir ++ String sep file) = split_on sep dir ++ [file].
Proof.
  intros Hf. induction dir as [|c dir IH].
  - cbn [String.append split_on app]. rewrite Ascii.eqb_refl.
    now rewrite (split_on_whole sep file Hf).
  - cbn [String.append split_on]. rewrite IH.
    destruct (Ascii.eqb c sep); [reflexivity|].
    apply cons_head_app, split_on_nonempty.
Qed.

Lemma join_split sep s : join (String sep "") (split_on sep s) = s.
Proof.
  induction s as [|c s IH]; [reflexivity|]. cbn [split_on].
  pose proof (split_on_nonempty sep s) as Hne.
  destruct (Ascii.eqb_spec c sep) as [->|Hc].
  - destruct (split_on sep s) as [|h t]; [congruence|].
    change (join (String sep "") ("" :: h :: t))
      with (String sep (join (String sep "") (h :: t))).
    now rewrite IH.
  - destruct (split_on sep s) as [|h [|t1 t]]; [congruence| |].
    + cbn [cons_head join] in *. now rewrite IH.
    + change (join (String sep "") (cons_head c (h :: t1 :: t)))
        with (String c (h ++ String sep "" ++ join (String sep "") (t1 :: t))).
      change (join (String sep "") (h :: t1 :: t))
        with (h ++ String sep "" ++ join (String sep "") (t1 :: t))%string in IH.
      now rewrite IH.
Qed.

(** X27.  The directory a scheduled job runs in: for a config path that
    ends in a file name, everything before the last slash; for a path
    with no slash at all, the empty string. *)
Theorem dirname_of_config_path :
  forall dir file,
    all_chars not_slash file = true ->
    dirname (dir ++ "/" ++ file) = dir /\ dirname file = "".
Proof.
  intros dir file Hf. unfold dirname. split.
  - change (dir ++ "/" ++ file)%string with (dir ++ String "/" file)%string.
    rewrite (split_on_file "/" dir file Hf), removelast_last.
    apply (join_split "/").
  - now rewrite (split_on_whole "/" file Hf).
Qed.

Lemma dirname_of_config_path_witness :
  dirname "/srv/demo/zephyr.config.ts" = "/srv/demo".
Proof.
  exact (proj1 (dirname_of_config_path "/srv/demo" "zephyr.config.ts" eq_refl)).
Defined.

(** ** Ordering jobs by their dependencies *)

Import Cli.

Lemma set_has_false x s : set_has x s = false <-> ~ In x s.
Proof.
  unfold set_has. rewrite <- existsb_eqb_in.
  destruct (existsb (String.eqb x) s); split; congruence.
Qed.

Lemma set_add_new x s : set_has x s = false -> set_add x s = s ++ [x].
Proof. unfold set_add. now intros ->. Qed.

Lemma set_delete_added x s : ~ In x s -> set_delete x (s ++ [x]) = s.
Proof.
  intros H. unfold set_delete. rewrite filter_app. cbn [filter].
  rewrite String.eqb_refl. cbn [negb]. rewrite app_nil_r.
  induction s as [|y s IH]; [reflexivity|]. cbn [filter].
  destruct (String.eqb_spec y x) as [->|Hne].
  - exfalso. apply H. now left.
  - cbn [negb]. f_equal. apply IH. intros Hin. apply H. now right.
Qed.

Lemma NoDup_snoc {A} (l : list A) x : NoDup l -> ~ In x l -> NoDup (l ++ [x]).
Proof.
  intros ND Hx. induction ND as [|y l Hy ND IH]; cbn [app].
  - constructor; [intros [] | constructor].
  - constructor.
    + intros Hin. apply in_app_or in Hin as [Hin|[E|[]]]; [tauto|].
      subst. apply Hx. now left.
    + apply IH. intros Hin. apply Hx. now right.
Qed.

Lemma assign_lookup_from {A} (P : string -> A -> Prop) entries :
  (forall n d, In (n, d) entries -> P n d) ->
  forall acc, (forall n d, lookup acc n = Some d -> P n d) ->
  forall n d, lookup (assign acc entries) n = Some d -> P n d.
Proof.
  unfold assign. induction entries as [|[k v] entries IH];
    intros Hent acc Hacc n d; cbn [fold_left]; [apply Hacc|].
  apply IH; [intros; apply Hent; now right|].
  intros n' d'. cbn [fst snd]. destruct (String.eqb_spec n' k) as [->|Hne].
  - rewrite lookup_set_same. intros E. inversion E; subst.
    apply Hent. now left.
  - rewrite lookup_set_other by exact Hne. apply Hacc.
Qed.

Lemma job_map_lookup jobs n d :
  lookup (job_map jobs) n = Some d -> In d jobs /\ job_name d = n.
Proof.
  unfold job_map, fromEntries.
  apply (assign_lookup_from (fun n d => In d jobs /\ job_name d = n)).
  - intros k j Hin. apply in_map_iff in Hin as (x & E & Hx).
    inversion E; subst. now split.
  - intros k j. discriminate.
Qed.

Lemma assign_defines {A} (entries : list (string * A)) n : forall acc,
  In n (keys entries) -> lookup (assign acc entries) n <> None.
Proof.
  induction entries as [|[k v] entries IH]; intros acc Hin; [destruct Hin|].
  change (assign acc ((k, v) :: entries))
    with (assign (set acc k v) entries).
  destruct (in_dec string_dec n (keys entries)) as [Hl|Hl];
    [now apply IH|].
  destruct Hin as [E|Hin]; [|contradiction]. cbn [fst] in E. subst k.
  rewrite lookup_assign_absent by exact Hl. now rewrite lookup_set_same.
Qed.

Lemma job_map_defined jobs n :
  In n (map job_name jobs) -> lookup (job_map jobs) n <> None.
Proof.
  intros Hin. unfold job_map, fromEntries. apply assign_defines.
  unfold keys. rewrite map_map. exact Hin.
Qed.

Lemma dependencies_first_snoc jobs l job :
  dependencies_first jobs l ->
  (forall dep, In dep (job_dependsOn job) -> In dep (map job_name jobs) ->
               In dep (map job_name l)) ->
  dependencies_first jobs (l ++ [job]).
Proof.
  intros Hl Hjob pre j post E dep Hdep Hin.
  destruct (exists_last (l := j :: post)) as (post' & y & Ey);
    [discriminate|].
  destruct post' as [|j' post'].
  - cbn [app] in Ey. destruct post; [|destruct post; discriminate].
    inversion Ey; subst y. apply app_inj_tail in E as [-> ->].
    now apply Hjob.
  - cbn [app] in Ey. inversion Ey as [[Ej Ep]]. subst j'.
    rewrite Ep in E.
    change (pre ++ j :: post' ++ [y]) with (pre ++ (j :: post') ++ [y]) in E.
    rewrite app_assoc in E. apply app_inj_tail in E as [-> ->].
    now apply (Hl pre j post' eq_refl).
Qed.

Section Sorting.
Variable jobs : list JobDefinition.

Lemma for_each_sound {A} (body : A -> SortState -> Visit)
  (mark : A -> list string -> Prop) xs :
  (forall x st st', In x xs -> sort_invariant jobs st ->
                    body x st = Some (inr st') ->
                    visit_done jobs st st' (mark x)) ->
  (forall x v v', mark x v -> incl v v' -> mark x v') ->
  forall st st', sort_invariant jobs st ->
                 for_each body xs st = Some (inr st') ->
                 visit_done jobs st st' (fun v => forall x, In x xs -> mark x v).
Proof.
  intros Hbody Hmono. induction xs as [|x xs IH]; intros st st' Hinv Hrun.
  - cbn [for_each] in Hrun. inversion Hrun; subst.
    repeat split; try apply Hinv; try apply incl_refl. intros x [].
  - cbn [for_each] in Hrun.
    destruct (body x st) as [[e|st1]|] eqn:Ex; try discriminate.
    destruct (Hbody x st st1 (or_introl eq_refl) Hinv Ex)
      as (Hinv1 & Hv1 & Hi1 & Hm1).
    destruct (IH (fun y s s' Hy => Hbody y s s' (or_intror Hy)) st1 st'
                 Hinv1 Hrun) as (Hinv' & Hv' & Hi' & Hm').
    split; [exact Hinv'|]. split; [congruence|].
    split; [eapply incl_tran; eassumption|].
    intros y [<-|Hy]; [now apply (Hmono x (visited st1)) | now apply Hm'].
Qed.

Lemma visit_sound fuel : forall job st st',
  In job jobs -> sort_invariant jobs st ->
  visit fuel (job_map jobs) job st = Some (inr st') ->
  visit_done jobs st st' (fun v => In (job_name job) v).
Proof.
  induction fuel as [|fuel IH]; intros job st st' Hjob Hinv Hrun;
    [discriminate|].
  cbn [visit] in Hrun.
  destruct (set_has (job_name job) (visited st)) eqn:Evd.
  { inversion Hrun; subst. repeat split; try apply Hinv; try apply incl_refl.
    now apply existsb_eqb_in. }
  destruct (set_has (job_name job) (visiting st)) eqn:Evg; [discriminate|].
  apply set_has_false in Evd. pose proof Evg as Hnew.
  apply set_has_false in Hnew. rewrite (set_add_new _ _ Evg) in Hrun.
  set (st1 := mkSortState (sorted st) (visited st)
                          (visiting st ++ [job_name job])) in Hrun.
  destruct Hinv as (Hnames & Hnd & Hdisj & Hincl & Hfirst).
  assert (Hinv1 : sort_invariant jobs st1).
  { repeat split; try assumption.
    intros n Hn. cbn [st1 visiting] in Hn.
    apply in_app_or in Hn as [Hn|[<-|[]]]; [now apply Hdisj | exact Evd]. }
  destruct (for_each _ (job_dependsOn job) st1) as [[e|st2]|] eqn:Edeps;
    try discriminate.
  inversion Hrun; subst st'; clear Hrun.
  destruct (for_each_sound
              (fun depName st' =>
                 match lookup (job_map jobs) depName with
                 | Some dep => visit fuel (job_map jobs) dep st'
                 | None => Some (inr st')
                 end)
              (fun depName v =>
                 lookup (job_map jobs) depName <> None -> In depName v)
              (job_dependsOn job)) with (st := st1) (st' := st2)
    as (Hinv2 & Hv2 & Hi2 & Hm2); try assumption.
  { intros d s s' _ Hs Hd.
    destruct (lookup (job_map jobs) d) as [dep|] eqn:El.
    - destruct (job_map_lookup jobs d dep El) as [Hin <-].
      destruct (IH dep s s' Hin Hs Hd) as (H1 & H2 & H3 & H4).
      split; [exact H1|]. split; [exact H2|]. split; [exact H3|].
      intros _. exact H4.
    - inversion Hd; subst. split; [exact Hs|]. split; [reflexivity|].
      split; [apply incl_refl|]. congruence. }
  { intros d v v' Hm Hvv Hl. apply Hvv. now apply Hm. }
  destruct Hinv2 as (Hnames2 & Hnd2 & Hdisj2 & Hincl2 & Hfirst2).
  cbn [st1 visiting visited] in Hv2, Hi2.
  assert (Hfresh : ~ In (job_name job) (visited st2)).
  { apply Hdisj2. rewrite Hv2. apply in_or_app. right. now left. }
  assert (Eadd : set_add (job_name job) (visited st2)
                 = visited st2 ++ [job_name job]).
  { apply set_add_new. now apply set_has_false. }
  rewrite Eadd, Hv2, (set_delete_added _ _ Hnew).
  unfold visit_done. cbn [sorted visited visiting].
  split; [|split; [reflexivity|split]].
  - repeat split.
    + cbn [sorted visited]. rewrite map_app, Hnames2. reflexivity.
    + cbn [visited]. now apply NoDup_snoc.
    + cbn [visiting visited]. intros n Hn Hin.
      apply in_app_or in Hin as [Hin|[<-|[]]]; [|contradiction].
      apply (Hdisj2 n); [|exact Hin].
      rewrite Hv2. apply in_or_app. now left.
    + cbn [sorted]. intros j Hj.
      apply in_app_or in Hj as [Hj|[<-|[]]]; [now apply Hincl2 | exact Hjob].
    + cbn [sorted]. apply dependencies_first_snoc; [exact Hfirst2|].
      intros dep Hdep Hin. rewrite Hnames2. apply Hm2; [exact Hdep|].
      now apply job_map_defined.
  - intros n Hn. apply in_or_app. left. now apply Hi2.
  - apply in_or_app. right. now left.
Qed.

Lemma for_each_total {A} (body : A -> SortState -> Visit)
  (mark : A -> list string -> Prop) xs V :
  (forall x st st', In x xs -> sort_invariant jobs st ->
                    body x st = Some (inr st') ->
                    visit_done jobs st st' (mark x)) ->
  (forall x st, In x xs -> sort_invariant jobs st -> visiting st = V ->
                body x st <> None) ->
  forall st, sort_invariant jobs st -> visiting st = V ->
             for_each body xs st <> None.
Proof.
  intros Hsound Htotal. induction xs as [|x xs IH]; intros st Hinv HV.
  - discriminate.
  - cbn [for_each].
    pose proof (Htotal x st (or_introl eq_refl) Hinv HV) as Hx.
    destruct (body x st) as [[e|st1]|] eqn:Ex; [discriminate | | congruence].
    destruct (Hsound x st st1 (or_introl eq_refl) Hinv Ex)
      as (Hinv1 & Hv1 & _).
    apply IH; try assumption; try congruence.
    + intros y s s' Hy. apply Hsound. now right.
    + intros y s Hy. apply Htotal. now right.
Qed.

Lemma filter_shrinks {A} (f g : A -> bool) (a : A) l :
  (forall x, g x = true -> f x = true) ->
  In a l -> f a = true -> g a = false ->
  (List.length (filter g l) < List.length (filter f l))%nat.
Proof.
  intros Hgf Hin Hfa Hga.
  assert (Hle : forall l', (List.length (filter g l')
                            <= List.length (filter f l'))%nat).
  { induction l' as [|x l' IH]; [apply Nat.le_refl|]. cbn [filter].
    destruct (g x) eqn:Eg.
    - rewrite (Hgf x Eg). cbn [List.length]. lia.
    - destruct (f x); cbn [List.length]; lia. }
  induction l as [|x l IH]; [destruct Hin|]. cbn [filter].
  destruct Hin as [->|Hin].
  - rewrite Hfa, Hga. cbn [List.length]. specialize (Hle l). lia.
  - specialize (IH Hin). destruct (g x) eqn:Eg.
    + rewrite (Hgf x Eg). cbn [List.length]. lia.
    + destruct (f x); cbn [List.length]; lia.
Qed.

Lemma free_visiting job V :
  In job jobs -> set_has (job_name job) V = false ->
  (free jobs (V ++ [job_name job]) < free jobs V)%nat.
Proof.
  intros Hjob HV. unfold free.
  apply (filter_shrinks _ _ (job_name job)).
  - intros n Hn. apply negb_true_iff in Hn. apply negb_true_iff.
    apply set_has_false in Hn. apply set_has_false.
    intros Hin. apply Hn. apply in_or_app. now left.
  - now apply in_map.
  - now rewrite HV.
  - apply negb_false_iff. apply existsb_eqb_in. apply in_or_app.
    right. now left.
Qed.

Lemma visit_total fuel : forall job st,
  In job jobs -> sort_invariant jobs st ->
  (free jobs (visiting st) < fuel)%nat ->
  visit fuel (job_map jobs) job st <> None.
Proof.
  induction fuel as [|fuel IH]; intros job st Hjob Hinv Hfuel; [lia|].
  cbn [visit].
  destruct (set_has (job_name job) (visited st)) eqn:Evd; [discriminate|].
  destruct (set_has (job_name job) (visiting st)) eqn:Evg; [discriminate|].
  rewrite (set_add_new _ _ Evg).
  set (st1 := mkSortState (sorted st) (visited st)
                          (visiting st ++ [job_name job])).
  assert (Hinv1 : sort_invariant jobs st1).
  { destruct Hinv as (Hnames & Hnd & Hdisj & Hincl & Hfirst).
    repeat split; try assumption.
    intros n Hn. cbn [st1 visiting] in Hn.
    apply in_app_or in Hn as [Hn|[<-|[]]];
      [now apply Hdisj | now apply set_has_false]. }
  pose proof (free_visiting job (visiting st) Hjob Evg) as Hless.
  assert (Hdeps :
            for_each
              (fun depName st' =>
                 match lookup (job_map jobs) depName with
                 | Some dep => visit fuel (job_map jobs) dep st'
                 | None => Some (inr st')
                 end)
              (job_dependsOn job) st1 <> None).
  { apply (for_each_total _
             (fun depName v =>
                lookup (job_map jobs) depName <> None -> In depName v)
             _ (visiting st ++ [job_name job]));
      [| |exact Hinv1|reflexivity].
    - intros d s s' _ Hs Hd.
      destruct (lookup (job_map jobs) d) as [dep|] eqn:El.
      + destruct (job_map_lookup jobs d dep El) as [Hin <-].
        destruct (visit_sound fuel dep s s' Hin Hs Hd) as (H1 & H2 & H3 & H4).
        split; [exact H1|]. split; [exact H2|]. split; [exact H3|].
        intros _. exact H4.
      + inversion Hd; subst. split; [exact Hs|]. split; [reflexivity|].
        split; [apply incl_refl|]. congruence.
    - intros d s _ Hs HV.
      destruct (lookup (job_map jobs) d) as [dep|] eqn:El; [|discriminate].
      destruct (job_map_lookup jobs d dep El) as [Hin _].
      apply IH; try assumption. rewrite HV. lia. }
  destruct (for_each _ (job_dependsOn job) st1) as [[e|st2]|];
    [discriminate | discriminate | congruence].
Qed.

Lemma sort_result :
  exists r,
    sortJobsByDependencies jobs = Some r
    /\ forall sortedJobs,
         r = inr sortedJobs ->
         NoDup (map job_name sortedJobs)
         /\ incl sortedJobs jobs
         /\ incl (map job_name jobs) (map job_name sortedJobs)
         /\ dependencies_first jobs sortedJobs.
Proof.
  unfold sortJobsByDependencies.
  set (st0 := mkSortState [] [] []).
  assert (Hinv0 : sort_invariant jobs st0).
  { repeat split; cbn; try constructor; try tauto.
    - intros j [].
    - intros pre j post E. destruct pre; discriminate. }
  assert (Hsound : forall x st st',
             In x jobs -> sort_invariant jobs st ->
             visit (S (List.length jobs)) (job_map jobs) x st = Some (inr st') ->
             visit_done jobs st st' (fun v => In (job_name x) v)).
  { intros x st st'. apply visit_sound. }
  assert (Htotal :
            for_each (visit (S (List.length jobs)) (job_map jobs)) jobs st0
            <> None).
  { apply (for_each_total _ (fun x v => In (job_name x) v) _ []);
      [exact Hsound | | exact Hinv0 | reflexivity].
    intros x st Hx Hs HV. apply visit_total; try assumption.
    rewrite HV. unfold free.
    pose proof (filter_length_le (fun n => negb (set_has n []))
                                 (map job_name jobs)) as Hle.
    rewrite length_map in Hle. lia. }
  destruct (for_each _ jobs st0) as [[e|st]|] eqn:Erun; [| |congruence].
  - exists (inl e). split; [reflexivity | discriminate].
  - exists (inr (sorted st)). split; [reflexivity|].
    intros l E. inversion E; subst l; clear E.
    destruct (for_each_sound _ (fun x v => In (job_name x) v) jobs
                Hsound (fun x v v' Hm Hvv => Hvv _ Hm) st0 st Hinv0 Erun)
      as ((Hnames & Hnd & _ & Hincl & Hfirst) & _ & _ & Hall).
    repeat split; try assumption.
    + now rewrite Hnames.
    + rewrite Hnames. intros n Hn.
      apply in_map_iff in Hn as (j & <- & Hj). now apply Hall.
Qed.

End Sorting.

Lemma names_injective (jobs : list JobDefinition) a b :
  NoDup (map job_name jobs) -> In a jobs -> In b jobs ->
  job_name a = job_name b -> a = b.
Proof.
  induction jobs as [|j jobs IH]; cbn [map In]; intros ND Ha Hb E; [tauto|].
  inversion ND as [|? ? Hnot ND']; subst.
  destruct Ha as [<-|Ha], Hb as [<-|Hb]; try reflexivity.
  - exfalso. apply Hnot. rewrite E. now apply in_map.
  - exfalso. apply Hnot. rewrite <- E. now apply in_map.
  - now apply IH.
Qed.

Lemma NoDup_names_NoDup (l : list JobDefinition) :
  NoDup (map job_name l) -> NoDup l.
Proof.
  induction l as [|j l IH]; cbn [map]; intros ND; [constructor|].
  inversion ND as [|? ? Hnot ND']; subst.
  constructor; [|now apply IH]. intros Hin. apply Hnot. now apply in_map.
Qed.

(** X28.  For jobs with distinct names, [sortJobsByDependencies] either
    throws or returns the same jobs in an order in which every job comes
    after the jobs of the list it depends on; a dependency that names no
    job of the list is ignored. *)
Theorem sortJobsByDependencies_orders_jobs :
  forall jobs,
    NoDup (map job_name jobs) ->
    exists r,
      sortJobsByDependencies jobs = Some r
      /\ match r with
         | inl _ => True
         | inr sortedJobs =>
             Permutation sortedJobs jobs
             /\ dependencies_first jobs sortedJobs
         end.
Proof.
  intros jobs ND. destruct (sort_result jobs) as (r & Er & Hr).
  exists r. split; [exact Er|]. destruct r as [e|l]; [exact I|].
  destruct (Hr l eq_refl) as (NDl & Hincl & Hnames & Hfirst).
  split; [|exact Hfirst].
  apply NoDup_Permutation;
    [now apply NoDup_names_NoDup | now apply NoDup_names_NoDup |].
  intros j. split; [apply Hincl|]. intros Hj.
  assert (Hn : In (job_name j) (map job_name l))
    by (apply Hnames; now apply in_map).
  apply in_map_iff in Hn as (j' & E & Hj').
  now rewrite <- (names_injective jobs j' j ND (Hincl j' Hj') Hj E).
Qed.

Lemma sortJobsByDependencies_orders_jobs_witness :
  exists r,
    sortJobsByDependencies [test_job; build_job] = Some r
    /\ match r with
       | inl _ => True
       | inr sortedJobs =>
           Permutation sortedJobs [test_job; build_job]
           /\ dependencies_first [test_job; build_job] sortedJobs
       end.
Proof.
  apply (sortJobsByDependencies_orders_jobs [test_job; build_job]).
  cbn. repeat constructor; simpl; intuition discriminate.
Defined.

(** X29.  Among jobs with distinct names, two jobs that depend on each
    other, or one job that depends on itself, make
    [sortJobsByDependencies] throw. *)
Theorem sortJobsByDependencies_throws_on_cycle :
  forall jobs a b,
    NoDup (map job_name jobs) ->
    In a jobs -> In b jobs ->
    In (job_name b) (job_dependsOn a) ->
    In (job_name a) (job_dependsOn b) ->
    exists e, sortJobsByDependencies jobs = Some (inl e).
Proof.
  intros jobs a b ND Ha Hb Hab Hba.
  destruct (sort_result jobs) as (r & Er & Hr).
  destruct r as [e|l]; [now exists e|]. exfalso.
  destruct (Hr l eq_refl) as (NDl & Hincl & Hnames & Hfirst).
  assert (Hal : In a l).
  { assert (Hn : In (job_name a) (map job_name l))
      by (apply Hnames; now apply in_map).
    apply in_map_iff in Hn as (j' & E & Hj').
    now rewrite <- (names_injective jobs j' a ND (Hincl j' Hj') Ha E). }
  apply in_split in Hal as (pre & post & El).
  pose proof (Hfirst pre a post El (job_name b) Hab (in_map job_name _ _ Hb))
    as Hbpre.
  apply in_map_iff in Hbpre as (b' & E & Hb').
  assert (b' = b).
  { apply (names_injective jobs b' b ND); try assumption.
    apply Hincl. rewrite El. apply in_or_app. now left. }
  subst b'. apply in_split in Hb' as (p1 & p2 & Ep).
  assert (El' : l = p1 ++ b :: (p2 ++ a :: post)).
  { rewrite El, Ep, <- app_assoc. reflexivity. }
  pose proof (Hfirst p1 b (p2 ++ a :: post) El' (job_name a) Hba
                (in_map job_name _ _ Ha)) as Hap1.
  rewrite El', map_app in NDl.
  apply (NoDup_app_disjoint (map job_name p1)
           (map job_name (b :: p2 ++ a :: post)) (job_name a) NDl Hap1).
  apply in_map. right. apply in_or_app. right. now left.
Qed.

(** A pipeline whose only job depends on itself passes [validatePipeline]
    and cannot be sorted. *)
Lemma sortJobsByDependencies_throws_on_cycle_witness :
  validatePipeline
    (mkPipeline "ci" ["push"] []
       [mkJob "deploy" (Some "ubuntu-22.04") ["deploy"] [] [a_step] None])
  = None
  /\ exists e,
       sortJobsByDependencies
         [mkJob "deploy" (Some "ubuntu-22.04") ["deploy"] [] [a_step] None]
       = Some (inl e).
Proof.
  split; [reflexivity|].
  apply (sortJobsByDependencies_throws_on_cycle
           [mkJob "deploy" (Some "ubuntu-22.04") ["deploy"] [] [a_step] None]
           (mkJob "deploy" (Some "ubuntu-22.04") ["deploy"] [] [a_step] None)
           (mkJob "deploy" (Some "ubuntu-22.04") ["deploy"] [] [a_step] None)).
  - cbn. repeat constructor. intros [].
  - now left.
  - now left.
  - now left.
  - now left.
Defined.

(** ** The jobs of a local run *)

Lemma keys_set_in {A} (o : Obj A) k v k' :
  In k' (keys (set o k v)) -> In k' (keys o) \/ k' = k.
Proof.
  induction o as [|[k0 v0] o IH]; cbn [set keys map fst In].
  - intros [<-|[]]. now right.
  - destruct (String.eqb k0 k); cbn [keys map fst In]; [tauto|].
    intros [E|H]; [tauto|]. destruct (IH H); tauto.
Qed.

Lemma succeeded_is_key results dep :
  not_succeeded results dep = false -> In dep (keys results).
Proof.
  unfold not_succeeded. intros H. apply has_true_iff. unfold has.
  destruct (lookup results dep); [reflexivity | discriminate].
Qed.

Section RunLoopFacts.
Variable World : Type.
Variable spawn : World -> SpawnArgs -> option Z -> ProcRun * World.
Variable bun_env : Obj string.
Variable condition : JobDefinition -> option JobCondition.
Variable configDir : string.
Variable env : Obj string.
Variable all : list JobDefinition.

Local Abbreviation body :=
  (run_body World spawn bun_env condition configDir env).

Lemma run_body_results st job :
  exists entry,
    results (body st job) = set (results st) (job_name job) entry.
Proof.
  unfold run_body.
  destruct (runJob World spawn bun_env (world st) job _) as [result w'].
  destruct (find _ (job_dependsOn job)) as [[|c d]|];
    try (eexists; reflexivity);
    destruct (condition job) as [[s|f]|];
    try (eexists; reflexivity).
  - destruct (String.eqb s "on_failure" && negb (failed st));
      eexists; reflexivity.
  - destruct (f (results st)); eexists; reflexivity.
  - destruct (String.eqb s "on_failure" && negb (failed st));
      eexists; reflexivity.
  - destruct (f (results st)); eexists; reflexivity.
Qed.

Lemma run_body_jobResults st job :
  jobResults (body st job) = jobResults st
  \/ (exists result,
        jobResults (body st job) = jobResults st ++ [result]
        /\ jr_job result = job_name job
        /\ (find (not_succeeded (results st)) (job_dependsOn job) = None
            \/ find (not_succeeded (results st)) (job_dependsOn job)
               = Some "")).
Proof.
  unfold run_body.
  destruct (runJob World spawn bun_env (world st) job _) as [result w']
    eqn:Erun.
  assert (Hname : jr_job result = job_name job).
  { unfold runJob in Erun. inversion Erun. reflexivity. }
  destruct (find _ (job_dependsOn job)) as [[|c d]|];
    try (now left);
    destruct (condition job) as [[s|f]|];
    try (right; exists result; cbn [jobResults]; now auto).
  - destruct (String.eqb s "on_failure" && negb (failed st));
      [now left | right; exists result; cbn [jobResults]; now auto].
  - destruct (f (results st));
      [right; exists result; cbn [jobResults]; now auto | now left].
  - destruct (String.eqb s "on_failure" && negb (failed st));
      [now left | right; exists result; cbn [jobResults]; now auto].
  - destruct (f (results st));
      [right; exists result; cbn [jobResults]; now auto | now left].
Qed.

Lemma run_body_keeps st job done :
  (forall k, In k (keys (results st)) -> In k done) ->
  ~ In (job_name job) done ->
  In job all -> ~ In "" (job_dependsOn job) ->
  ran_after_dependencies all (results st) (jobResults st) ->
  (forall k, In k (keys (results (body st job))) ->
             In k (done ++ [job_name job]))
  /\ ran_after_dependencies all (results (body st job))
                            (jobResults (body st job)).
Proof.
  intros Hkeys Hnew Hjob Hdeps Hran.
  destruct (run_body_results st job) as [entry Eres]. rewrite Eres.
  assert (Hkeep : forall dep,
             not_succeeded (results st) dep = false ->
             not_succeeded (set (results st) (job_name job) entry) dep
             = false).
  { intros dep Hd. unfold not_succeeded.
    rewrite lookup_set_other; [exact Hd|].
    intros ->. apply Hnew, Hkeys. now apply succeeded_is_key. }
  split.
  - intros k Hk. apply in_or_app.
    destruct (keys_set_in _ _ _ _ Hk) as [H| ->];
      [left; now apply Hkeys | right; now left].
  - assert (Hold : forall r, In r (jobResults st) ->
               exists j, In j all /\ jr_job r = job_name j
                         /\ forall dep, In dep (job_dependsOn j) ->
                              not_succeeded
                                (set (results st) (job_name job) entry) dep
                              = false).
    { intros r Hr. destruct (Hran r Hr) as (j & Hj & En & Hd).
      exists j. split; [exact Hj|]. split; [exact En|].
      intros dep Hdep. now apply Hkeep, Hd. }
    destruct (run_body_jobResults st job) as [E|(result & E & En & Hfind)];
      rewrite E; [exact Hold|].
    intros r Hr. apply in_app_or in Hr as [Hr|[<-|[]]]; [now apply Hold|].
    exists job. split; [exact Hjob|]. split; [exact En|].
    intros dep Hdep. apply Hkeep. destruct Hfind as [Hnone|Hsome].
    + exact (find_none _ _ Hnone dep Hdep).
    + apply find_some in Hsome as [Hin _]. contradiction.
Qed.

Lemma run_loop_keeps l : forall st done,
  NoDup (map job_name l) ->
  (forall job, In job l -> ~ In (job_name job) done) ->
  (forall job, In job l -> In job all /\ ~ In "" (job_dependsOn job)) ->
  (forall k, In k (keys (results st)) -> In k done) ->
  ran_after_dependencies all (results st) (jobResults st) ->
  ran_after_dependencies all (results (fold_left body l st))
                         (jobResults (fold_left body l st)).
Proof.
  induction l as [|job l IH]; intros st done ND Hnew Hall Hkeys Hran;
    [exact Hran|].
  cbn [fold_left]. cbn [map] in ND. inversion ND as [|? ? Hnot ND']; subst.
  destruct (Hall job (or_introl eq_refl)) as [Hjob Hdeps].
  destruct (run_body_keeps st job done Hkeys
              (Hnew job (or_introl eq_refl)) Hjob Hdeps Hran)
    as [Hkeys' Hran'].
  apply (IH (body st job) (done ++ [job_name job])); try assumption.
  - intros j Hj Hin. apply in_app_or in Hin as [Hin|[E|[]]].
    + now apply (Hnew j (or_intror Hj)).
    + apply Hnot. rewrite E. now apply in_map.
  - intros j Hj. apply Hall. now right.
Qed.

End RunLoopFacts.

(** X30.  In a local run over jobs with distinct names and no empty
    dependency name, every job that is run is one of the jobs, and every
    job it depends on has [success] for its recorded result: a dependency
    that failed, was skipped or is not among the jobs keeps the job from
    running. *)
Theorem run_jobs_respects_dependencies :
  forall (World : Type)
         (spawn : World -> SpawnArgs -> option Z -> ProcRun * World)
         (bun_env : Obj string)
         (condition : JobDefinition -> option JobCondition)
         (configDir : string) (env : Obj string) (w : World)
         (sortedJobs : list JobDefinition),
    NoDup (map job_name sortedJobs) ->
    (forall job, In job sortedJobs -> ~ In "" (job_dependsOn job)) ->
    let st := run_jobs World spawn bun_env condition configDir env w
                       sortedJobs in
    forall r, In r (jobResults st) ->
      exists job,
        In job sortedJobs /\ jr_job r = job_name job
        /\ forall dep, In dep (job_dependsOn job) ->
             option_map res_status (lookup (results st) dep)
             = Some ResSuccess.
Proof.
  intros World spawn bun_env condition configDir env w sortedJobs ND Hdeps st.
  assert (Hran : ran_after_dependencies sortedJobs (results st)
                                        (jobResults st)).
  { subst st. unfold run_jobs.
    apply (run_loop_keeps World spawn bun_env condition configDir env
             sortedJobs sortedJobs _ []); try assumption.
    - intros job _ [].
    - intros job Hj. split; [exact Hj | now apply Hdeps].
    - intros k [].
    - intros r []. }
  intros r Hr. destruct (Hran r Hr) as (job & Hj & En & Hd).
  exists job. split; [exact Hj|]. split; [exact En|].
  intros dep Hdep. specialize (Hd dep Hdep). unfold not_succeeded in Hd.
  destruct (lookup (results st) dep) as [[[] o]|]; try discriminate.
  reflexivity.
Qed.

Lemma run_jobs_respects_dependencies_witness :
  let st := run_jobs unit failing_machine [] (fun _ => None) "/srv/demo" []
                     tt [build_job; test_job] in
  map jr_job (jobResults st) = ["build"]
  /\ forall r, In r (jobResults st) ->
       exists job,
         In job [build_job; test_job] /\ jr_job r = job_name job
         /\ forall dep, In dep (job_dependsOn job) ->
              option_map res_status (lookup (results st) dep)
              = Some ResSuccess.
Proof.
  split; [reflexivity|].
  apply (run_jobs_respects_dependencies unit failing_machine []
           (fun _ => None) "/srv/demo" [] tt [build_job; test_job]).
  - cbn. repeat constructor; simpl; intuition discriminate.
  - intros job [<-|[<-|[]]]; cbn; intuition discriminate.
Defined.
